(** * Result tagging and argument injection of graphql-tools-fork

    A shallow embedding of five modules:

    - [Errors]: the result-tagging utilities ([relocatedError],
      [createMergedResult], [getErrorsFromParent], [combineErrors]);
    - [AddArguments]: the request transform
      [AddArgumentsAsVariablesTransform];
    - [TypeDefs]: [concatenateTypeDefs] and [uniq];
    - [ServerHttpLink]: the form data of [createServerHttpLink];
    - [Mock]: [copyOwnProps] and the merge of a mocked value with a
      resolved one.

    JavaScript objects that the code mutates live in an explicit store, so
    that identity and aliasing are visible in the statements. The
    definitions come first, module by module, then the facts about them. *)

From stdpp Require Import gmap strings list pretty.

Local Open Scope string_scope.
Local Open Scope list_scope.
Local Open Scope nat_scope.
Set Warnings "-register-all".

(** * Errors: tagging merged results *)

Module Errors.

(** ** Data of graphql-js that the module only passes along *)

(** A node of a parsed document, named by its printed form. *)
Definition ASTNode : Type := string.
(** The source text a document was parsed from. *)
Definition Source : Type := string.
(** The [extensions] bag of an error. *)
Definition Extensions : Type := list (string * string).
(** [GraphQLSchema | SubschemaConfig], named. *)
Definition Subschema : Type := string.

(** A path segment is [string | number]; the numbers are array indices. *)
Inductive PathSegment :=
  | Key (name : string)
  | Index (i : nat).

Global Instance PathSegment_eq_dec : EqDecision PathSegment.
Proof. solve_decision. Defined.

(** An error object, described by the call
    [new GraphQLError(message, nodes, source, positions, path, originalError,
    extensions)] that built it. An argument left out or [undefined] is [None].
    A plain [Error] is the case without [path]. *)
Inductive GraphQLError := mkGraphQLError {
  message : string;
  nodes : option (list ASTNode);
  source : option Source;
  positions : option (list nat);
  path : option (list PathSegment);
  originalError : option GraphQLError;
  extensions : option Extensions
}.

(** The property [error.extensions]: graphql-js exposes the [extensions]
    argument and, when there is none, the extensions of [originalError]. *)
Fixpoint get_extensions (error : GraphQLError) : option Extensions :=
  match error with
  | mkGraphQLError _ _ _ _ _ original ext =>
      match ext with
      | Some x => Some x
      | None =>
          match original with
          | Some o => get_extensions o
          | None => None
          end
      end
  end.

(** [path.slice(1)] *)
Definition slice1 {A} (l : list A) : list A := drop 1 l.

(** ** relocatedError *)

Definition relocatedError (original : GraphQLError)
    (fallbackNodes : option (list ASTNode))
    (newPath : option (list PathSegment)) : GraphQLError :=
  match path original with
  | Some oldPath =>
      (* Array.isArray(originalError.path) *)
      mkGraphQLError
        (message original)
        (nodes original)
        (source original)
        (positions original)
        (match newPath with Some p => Some p | None => Some oldPath end)
        (originalError original)
        (get_extensions original)
  | None =>
      mkGraphQLError
        (message original)
        (match nodes original with Some n => Some n | None => fallbackNodes end)
        (source original)
        (positions original)
        newPath
        (Some original)
        None
  end.

(** The relocation both branches of [createMergedResult] apply:
    [relocatedError(error, error.nodes,
                    error.path ? error.path.slice(1) : undefined)]. *)
Definition relocate (error : GraphQLError) : GraphQLError :=
  relocatedError error (nodes error)
    (match path error with Some p => Some (slice1 p) | None => None end).

(** The relocation as the specification words it for the errors of an array
    element: the index segment, which is the second of the path, is dropped
    and the first stays. *)
Definition relocateWithoutIndex (error : GraphQLError) : GraphQLError :=
  relocatedError error (nodes error)
    (match path error with
     | Some p => Some (take 1 p ++ drop 2 p)
     | None => None
     end).

(** ** combineErrors *)

Record CombinedError := mkCombinedError {
  combined_message : string;
  errors : list GraphQLError
}.

(** [Array.prototype.join] of strings. *)
Fixpoint join (sep : string) (l : list string) : string :=
  match l with
  | [] => ""
  | [s] => s
  | s :: rest => s +:+ sep +:+ join sep rest
  end.

Inductive Combined :=
  | Single (error : GraphQLError)
  | Aggregate (error : CombinedError).

(** The line feed ["\n"]. *)
Definition newline : string := String (Ascii.ascii_of_nat 10) EmptyString.

Definition combineErrors (errors : list GraphQLError) : Combined :=
  match errors with
  | [e] =>
      Single (mkGraphQLError (message e) (nodes e) (source e) (positions e)
                (path e) (originalError e) (get_extensions e))
  | _ => Aggregate (mkCombinedError (join newline (message <$> errors)) errors)
  end.

(** ** Result values and the store of result objects *)

(** An address in the store. *)
Abbreviation loc := nat (only parsing).

(** A raw result value. Objects are references into the store: the code tags
    them in place. Arrays are only read and rebuilt ([Array.prototype.map]
    returns a new array), so they are carried by value. *)
Inductive Value :=
  | VUndefined
  | VNull
  | VBoolean (b : bool)
  | VNumber (n : Z)
  | VString (s : string)
  | VArray (items : list Value)
  | VObject (l : loc).

(** A result object: its own string-keyed properties and the three
    symbol-keyed slots of this module (the environment has [Symbol]). A slot
    that was never set is [None]. *)
Record Obj := mkObj {
  fields : gmap string Value;
  MERGED_NULL_SYMBOL : option bool;
  ERROR_SYMBOL : option (list GraphQLError);
  SUBSCHEMAS_SYMBOL : option (list Subschema)
}.

Abbreviation Heap := (list Obj) (only parsing).

(** [{ [MERGED_NULL_SYMBOL]: true }] *)
Definition mergedNull : Obj := mkObj ∅ (Some true) None None.

(** A new object is stored at the first free address. *)
Definition alloc (o : Obj) (h : Heap) : loc * Heap := (length h, h ++ [o]).

(** [result[ERROR_SYMBOL] = errors; result[SUBSCHEMAS_SYMBOL] = subschemas] *)
Definition setTags (errors : list GraphQLError) (subschemas : list Subschema)
    (o : Obj) : Obj :=
  mkObj (fields o) (MERGED_NULL_SYMBOL o) (Some errors) (Some subschemas).

(** ** createMergedResult *)

(** The property key a path segment denotes when it indexes [byIndex]; a
    path of length one has [error.path[1] === undefined]. *)
Definition propertyKey (segment : option PathSegment) : string :=
  match segment with
  | Some (Key name) => name
  | Some (Index i) => pretty i
  | None => "undefined"
  end.

(** One round of [errors.forEach] in the array branch: errors without a path
    are skipped, the others are relocated and pushed onto the list stored
    under their second path segment. [byIndex] is the map of the own
    properties of the object the code files them in. *)
Definition addByIndex (byIndex : gmap string (list GraphQLError))
    (error : GraphQLError) : gmap string (list GraphQLError) :=
  match path error with
  | None => byIndex
  | Some p =>
      let index := propertyKey (p !! 1) in
      let current := default [] (byIndex !! index) in
      <[index := current ++ [relocate error]]> byIndex
  end.

Definition groupByIndex (errors : list GraphQLError)
  : gmap string (list GraphQLError) :=
  foldl addByIndex ∅ errors.

(** [byIndex[index]], with the default [errors = []] of the parameter. *)
Definition errorsAt (byIndex : gmap string (list GraphQLError)) (index : nat)
  : list GraphQLError :=
  default [] (byIndex !! pretty index).

Fixpoint createMergedResult (result : Value) (errors : list GraphQLError)
    (subschemas : list Subschema) (h : Heap) {struct result} : Value * Heap :=
  match result with
  | VUndefined | VNull =>
      (* result == null *)
      let '(l, h1) := alloc mergedNull h in
      (VObject l, alter (setTags (relocate <$> errors) subschemas) l h1)
  | VBoolean _ | VNumber _ | VString _ =>
      (* typeof result !== 'object' *)
      (result, h)
  | VArray items =>
      let byIndex := groupByIndex errors in
      let fix mapItems (items : list Value) (index : nat) (h : Heap)
          : list Value * Heap :=
        match items with
        | [] => ([], h)
        | item :: rest =>
            let '(item', h1) :=
              createMergedResult item (errorsAt byIndex index) subschemas h in
            let '(rest', h2) := mapItems rest (S index) h1 in
            (item' :: rest', h2)
        end in
      let '(items', h') := mapItems items 0 h in
      (VArray items', h')
  | VObject l =>
      (VObject l, alter (setTags (relocate <$> errors) subschemas) l h)
  end.

(** [result.map((item, index) => tag(index, item))], the store threaded
    through the calls from left to right, counting from [index]. *)
Fixpoint mapItems (tag : nat → Value → Heap → Value * Heap)
    (items : list Value) (index : nat) (h : Heap) : list Value * Heap :=
  match items with
  | [] => ([], h)
  | item :: rest =>
      let '(item', h1) := tag index item h in
      let '(rest', h2) := mapItems tag rest (S index) h1 in
      (item' :: rest', h2)
  end.

(** The error has a path, and [error.path[1]] denotes the property [key]. *)
Definition hasKey (key : string) (error : GraphQLError) : bool :=
  match path error with
  | Some p => bool_decide (propertyKey (p !! 1) = key)
  | None => false
  end.

(** [error.path[1]] names the array index [index]. *)
Definition hasIndex (index : nat) (error : GraphQLError) : bool :=
  hasKey (pretty index) error.

(** Two errors that [createMergedResult] cannot tell apart: it relocates
    them to the same error and files them under the same key. *)
Definition agree (e e' : GraphQLError) : Prop :=
  relocate e = relocate e' ∧
  (λ p : list PathSegment, propertyKey (p !! 1)) <$> path e
  = (λ p : list PathSegment, propertyKey (p !! 1)) <$> path e'.

(** The values a tag can be attached to: [null] and [undefined], which
    become a marker object, and the objects of the store. *)
Definition taggable (v : Value) (h : Heap) : Prop :=
  match v with
  | VUndefined | VNull => True
  | VObject l => is_Some (h !! l)
  | _ => False
  end.

(** The scalars: [typeof v !== 'object'] and [v] is not [undefined]. *)
Definition scalar (v : Value) : Prop :=
  match v with
  | VBoolean _ | VNumber _ | VString _ => True
  | _ => False
  end.

(** Every object a value refers to, also inside arrays, lies below [n]. *)
Fixpoint refsBelow (n : nat) (v : Value) : Prop :=
  match v with
  | VObject l => l < n
  | VArray items =>
      (fix all (items : list Value) : Prop :=
         match items with
         | [] => True
         | item :: rest => refsBelow n item ∧ all rest
         end) items
  | _ => True
  end.

(** ** Accessors *)

(** [object[ERROR_SYMBOL]] for any value; [None] is [undefined]. *)
Definition errorTag (object : Value) (h : Heap) : option (list GraphQLError) :=
  match object with
  | VObject l => h !! l ≫= ERROR_SYMBOL
  | _ => None
  end.

(** [parent && parent[ERROR_SYMBOL]]; [None] stands for the falsy results. *)
Definition isParentProxiedResult (parent : Value) (h : Heap)
  : option (list GraphQLError) :=
  errorTag parent h.

(** [object && object[SUBSCHEMAS_SYMBOL]] *)
Definition getSubschemasFromParent (object : Value) (h : Heap)
  : option (list Subschema) :=
  match object with
  | VObject l => h !! l ≫= SUBSCHEMAS_SYMBOL
  | _ => None
  end.

(** [!error.path || error.path[0] === fieldName]: an array, also the empty
    one, is truthy, and a number is never [===] a string. *)
Definition isChildError (fieldName : string) (error : GraphQLError) : bool :=
  match path error with
  | None => true
  | Some p =>
      match p !! 0 with
      | Some (Key name) => bool_decide (name = fieldName)
      | _ => false
      end
  end.

(** [None] is the [null] returned when there is no array under
    [ERROR_SYMBOL]. *)
Definition getErrorsFromParent (object : Value) (fieldName : string)
    (h : Heap) : option (list GraphQLError) :=
  match errorTag object h with
  | None => None
  | Some errors =>
      Some (filter (λ error : GraphQLError, isChildError fieldName error) errors)
  end.

(** ** Measures and invariants of tagging *)

(** The characters of the decimal numerals, which name the array indices. *)
Definition isDigit (a : Ascii.ascii) : Prop :=
  a ∈ String.list_ascii_of_string "0123456789".

(** [error.path[1]] names an index of an array of length [n]. *)
Definition indexesInto (n : nat) (error : GraphQLError) : bool :=
  existsb (λ index, hasIndex index error) (seq 0 n).

(** The [null] and [undefined] leaves of a value, through its arrays. *)
Fixpoint nullCount (v : Value) : nat :=
  match v with
  | VUndefined | VNull => 1
  | VArray items =>
      (fix sum (items : list Value) : nat :=
         match items with
         | [] => 0
         | item :: rest => nullCount item + sum rest
         end) items
  | _ => 0
  end.

(** No leaf of [v], through its arrays, is [null] or [undefined], and every
    object among them answers [isParentProxiedResult] with an error list and
    [getSubschemasFromParent] with [subschemas]. *)
Fixpoint taggedThroughout (subschemas : list Subschema) (h : Heap)
    (v : Value) : Prop :=
  match v with
  | VUndefined | VNull => False
  | VArray items =>
      (fix all (items : list Value) : Prop :=
         match items with
         | [] => True
         | item :: rest => taggedThroughout subschemas h item ∧ all rest
         end) items
  | VObject l =>
      is_Some (isParentProxiedResult (VObject l) h) ∧
      getSubschemasFromParent (VObject l) h = Some subschemas
  | _ => True
  end.

(** From [h] to [h'] every object stayed where it was, as it was or with
    its two tags set anew. *)
Definition retagged (subschemas : list Subschema) (h h' : Heap) : Prop :=
  ∀ l o, h !! l = Some o →
    ∃ o', h' !! l = Some o' ∧
          (o' = o ∨ ∃ errors, o' = setTags errors subschemas o).

End Errors.

(** * AddArguments: the transform AddArgumentsAsVariablesTransform *)

Module AddArguments.

(** ** Values and the store *)

(** Plain data: the values of the [args] map given to the transform. *)
Inductive ArgValue :=
  | AUndefined
  | ANull
  | ABoolean (b : bool)
  | ANumber (n : Z)
  | AString (s : string)
  | AList (items : list ArgValue)
  | AObject (props : list (string * ArgValue)).

(** A JavaScript value. Every object and array of a request (the request
    itself, its variables, the document and all its nodes) is a reference
    into the store. *)
Inductive Val :=
  | VUndefined
  | VNull
  | VBoolean (b : bool)
  | VNumber (n : Z)
  | VString (s : string)
  | VRef (l : nat).

Global Instance Val_eq_dec : EqDecision Val.
Proof. solve_decision. Defined.

(** An object keeps its own properties in insertion order. *)
Inductive Cell :=
  | CObject (props : list (string * Val))
  | CArray (items : list Val).

Abbreviation Heap := (list Cell) (only parsing).

(** A computation reads and extends the store, or throws ([None]). *)
Definition M (A : Type) : Type := list Cell → option (A * list Cell).

Global Instance M_ret : MRet M := λ A a h, Some (a, h).
Global Instance M_bind : MBind M := λ A B f m h,
  match m h with
  | Some (a, h') => f a h'
  | None => None
  end.

Definition throw {A} : M A := λ _, None.

Definition liftOption {A} (o : option A) : M A :=
  match o with
  | Some a => mret a
  | None => throw
  end.

(** An object or array literal: a new cell at the first free address. *)
Definition alloc (c : Cell) : M Val :=
  λ h, Some (VRef (length h), h ++ [c]).

Fixpoint lookupProp (key : string) (props : list (string * Val))
  : option Val :=
  match props with
  | [] => None
  | (k, v) :: rest => if decide (k = key) then Some v else lookupProp key rest
  end.

(** [props[key] = v]: an existing key keeps its place, a new one goes last
    (the keys assigned here are GraphQL names, never array indices). *)
Fixpoint assign (key : string) (v : Val) (props : list (string * Val))
  : list (string * Val) :=
  match props with
  | [] => [(key, v)]
  | (k, v') :: rest =>
      if decide (k = key) then (k, v) :: rest
      else (k, v') :: assign key v rest
  end.

Definition assignAll (new props : list (string * Val))
  : list (string * Val) :=
  foldl (λ acc p, assign p.1 p.2 acc) props new.

(** [v.key]. Reading a property of [undefined] or [null] throws; a
    primitive has none of the properties read here, and the code reads no
    property of an array but through its methods. *)
Definition getProp (v : Val) (key : string) : M Val :=
  match v with
  | VUndefined | VNull => throw
  | VBoolean _ | VNumber _ | VString _ => mret VUndefined
  | VRef l =>
      λ h, match h !! l with
           | Some (CObject props) =>
               Some (default VUndefined (lookupProp key props), h)
           | Some (CArray _) => Some (VUndefined, h)
           | None => None
           end
  end.

(** The elements of [v] for [v.filter], [v.map], [v.forEach] and [v.concat]:
    these throw on anything but an array. *)
Definition arrayItems (v : Val) : M (list Val) :=
  match v with
  | VRef l =>
      λ h, match h !! l with
           | Some (CArray items) => Some (items, h)
           | _ => None
           end
  | _ => throw
  end.

(** The own enumerable properties [{...v}] copies. *)
Definition ownProperties (v : Val) : M (list (string * Val)) :=
  match v with
  | VRef l =>
      λ h, match h !! l with
           | Some (CObject props) => Some (props, h)
           | Some (CArray items) =>
               Some (imap (λ i item, (pretty i, item)) items, h)
           | None => None
           end
  | VString s =>
      mret (imap (λ i c, (pretty i, VString (String c EmptyString)))
              (String.list_ascii_of_string s))
  | _ => mret []
  end.

(** The property key a value denotes in [object[value]]. *)
Definition toPropertyKey (v : Val) : string :=
  match v with
  | VString s => s
  | VUndefined => "undefined"
  | VNull => "null"
  | VBoolean true => "true"
  | VBoolean false => "false"
  | VNumber n => pretty n
  | VRef _ => "[object Object]"
  end.

Fixpoint forEach {A S} (f : A → S → M S) (l : list A) (s : S) : M S :=
  match l with
  | [] => mret s
  | x :: rest => s' ← f x s; forEach f rest s'
  end.

Fixpoint filterM {A} (f : A → M bool) (l : list A) : M (list A) :=
  match l with
  | [] => mret []
  | x :: rest =>
      keep ← f x;
      kept ← filterM f rest;
      mret (if keep : bool then x :: kept else kept)
  end.

Fixpoint mapM {A B} (f : A → M B) (l : list A) : M (list B) :=
  match l with
  | [] => mret []
  | x :: rest => y ← f x; ys ← mapM f rest; mret (y :: ys)
  end.

(** ** The schema *)

Inductive InputType :=
  | GraphQLNonNull (ofType : InputType)
  | GraphQLList (ofType : InputType)
  | GraphQLScalarType (name : string)
  | GraphQLEnumType (name : string)
  | GraphQLInputObjectType (name : string).

Record GraphQLArgument := mkArgument {
  arg_name : string;
  arg_type : InputType
}.

Record GraphQLField := mkField {
  field_args : list GraphQLArgument
}.

(** An object type, by the map [getFields()] returns. *)
Record GraphQLObjectType := mkObjectType {
  getFields : list (string * GraphQLField)
}.

(** What the transform asks of the target schema: the root types, how an
    enum type serializes a value, and the fields of an input object type. *)
Record GraphQLSchema := mkSchema {
  getQueryType : option GraphQLObjectType;
  getMutationType : option GraphQLObjectType;
  getSubscriptionType : option GraphQLObjectType;
  enumSerialize : string → ArgValue → ArgValue;
  inputFields : string → list (string * InputType)
}.

(** [type.toString()] *)
Fixpoint toString (type : InputType) : string :=
  match type with
  | GraphQLNonNull ofType => toString ofType +:+ "!"
  | GraphQLList ofType => "[" +:+ toString ofType +:+ "]"
  | GraphQLScalarType name
  | GraphQLEnumType name
  | GraphQLInputObjectType name => name
  end.

Definition getNullableType (type : InputType) : InputType :=
  match type with
  | GraphQLNonNull ofType => ofType
  | _ => type
  end.

(** The node kinds of graphql-js. *)
Definition OPERATION_DEFINITION := "OperationDefinition".
Definition FRAGMENT_DEFINITION := "FragmentDefinition".
Definition FIELD := "Field".
Definition ARGUMENT := "Argument".
Definition NAME := "Name".
Definition VARIABLE := "Variable".
Definition VARIABLE_DEFINITION := "VariableDefinition".
Definition SELECTION_SET := "SelectionSet".
Definition NON_NULL_TYPE := "NonNullType".
Definition LIST_TYPE := "ListType".
Definition NAMED_TYPE := "NamedType".

(** ** typeToAst *)

Fixpoint typeToAst (type : InputType) : M Val :=
  match type with
  | GraphQLNonNull ofType =>
      innerType ← typeToAst ofType;
      kind ← getProp innerType "kind";
      if decide (kind = VString LIST_TYPE ∨ kind = VString NAMED_TYPE)
      then alloc (CObject [("kind", VString NON_NULL_TYPE);
                           ("type", innerType)])
      else throw (* Incorrent inner non-null type *)
  | GraphQLList ofType =>
      innerType ← typeToAst ofType;
      alloc (CObject [("kind", VString LIST_TYPE); ("type", innerType)])
  | _ =>
      name ← alloc (CObject [("kind", VString NAME);
                             ("value", VString (toString type))]);
      alloc (CObject [("kind", VString NAMED_TYPE); ("name", name)])
  end.

(** The kind of the node [typeToAst] makes for a type. *)
Definition astKind (type : InputType) : string :=
  match type with
  | GraphQLNonNull _ => NON_NULL_TYPE
  | GraphQLList _ => LIST_TYPE
  | _ => NAMED_TYPE
  end.

(** ** serializeArgumentValue *)

Fixpoint lookupType (key : string) (fields : list (string * InputType))
  : option InputType :=
  match fields with
  | [] => None
  | (k, t) :: rest => if decide (k = key) then Some t else lookupType key rest
  end.

Fixpoint assignArg (key : string) (v : ArgValue)
    (props : list (string * ArgValue)) : list (string * ArgValue) :=
  match props with
  | [] => [(key, v)]
  | (k, v') :: rest =>
      if decide (k = key) then (k, v) :: rest
      else (k, v') :: assignArg key v rest
  end.

(** [None] is a thrown [TypeError]: [value.map] on what is no array, or
    [fields[k].type] for a key that is no field of the input type. The keys
    of a non-empty string or array are indices, which are no field names. *)
Fixpoint serializeArgumentValue (schema : GraphQLSchema) (type : InputType)
    (value : ArgValue) {struct value} : option ArgValue :=
  match value with
  | AUndefined | ANull => Some ANull
  | _ =>
      match getNullableType type with
      | GraphQLEnumType name => Some (enumSerialize schema name value)
      | GraphQLScalarType _ => Some value
      | GraphQLList ofType =>
          match value with
          | AList items =>
              AList <$>
              (fix map (items : list ArgValue) : option (list ArgValue) :=
                 match items with
                 | [] => Some []
                 | v :: rest =>
                     v' ← serializeArgumentValue schema ofType v;
                     rest' ← map rest;
                     Some (v' :: rest')
                 end) items
          | _ => None
          end
      | GraphQLInputObjectType name =>
          let fields := inputFields schema name in
          match value with
          | AObject props =>
              AObject <$>
              (fix reduce (props : list (string * ArgValue))
                   (acc : list (string * ArgValue))
                 : option (list (string * ArgValue)) :=
                 match props with
                 | [] => Some acc
                 | (k, v) :: rest =>
                     t ← lookupType k fields;
                     v' ← serializeArgumentValue schema t v;
                     reduce rest (assignArg k v' acc)
                 end) props []
          | AList (_ :: _) => None
          | AString (String _ _) => None
          | _ => Some (AObject [])
          end
      | GraphQLNonNull _ => Some AUndefined
      end
  end.

(** Plain data stored as a value: arrays and objects become new cells. *)
Fixpoint allocData (d : ArgValue) : M Val :=
  match d with
  | AUndefined => mret VUndefined
  | ANull => mret VNull
  | ABoolean b => mret (VBoolean b)
  | ANumber n => mret (VNumber n)
  | AString s => mret (VString s)
  | AList items =>
      vs ← (fix map (items : list ArgValue) : M (list Val) :=
              match items with
              | [] => mret []
              | d :: rest => v ← allocData d; vs ← map rest; mret (v :: vs)
              end) items;
      alloc (CArray vs)
  | AObject props =>
      ps ← (fix map (props : list (string * ArgValue))
              : M (list (string * Val)) :=
              match props with
              | [] => mret []
              | (k, d) :: rest =>
                  v ← allocData d; ps ← map rest; mret ((k, v) :: ps)
              end) props;
      alloc (CObject ps)
  end.

(** ** generateVariableName *)

(** [`_v${variableCounter}_${argName}`] *)
Definition variableNameFor (variableCounter : nat) (argName : string)
  : string :=
  "_v" +:+ pretty variableCounter +:+ "_" +:+ argName.

(** The do-while loop of [generateVariableName], at most [fuel] rounds:
    the name made from the counter is taken unless it is one of
    [existingVariables]; the counter moves on in every round. [None] means
    the rounds ran out. *)
Fixpoint generateVariableNameLoop (fuel : nat) (existingVariables : list Val)
    (variableCounter : nat) (argName : string) : option (string * nat) :=
  match fuel with
  | 0 => None
  | S fuel =>
      let varName := variableNameFor variableCounter argName in
      let variableCounter := S variableCounter in
      if decide (VString varName ∈ existingVariables)
      then generateVariableNameLoop fuel existingVariables variableCounter
             argName
      else Some (varName, variableCounter)
  end.

(** One round more than there are existing names always suffices (proved
    below as [generateVariableName_total]). *)
Definition generateVariableName (existingVariables : list Val)
    (variableCounter : nat) (argName : string) : option (string * nat) :=
  generateVariableNameLoop (S (length existingVariables)) existingVariables
    variableCounter argName.

(** ** addVariablesToRootField *)

(** The local variables the closures of [addVariablesToRootField] update.
    All of them are created by the function itself ([{}], [[]], the result
    of [map]) and none is shared with the request while it is updated, so
    they are passed along by value: [variableNames] and [newVariables]
    belong to the call, the next four to one operation, [newArgs] to one
    selection. *)
Record Locals := mkLocals {
  variableNames : list (string * Val);
  newVariables : list (string * Val);
  existingVariables : list Val;
  variableCounter : nat;
  variables : list (string * Val);
  newSelectionSet : list Val;
  newArgs : list (string * Val)
}.

Fixpoint lookupArg (key : string) (args : list (string * ArgValue))
  : option ArgValue :=
  match args with
  | [] => None
  | (k, v) :: rest => if decide (k = key) then Some v else lookupArg key rest
  end.

Fixpoint lookupField (key : string) (fields : list (string * GraphQLField))
  : option GraphQLField :=
  match fields with
  | [] => None
  | (k, f) :: rest => if decide (k = key) then Some f else lookupField key rest
  end.

Definition nameNode (value : string) : Cell :=
  CObject [("kind", VString NAME); ("value", VString value)].

(** The body of [field.args.forEach]. *)
Definition addArgument (schema : GraphQLSchema)
    (args : list (string * ArgValue)) (argument : GraphQLArgument)
    (s : Locals) : M Locals :=
  match lookupArg (arg_name argument) args with
  | None => mret s (* !(argument.name in args) *)
  | Some value =>
      '(variableName, counter) ←
        liftOption (generateVariableName (existingVariables s)
                      (variableCounter s) (arg_name argument));
      name ← alloc (nameNode (arg_name argument));
      variableNameNode ← alloc (nameNode variableName);
      variable ← alloc (CObject [("kind", VString VARIABLE);
                                 ("name", variableNameNode)]);
      newArg ← alloc (CObject [("kind", VString ARGUMENT);
                               ("name", name);
                               ("value", variable)]);
      definitionName ← alloc (nameNode variableName);
      definitionVariable ← alloc (CObject [("kind", VString VARIABLE);
                                           ("name", definitionName)]);
      type ← typeToAst (arg_type argument);
      definition ← alloc (CObject [("kind", VString VARIABLE_DEFINITION);
                                   ("variable", definitionVariable);
                                   ("type", type)]);
      serialized ←
        liftOption (serializeArgumentValue schema (arg_type argument) value);
      data ← allocData serialized;
      mret (mkLocals
              (assign (arg_name argument) (VString variableName)
                 (variableNames s))
              (assign variableName data (newVariables s))
              (existingVariables s ++ [VString variableName])
              counter
              (assign variableName definition (variables s))
              (newSelectionSet s)
              (assign (arg_name argument) newArg (newArgs s)))
  end.

(** [selection.arguments.forEach(argument =>
       { newArgs[argument.name.value] = argument; })] *)
Definition collectArgument (argument : Val) (newArgs : list (string * Val))
  : M (list (string * Val)) :=
  name ← getProp argument "name";
  value ← getProp name "value";
  mret (assign (toPropertyKey value) argument newArgs).

(** The body of [operation.selectionSet.selections.forEach]; [type] is the
    root type of the operation, if the schema has it. *)
Definition addSelection (schema : GraphQLSchema)
    (args : list (string * ArgValue)) (type : option GraphQLObjectType)
    (selection : Val) (s : Locals) : M Locals :=
  kind ← getProp selection "kind";
  if decide (kind = VString FIELD) then
    arguments ← getProp selection "arguments";
    argumentNodes ← arrayItems arguments;
    newArgs0 ← forEach collectArgument argumentNodes [];
    nameOfField ← getProp selection "name";
    name ← getProp nameOfField "value";
    objectType ← liftOption type;
    field ← liftOption (lookupField (toPropertyKey name)
                          (getFields objectType));
    s' ← forEach (addArgument schema args) (field_args field)
           (mkLocals (variableNames s) (newVariables s)
              (existingVariables s) (variableCounter s) (variables s)
              (newSelectionSet s) newArgs0);
    props ← ownProperties selection;
    newArguments ← alloc (CArray (snd <$> newArgs s'));
    newSelection ← alloc (CObject (assign "arguments" newArguments props));
    mret (mkLocals (variableNames s') (newVariables s')
            (existingVariables s') (variableCounter s') (variables s')
            (newSelectionSet s' ++ [newSelection]) (newArgs s'))
  else
    mret (mkLocals (variableNames s) (newVariables s)
            (existingVariables s) (variableCounter s) (variables s)
            (newSelectionSet s ++ [selection]) (newArgs s)).

(** [variableDefinition.variable.name.value] *)
Definition variableNameOf (variableDefinition : Val) : M Val :=
  variable ← getProp variableDefinition "variable";
  name ← getProp variable "name";
  getProp name "value".

(** The names an operation declares:
    [operation.variableDefinitions.map(d => d.variable.name.value)]. *)
Definition declaredVariables (operation : Val) : M (list Val) :=
  variableDefinitions ← getProp operation "variableDefinitions";
  definitions ← arrayItems variableDefinitions;
  mapM variableNameOf definitions.

Definition rootType (schema : GraphQLSchema) (operationKind : Val)
  : option GraphQLObjectType :=
  if decide (operationKind = VString "subscription")
  then getSubscriptionType schema
  else if decide (operationKind = VString "mutation")
  then getMutationType schema
  else getQueryType schema.

(** The body of [operations.map]: the rewritten operation, a new object. The
    array [newSelectionSet] becomes a cell when it is put into the new
    selection set. *)
Definition addVariablesToOperation (schema : GraphQLSchema)
    (args : list (string * ArgValue)) (operation : Val) (s : Locals)
  : M (Val * Locals) :=
  existing ← declaredVariables operation;
  operationKind ← getProp operation "operation";
  selectionSet ← getProp operation "selectionSet";
  selections ← getProp selectionSet "selections";
  selectionNodes ← arrayItems selections;
  s' ← forEach (addSelection schema args (rootType schema operationKind))
         selectionNodes
         (mkLocals (variableNames s) (newVariables s) existing 0 [] [] []);
  props ← ownProperties operation;
  variableDefinitions ← getProp operation "variableDefinitions";
  definitions ← arrayItems variableDefinitions;
  newDefinitions ← alloc (CArray (definitions ++ (snd <$> variables s')));
  newSelections ← alloc (CArray (newSelectionSet s'));
  newSelectionSetNode ← alloc (CObject [("kind", VString SELECTION_SET);
                                        ("selections", newSelections)]);
  newOperation ←
    alloc (CObject (assign "selectionSet" newSelectionSetNode
                      (assign "variableDefinitions" newDefinitions props)));
  mret (newOperation, s').

Definition hasKind (kind : string) (definition : Val) : M bool :=
  k ← getProp definition "kind";
  mret (bool_decide (k = VString kind)).

Definition addVariablesToRootField (schema : GraphQLSchema) (document : Val)
    (args : list (string * ArgValue)) : M (Val * list (string * Val)) :=
  definitions ← getProp document "definitions";
  definitionNodes ← arrayItems definitions;
  operations ← filterM (hasKind OPERATION_DEFINITION) definitionNodes;
  fragments ← filterM (hasKind FRAGMENT_DEFINITION) definitionNodes;
  '(newOperations, s) ←
    forEach
      (λ operation '(done, s),
         '(newOperation, s') ←
           addVariablesToOperation schema args operation s;
         mret (done ++ [newOperation], s'))
      operations
      ([], mkLocals [] [] [] 0 [] [] []);
  props ← ownProperties document;
  newDefinitions ← alloc (CArray (newOperations ++ fragments));
  newDocument ← alloc (CObject (assign "definitions" newDefinitions props));
  mret (newDocument, newVariables s).

(** ** AddArgumentsAsVariablesTransform.transformRequest *)

Definition transformRequest (schema : GraphQLSchema)
    (args : list (string * ArgValue)) (originalRequest : Val) : M Val :=
  originalDocument ← getProp originalRequest "document";
  '(document, newVariables) ←
    addVariablesToRootField schema originalDocument args;
  originalVariables ← getProp originalRequest "variables";
  props ← ownProperties originalVariables;
  variables ← alloc (CObject (assignAll newVariables (assignAll props [])));
  alloc (CObject [("document", document); ("variables", variables)]).

(** ** Properties of computations *)

(** [m] leaves every cell of the store as it is and may add new ones. *)
Definition grows {A} (m : M A) : Prop :=
  ∀ (h : Heap) a h', m h = Some (a, h') → h `prefix_of` h'.

(** [m] only reads: it returns the store it was given, and gives the same
    result in every extension of that store. *)
Definition reads {A} (m : M A) : Prop :=
  ∀ (h : Heap) a h', m h = Some (a, h') →
    h' = h ∧ ∀ h2, h `prefix_of` h2 → m h2 = Some (a, h2).

(** What holds of the locals while an operation that declared [existing] is
    rewritten, for the list [generated] of the names made so far:
    [existingVariables] is [existing] followed by them, they are pairwise
    distinct and none is in [existing], [variables] has them as its keys, in
    order, each bound to a definition node of that variable, and each was
    made by [generateVariableName] for an argument of [args]. *)
Definition tracks (args : list (string * ArgValue)) (existing : list Val)
    (h : Heap) (s : Locals) (generated : list string) : Prop :=
  existingVariables s = existing ++ (VString <$> generated) ∧
  NoDup generated ∧
  (∀ name, name ∈ generated → VString name ∉ existing) ∧
  (variables s).*1 = generated ∧
  Forall (λ p, variableNameOf p.2 h = Some (VString p.1, h)) (variables s) ∧
  (∀ name, name ∈ generated →
     ∃ counter argName, name = variableNameFor counter argName ∧
                        is_Some (lookupArg argName args)).

(** ** Requests the transform applies to *)

(** A type that [typeToAst] converts: no non-null wrapper directly around
    another one. (graphql-js builds no other.) *)
Fixpoint validType (type : InputType) : Prop :=
  match type with
  | GraphQLNonNull ofType =>
      match ofType with GraphQLNonNull _ => False | _ => True end ∧
      validType ofType
  | GraphQLList ofType => validType ofType
  | _ => True
  end.

(** If [args] has a value for the argument, its type converts and the value
    serializes. *)
Definition okArgument (schema : GraphQLSchema)
    (args : list (string * ArgValue)) (argument : GraphQLArgument) : Prop :=
  ∀ value, lookupArg (arg_name argument) args = Some value →
    validType (arg_type argument) ∧
    is_Some (serializeArgumentValue schema (arg_type argument) value).

(** A selection is a node with a kind; a field selection has an array of
    named arguments and a name, and the root type [type] exists and has a
    field of that name, with arguments as above. *)
Definition okSelection (schema : GraphQLSchema)
    (args : list (string * ArgValue)) (type : option GraphQLObjectType)
    (h : Heap) (selection : Val) : Prop :=
  ∃ kind, getProp selection "kind" h = Some (kind, h) ∧
    (kind = VString FIELD →
     ∃ arguments argumentNodes newArgs nameOfField name objectType field,
       getProp selection "arguments" h = Some (arguments, h) ∧
       arrayItems arguments h = Some (argumentNodes, h) ∧
       forEach collectArgument argumentNodes [] h = Some (newArgs, h) ∧
       getProp selection "name" h = Some (nameOfField, h) ∧
       getProp nameOfField "value" h = Some (name, h) ∧
       type = Some objectType ∧
       lookupField (toPropertyKey name) (getFields objectType) = Some field ∧
       Forall (okArgument schema args) (field_args field)).

(** An operation has variable definitions that name their variables, an
    operation kind and a selection set whose selections are as above for
    the root type of that kind. *)
Definition okOperation (schema : GraphQLSchema)
    (args : list (string * ArgValue)) (h : Heap) (operation : Val) : Prop :=
  ∃ existing operationKind selectionSet selections selectionNodes props,
    declaredVariables operation h = Some (existing, h) ∧
    getProp operation "operation" h = Some (operationKind, h) ∧
    getProp operation "selectionSet" h = Some (selectionSet, h) ∧
    getProp selectionSet "selections" h = Some (selections, h) ∧
    arrayItems selections h = Some (selectionNodes, h) ∧
    Forall (okSelection schema args (rootType schema operationKind) h)
      selectionNodes ∧
    ownProperties operation h = Some (props, h).

(** A document has an array of definitions, each with a kind, and its
    operation definitions are as above. *)
Definition okDocument (schema : GraphQLSchema)
    (args : list (string * ArgValue)) (h : Heap) (document : Val) : Prop :=
  ∃ definitions definitionNodes operations fragments props,
    getProp document "definitions" h = Some (definitions, h) ∧
    arrayItems definitions h = Some (definitionNodes, h) ∧
    filterM (hasKind OPERATION_DEFINITION) definitionNodes h
      = Some (operations, h) ∧
    filterM (hasKind FRAGMENT_DEFINITION) definitionNodes h
      = Some (fragments, h) ∧
    Forall (okOperation schema args h) operations ∧
    ownProperties document h = Some (props, h).

(** A request has such a document, and variables that can be spread. *)
Definition okRequest (schema : GraphQLSchema)
    (args : list (string * ArgValue)) (h : Heap) (request : Val) : Prop :=
  ∃ document variables props,
    getProp request "document" h = Some (document, h) ∧
    okDocument schema args h document ∧
    getProp request "variables" h = Some (variables, h) ∧
    ownProperties variables h = Some (props, h).

(** ** What the transform makes *)

(** [node] is the type node of [type]: [{ kind, type }] around the node of
    the wrapped type for a non-null or list type, and
    [{ kind, name: { kind, value } }] with the name of a named type. *)
Fixpoint typeNode (h : Heap) (type : InputType) (node : Val) : Prop :=
  match type with
  | GraphQLNonNull ofType =>
      ∃ l inner,
        node = VRef l ∧
        h !! l = Some (CObject [("kind", VString NON_NULL_TYPE);
                                ("type", inner)]) ∧
        typeNode h ofType inner
  | GraphQLList ofType =>
      ∃ l inner,
        node = VRef l ∧
        h !! l = Some (CObject [("kind", VString LIST_TYPE);
                                ("type", inner)]) ∧
        typeNode h ofType inner
  | _ =>
      ∃ l name,
        node = VRef l ∧
        h !! l = Some (CObject [("kind", VString NAMED_TYPE);
                                ("name", VRef name)]) ∧
        h !! name = Some (nameNode (toString type))
  end.

(** [node] is the argument node [key: $variable]. *)
Definition argumentNode (h : Heap) (key variable : string) (node : Val)
  : Prop :=
  ∃ l name value variableName,
    node = VRef l ∧
    h !! l = Some (CObject [("kind", VString ARGUMENT);
                            ("name", VRef name);
                            ("value", VRef value)]) ∧
    h !! name = Some (nameNode key) ∧
    h !! value = Some (CObject [("kind", VString VARIABLE);
                                ("name", VRef variableName)]) ∧
    h !! variableName = Some (nameNode variable).

(** [node] is the variable definition [$variable: type]. *)
Definition definitionNode (h : Heap) (variable : string) (type : InputType)
    (node : Val) : Prop :=
  ∃ l value variableName typeOfVariable,
    node = VRef l ∧
    h !! l = Some (CObject [("kind", VString VARIABLE_DEFINITION);
                            ("variable", VRef value);
                            ("type", typeOfVariable)]) ∧
    h !! value = Some (CObject [("kind", VString VARIABLE);
                                ("name", VRef variableName)]) ∧
    h !! variableName = Some (nameNode variable) ∧
    typeNode h type typeOfVariable.

(** The value [v] is the plain data [d]: the same primitive, or an array
    or object of the store with the same elements or properties. *)
Fixpoint holds (h : Heap) (d : ArgValue) (v : Val) : Prop :=
  match d with
  | AUndefined => v = VUndefined
  | ANull => v = VNull
  | ABoolean b => v = VBoolean b
  | ANumber n => v = VNumber n
  | AString s => v = VString s
  | AList items =>
      ∃ l vs,
        v = VRef l ∧ h !! l = Some (CArray vs) ∧
        (fix all (items : list ArgValue) (vs : list Val) : Prop :=
           match items, vs with
           | [], [] => True
           | d :: items, v :: vs => holds h d v ∧ all items vs
           | _, _ => False
           end) items vs
  | AObject props =>
      ∃ l ps,
        v = VRef l ∧ h !! l = Some (CObject ps) ∧
        (fix all (props : list (string * ArgValue))
             (ps : list (string * Val)) : Prop :=
           match props, ps with
           | [], [] => True
           | (k, d) :: props, (k', v) :: ps =>
               k = k' ∧ holds h d v ∧ all props ps
           | _, _ => False
           end) props ps
  end.

(** [argument] is an argument of a field of a root type of the schema. *)
Definition rootArgument (schema : GraphQLSchema) (argument : GraphQLArgument)
  : Prop :=
  ∃ objectType fieldName field,
    (getQueryType schema = Some objectType ∨
     getMutationType schema = Some objectType ∨
     getSubscriptionType schema = Some objectType) ∧
    lookupField fieldName (getFields objectType) = Some field ∧
    argument ∈ field_args field.

(** The variable [name] with the value [v] was made for an argument of a
    root field that [args] has a value for: the name is generated from the
    name of the argument, and [v] is the value of [args], serialized for
    the type of the argument. *)
Definition injected (schema : GraphQLSchema) (args : list (string * ArgValue))
    (h : Heap) (name : string) (v : Val) : Prop :=
  ∃ counter argument value serialized,
    name = variableNameFor counter (arg_name argument) ∧
    rootArgument schema argument ∧
    lookupArg (arg_name argument) args = Some value ∧
    serializeArgumentValue schema (arg_type argument) value
      = Some serialized ∧
    holds h serialized v.

(** What holds of the variables made so far while a document is
    rewritten: every definition in [variables] is [$name: T] for its key
    [name] and the type [T] of an argument of a root field that [args] has
    a value for, and [newVariables] has a value under that name; every
    value in [newVariables] was made for such an argument. *)
Definition wellInjected (schema : GraphQLSchema)
    (args : list (string * ArgValue)) (h : Heap) (s : Locals) : Prop :=
  Forall (λ p, ∃ argument,
            definitionNode h p.1 (arg_type argument) p.2 ∧
            rootArgument schema argument ∧
            is_Some (lookupArg (arg_name argument) args) ∧
            p.1 ∈ (newVariables s).*1) (variables s) ∧
  ∀ key v, (key, v) ∈ newVariables s → injected schema args h key v.

(** An argument node of a rewritten field: one of the arguments [oldArgs]
    the field had, or [key: $name] for a variable [name] of [names]. *)
Definition argumentOk (h : Heap) (names : list string) (oldArgs : list Val)
    (node : Val) : Prop :=
  node ∈ oldArgs ∨
  ∃ key name, argumentNode h key name node ∧ name ∈ names.

(** [newSelection] is what a selection becomes: itself when it is no field;
    for a field a new object with the own properties of the field but for
    [arguments], which is a new array of arguments as above. *)
Definition rewritten (h : Heap) (names : list string)
    (selection newSelection : Val) : Prop :=
  ∃ kind,
    getProp selection "kind" h = Some (kind, h) ∧
    if decide (kind = VString FIELD) then
      ∃ l la props arguments oldArgs newArgs,
        newSelection = VRef l ∧
        ownProperties selection h = Some (props, h) ∧
        h !! l = Some (CObject (assign "arguments" (VRef la) props)) ∧
        getProp selection "arguments" h = Some (arguments, h) ∧
        arrayItems arguments h = Some (oldArgs, h) ∧
        h !! la = Some (CArray newArgs) ∧
        Forall (argumentOk h names oldArgs) newArgs
    else newSelection = selection.

(** [newOperation] is what an operation becomes: the object
    [{ ...operation, variableDefinitions, selectionSet }], where the new
    variable definitions are those of the operation followed by the
    definitions [generated], each [$name: T] for the type [T] of an argument
    of a root field that [args] has a value for and with a value under
    [name] in [newVariables], and the new selection set holds the
    selections of the operation, each rewritten, in their order. *)
Definition rewrittenOperation (schema : GraphQLSchema)
    (args : list (string * ArgValue)) (h : Heap)
    (newVariables : list (string * Val)) (operation newOperation : Val)
  : Prop :=
  ∃ selectionSet selections selectionNodes variableDefinitions definitions
    props l newDefinitions newSelectionSetNode newSelections
    (generated : list (string * Val)) newSelectionNodes,
    getProp operation "selectionSet" h = Some (selectionSet, h) ∧
    getProp selectionSet "selections" h = Some (selections, h) ∧
    arrayItems selections h = Some (selectionNodes, h) ∧
    getProp operation "variableDefinitions" h
      = Some (variableDefinitions, h) ∧
    arrayItems variableDefinitions h = Some (definitions, h) ∧
    ownProperties operation h = Some (props, h) ∧
    newOperation = VRef l ∧
    h !! l = Some (CObject
                     (assign "selectionSet" (VRef newSelectionSetNode)
                        (assign "variableDefinitions" (VRef newDefinitions)
                           props))) ∧
    h !! newDefinitions = Some (CArray (definitions ++ generated.*2)) ∧
    h !! newSelectionSetNode
      = Some (CObject [("kind", VString SELECTION_SET);
                       ("selections", VRef newSelections)]) ∧
    h !! newSelections = Some (CArray newSelectionNodes) ∧
    Forall (λ p, ∃ argument,
              definitionNode h p.1 (arg_type argument) p.2 ∧
              rootArgument schema argument ∧
              is_Some (lookupArg (arg_name argument) args) ∧
              p.1 ∈ newVariables.*1) generated ∧
    Forall2 (rewritten h generated.*1) selectionNodes newSelectionNodes.

(** [newDocument] is what a document becomes: the object
    [{ ...document, definitions }] whose definitions are the operation
    definitions of the document, each rewritten, in their order, followed
    by its fragment definitions, the same objects in their order. *)
Definition rewrittenDocument (schema : GraphQLSchema)
    (args : list (string * ArgValue)) (h : Heap)
    (newVariables : list (string * Val)) (document newDocument : Val)
  : Prop :=
  ∃ definitions definitionNodes operations fragments props l newDefinitions
    newOperations,
    getProp document "definitions" h = Some (definitions, h) ∧
    arrayItems definitions h = Some (definitionNodes, h) ∧
    filterM (hasKind OPERATION_DEFINITION) definitionNodes h
      = Some (operations, h) ∧
    filterM (hasKind FRAGMENT_DEFINITION) definitionNodes h
      = Some (fragments, h) ∧
    ownProperties document h = Some (props, h) ∧
    newDocument = VRef l ∧
    h !! l = Some (CObject (assign "definitions" (VRef newDefinitions)
                              props)) ∧
    h !! newDefinitions = Some (CArray (newOperations ++ fragments)) ∧
    Forall2 (rewrittenOperation schema args h newVariables)
      operations newOperations.

(** ** A sample request *)

(** The document [query ($_v0_id) { user ...F }] with a fragment [F], in a
    request with the variables [{ x: 1 }]; the request is the last cell. *)
Definition sampleStore : list Cell := [
  CObject [("kind", VString NAME); ("value", VString "_v0_id")];
  CObject [("kind", VString VARIABLE); ("name", VRef 0)];
  CObject [("kind", VString VARIABLE_DEFINITION); ("variable", VRef 1)];
  CArray [VRef 2];
  CObject [("kind", VString NAME); ("value", VString "user")];
  CArray [];
  CObject [("kind", VString FIELD); ("name", VRef 4); ("arguments", VRef 5)];
  CObject [("kind", VString "FragmentSpread")];
  CArray [VRef 6; VRef 7];
  CObject [("kind", VString SELECTION_SET); ("selections", VRef 8)];
  CObject [("kind", VString OPERATION_DEFINITION);
           ("operation", VString "query");
           ("variableDefinitions", VRef 3);
           ("selectionSet", VRef 9)];
  CObject [("kind", VString FRAGMENT_DEFINITION)];
  CArray [VRef 11; VRef 10];
  CObject [("kind", VString "Document"); ("definitions", VRef 12)];
  CObject [("x", VNumber 1)];
  CObject [("document", VRef 13); ("variables", VRef 14)]
].

Definition sampleRequest : Val := VRef 15.
Definition sampleOperation : Val := VRef 10.

(** [type Query { user(id: ID!, tags: [String], other: Int): User }] *)
Definition sampleSchema : GraphQLSchema :=
  mkSchema
    (Some (mkObjectType
       [("user",
         mkField [mkArgument "id" (GraphQLNonNull (GraphQLScalarType "ID"));
                  mkArgument "tags" (GraphQLList (GraphQLScalarType "String"));
                  mkArgument "other" (GraphQLScalarType "Int")])]))
    None None (λ _ value, value) (λ _, []).

Definition sampleArgs : list (string * ArgValue) :=
  [("id", AString "7"); ("tags", AList [AString "a"])].

End AddArguments.

(** * TypeDefs: concatenating type definitions *)

Module TypeDefs.

(** A parsed document or other node of graphql-js, named by what [print]
    makes of it. *)
Definition DocumentNode : Type := string.

(** An element of a type-definition array, by the tests the code makes on
    it. A function is known by its identity only: [indexOf] compares
    references. For anything else [typeOf] is what [typeof] gives. *)
Inductive ITypedef :=
  | TypedefFunction (f : nat)
  | TypedefString (s : string)
  | TypedefNode (node : DocumentNode)
  | TypedefOther (typeOf : string).

(** How a call ends: with a value, with a thrown [SchemaError], or cut off
    by the bound on the depth of calls. *)
Inductive Outcome (A : Type) :=
  | Returned (a : A)
  | Thrown (message : string)
  | OutOfFuel.
Arguments Returned {A} a.
Arguments Thrown {A} message.
Arguments OutOfFuel {A}.

Global Instance Outcome_ret : MRet Outcome := λ A a, Returned a.
Global Instance Outcome_bind : MBind Outcome := λ A B f m,
  match m with
  | Returned a => f a
  | Thrown message => Thrown message
  | OutOfFuel => OutOfFuel
  end.

(** [array.reduce((accumulator, currentValue) =>
      accumulator.indexOf(currentValue) === -1
        ? [...accumulator, currentValue] : accumulator, [])],
    on the strings it is called with. *)
Definition uniq (array : list string) : list string :=
  foldl (λ accumulator currentValue,
           if decide (currentValue ∈ accumulator) then accumulator
           else accumulator ++ [currentValue])
        [] array.

Section concatenate.

(** [String.prototype.trim] and the [print] of graphql-js. *)
Variable trim : string → string.
Variable print : DocumentNode → string.
(** The array the function with identity [f] returns when it is called. *)
Variable call : nat → list ITypedef.

(** The message of the [SchemaError] for an element of the wrong kind. *)
Definition wrongKind (typeOf : string) : string :=
  "typeDef array must contain only strings, ASTs or functions, got "
  +:+ typeOf.

(** [typeDefinitionsAry.forEach(...)]: the loop over the array, with the
    local [resolvedTypeDefinitions] and the shared array
    [calledFunctionRefs]; [recurse] is the function itself. *)
Fixpoint forEachTypeDef
    (recurse : list ITypedef → list nat → Outcome (string * list nat))
    (typeDefinitionsAry : list ITypedef)
    (resolvedTypeDefinitions : list string) (calledFunctionRefs : list nat)
  : Outcome (list string * list nat) :=
  match typeDefinitionsAry with
  | [] => mret (resolvedTypeDefinitions, calledFunctionRefs)
  | typeDef :: rest =>
      match typeDef with
      | TypedefFunction f =>
          if decide (f ∈ calledFunctionRefs)
          then forEachTypeDef recurse rest resolvedTypeDefinitions
                 calledFunctionRefs
          else
            '(text, called) ← recurse (call f) (calledFunctionRefs ++ [f]);
            forEachTypeDef recurse rest (resolvedTypeDefinitions ++ [text])
              called
      | TypedefString s =>
          forEachTypeDef recurse rest (resolvedTypeDefinitions ++ [trim s])
            calledFunctionRefs
      | TypedefNode node =>
          forEachTypeDef recurse rest
            (resolvedTypeDefinitions ++ [trim (print node)])
            calledFunctionRefs
      | TypedefOther typeOf => Thrown (wrongKind typeOf)
      end
  end.

(** [concatenateTypeDefs(typeDefinitionsAry, calledFunctionRefs)], with
    calls nested at most [fuel] deep. Besides the text it returns the
    array [calledFunctionRefs] as the call leaves it. *)
Fixpoint concatenateTypeDefs (fuel : nat) (typeDefinitionsAry : list ITypedef)
    (calledFunctionRefs : list nat) : Outcome (string * list nat) :=
  match fuel with
  | 0 => OutOfFuel
  | S fuel =>
      '(resolved, called) ←
        forEachTypeDef (concatenateTypeDefs fuel) typeDefinitionsAry []
          calledFunctionRefs;
      mret (Errors.join Errors.newline (uniq (trim <$> resolved)), called)
  end.

(** The strings the loop pushes for the elements that are no functions. *)
Definition texts (ary : list ITypedef) : list string :=
  omap (λ typeDef, match typeDef with
                   | TypedefString s => Some (trim s)
                   | TypedefNode node => Some (trim (print node))
                   | _ => None
                   end) ary.

End concatenate.

(** The functions among the elements have identities below [n]. *)
Definition functionsBelow (n : nat) (ary : list ITypedef) : Prop :=
  Forall (λ typeDef, match typeDef with
                     | TypedefFunction f => f < n
                     | _ => True
                     end) ary.

(** Every element is a string, a node or a function. *)
Definition wellKinded (ary : list ITypedef) : Prop :=
  Forall (λ typeDef, match typeDef with
                     | TypedefOther _ => False
                     | _ => True
                     end) ary.

(** What a call that returns has done, for a function [recurse] standing
    for [concatenateTypeDefs]: it only pushed onto [calledFunctionRefs],
    never a function that was there, its array had elements of the three
    kinds only, and so had the array of each function it pushed. *)
Definition growing (call : nat → list ITypedef)
    (recurse : list ITypedef → list nat → Outcome (string * list nat))
  : Prop :=
  ∀ ary called text called',
    recurse ary called = Returned (text, called') →
    called `prefix_of` called' ∧ (NoDup called → NoDup called') ∧
    wellKinded ary ∧
    (∀ f, f ∈ called' → f ∈ called ∨ wellKinded (call f)).

(** The identities below [n] that are not in [called]. *)
Definition uncalled (n : nat) (called : list nat) : list nat :=
  filter (λ f, f ∉ called) (seq 0 n).

(** Two functions that name each other: [a = () => ["type A", b]] and
    [b = () => [a, "type B"]]. *)
Definition sampleCall (f : nat) : list ITypedef :=
  match f with
  | 0 => [TypedefString "type A"; TypedefFunction 1]
  | _ => [TypedefFunction 0; TypedefString "type B"]
  end.

End TypeDefs.

(** * ServerHttpLink: the form data of createServerHttpLink *)

Module ServerHttpLink.

(** The [AppendOptions] of form-data; [None] is a property left out. *)
Record AppendOptions := mkAppendOptions {
  filename : option string;
  contentType : option string;
  knownLength : option nat
}.

(** The third argument of [append]: left out, a file name, or options. *)
Inductive OptionsOrFilename :=
  | Omitted
  | Filename (name : string)
  | Options (options : AppendOptions).

(** A value to append, by what [append] asks of it: whether it is a
    [Buffer] or a string and, for anything else, whether [value.path] and
    [value.readable] are truthy and [httpVersion] is an own property. *)
Inductive FormValue :=
  | Nullish
  | BufferValue (bytes : list N)
  | StringValue (s : string)
  | OtherValue (path readable ownHttpVersion : bool).

(** How a method call ends. *)
Inductive Completion :=
  | Normal
  | Abrupt.

(** [!options.knownLength]: a length that is left out or zero is falsy. *)
Definition lengthUnknown (options : AppendOptions) : bool :=
  match knownLength options with
  | Some (S _) => false
  | _ => true
  end.

(** The test of [append]; [None] is the [TypeError] of reading
    [value.path] on [null] or [undefined]. *)
Definition unknowable (options : AppendOptions) (value : FormValue)
  : option bool :=
  if lengthUnknown options then
    match value with
    | BufferValue _ => Some false
    | StringValue _ => Some false
    | Nullish => None
    | OtherValue path readable ownHttpVersion =>
        Some (negb path && negb (readable && ownHttpVersion))
    end
  else Some false.

Section FormData.

(** The superclass [KnownLengthFormData]: its state, its [append] and its
    [getLengthSync]. *)
Variable Base : Type.
Variable Length : Type.
Variable super_append :
  string → FormValue → AppendOptions → Base → Completion * Base.
Variable super_getLengthSync : Base → Length.

Record FormData := mkFormData {
  hasUnknowableLength : bool;
  super : Base
}.

(** [constructor(options) { super(options); this.hasUnknowableLength = false }],
    given the state [super(options)] makes. *)
Definition create (base : Base) : FormData := mkFormData false base.

Definition optionsOf (optionsOrFilename : OptionsOrFilename) : AppendOptions :=
  match optionsOrFilename with
  | Omitted => mkAppendOptions None None None
  | Filename name => mkAppendOptions (Some name) None None
  | Options options => options
  end.

Definition append (key : string) (value : FormValue)
    (optionsOrFilename : OptionsOrFilename) (this : FormData)
  : Completion * FormData :=
  let options := optionsOf optionsOrFilename in
  match unknowable options value with
  | None => (Abrupt, this)
  | Some unknown =>
      let flag := if unknown then true else hasUnknowableLength this in
      let '(completion, base) := super_append key value options (super this) in
      (completion, mkFormData flag base)
  end.

(** [None] is the [null] returned for a length that cannot be known. *)
Definition getLengthSync (this : FormData) : option Length :=
  if hasUnknowableLength this then None
  else Some (super_getLengthSync (super this)).

(** [getLength(callback)]: whether the callback is handed on to the
    superclass; otherwise [null] is returned and it is never called. *)
Definition getLength (this : FormData) : bool :=
  negb (hasUnknowableLength this).

(** A sequence of [append] calls on one object, whichever way each ends. *)
Definition appendAll
    (calls : list (string * FormValue * OptionsOrFilename))
    (this : FormData) : FormData :=
  foldl (λ this '(key, value, optionsOrFilename),
           (append key value optionsOrFilename this).2) this calls.

End FormData.

(** The call sets the flag. *)
Definition setsFlag (call : string * FormValue * OptionsOrFilename) : bool :=
  let '(_, value, optionsOrFilename) := call in
  bool_decide (unknowable (optionsOf optionsOrFilename) value = Some true).

End ServerHttpLink.

(** * Mock: merging a mocked value with a resolved one *)

Module Mock.

Section properties.

(** A property descriptor; the code copies descriptors and never looks
    into one. [emptyDescriptor] is [{}]. *)
Variable Descriptor : Type.
Variable emptyDescriptor : Descriptor.

(** An object: its own string-keyed properties in the order of
    [Object.getOwnPropertyNames], and its prototype. *)
Inductive JSObject :=
  | mkJSObject (own : list (string * Descriptor))
               (prototype : option JSObject).

Definition own (o : JSObject) : list (string * Descriptor) :=
  match o with mkJSObject own _ => own end.

Definition prototype (o : JSObject) : option JSObject :=
  match o with mkJSObject _ prototype => prototype end.

(** [Object.getOwnPropertyDescriptor], on the own properties. *)
Fixpoint getOwnPropertyDescriptor (props : list (string * Descriptor))
    (prop : string) : option Descriptor :=
  match props with
  | [] => None
  | (key, descriptor) :: rest =>
      if decide (key = prop) then Some descriptor
      else getOwnPropertyDescriptor rest prop
  end.

(** [copyOwnPropsIfNotPresent(target, source)]; the target is the object
    being built, given by its own properties. *)
Definition copyOwnPropsIfNotPresent (target : list (string * Descriptor))
    (source : JSObject) : list (string * Descriptor) :=
  foldl (λ target prop,
           match getOwnPropertyDescriptor target prop with
           | Some _ => target
           | None =>
               let propertyDescriptor :=
                 getOwnPropertyDescriptor (own source) prop in
               target ++ [(prop, default emptyDescriptor propertyDescriptor)]
           end)
        target ((own source).*1).

(** The loop [while (chain != null) { ...; chain = getPrototypeOf(chain) }]
    of [copyOwnProps], for one source. *)
Fixpoint copyChain (chain : JSObject) (target : list (string * Descriptor))
  : list (string * Descriptor) :=
  match chain with
  | mkJSObject _ next =>
      let target := copyOwnPropsIfNotPresent target chain in
      match next with
      | Some chain => copyChain chain target
      | None => target
      end
  end.

Definition copyOwnProps (target : list (string * Descriptor))
    (sources : list JSObject) : list (string * Descriptor) :=
  foldl (λ target source, copyChain source target) target sources.

(** The descriptor a property has on an object, own or inherited. *)
Fixpoint findProperty (o : JSObject) (prop : string) : option Descriptor :=
  match o with
  | mkJSObject own next =>
      match getOwnPropertyDescriptor own prop with
      | Some descriptor => Some descriptor
      | None =>
          match next with
          | Some chain => findProperty chain prop
          | None => None
          end
      end
  end.

(** What [instanceof] tells of an object. *)
Inductive ObjectClass :=
  | ErrorObject
  | DateObject
  | OtherObject.

(** A value a resolver gives, by the tests the code makes. *)
Inductive JSValue :=
  | VUndefined
  | VNull
  | VPrimitive (text : string)
  | VArray (items : list JSValue)
  | VObj (class : ObjectClass) (o : JSObject).

(** [thing === Object(thing) && !Array.isArray(thing)] *)
Definition isObject (thing : JSValue) : bool :=
  match thing with
  | VObj _ _ => true
  | _ => false
  end.

Definition isError (thing : JSValue) : bool :=
  match thing with
  | VObj ErrorObject _ => true
  | _ => false
  end.

Definition isDate (thing : JSValue) : bool :=
  match thing with
  | VObj DateObject _ => true
  | _ => false
  end.

(** How the callback ends: with a value, or throwing one. *)
Inductive Settled :=
  | Fulfilled (value : JSValue)
  | Rejected (reason : JSValue).

(** [undefined !== resolvedValue ? resolvedValue : mockedValue] *)
Definition orElse (resolvedValue mockedValue : JSValue) : JSValue :=
  match resolvedValue with
  | VUndefined => mockedValue
  | _ => resolvedValue
  end.

(** The callback given to [Promise.all([...]).then] when the resolvers of
    a field are preserved. *)
Definition mergeResolved (mockedValue resolvedValue : JSValue) : Settled :=
  if isError mockedValue then
    match resolvedValue with
    | VUndefined => Rejected mockedValue
    | _ => Fulfilled resolvedValue
    end
  else if isDate resolvedValue && isDate mockedValue then
    Fulfilled (orElse resolvedValue mockedValue)
  else
    match mockedValue, resolvedValue with
    | VObj _ mocked, VObj class resolved =>
        (* Object.create(Object.getPrototypeOf(resolvedValue)) *)
        Fulfilled
          (VObj class
             (mkJSObject (copyOwnProps [] [resolved; mocked])
                (prototype resolved)))
    | _, _ => Fulfilled (orElse resolvedValue mockedValue)
    end.

(** The first property found, going through the objects in order. *)
Definition findFirst (objects : list JSObject) (prop : string)
  : option Descriptor :=
  foldr (λ o rest, match findProperty o prop with
                   | Some descriptor => Some descriptor
                   | None => rest
                   end) None objects.

End properties.

End Mock.

(** * Facts about the result-tagging utilities *)

Module ErrorsFacts.
Import Errors.

(** ** The functions on small inputs *)

Example relocate_drops_leading_segment :
  relocate (mkGraphQLError "boom" None None None
              (Some [Key "users"; Index 0; Key "name"]) None None)
  = mkGraphQLError "boom" None None None (Some [Index 0; Key "name"])
      None None.
Proof. reflexivity. Qed.

(** An error without a path is wrapped: the new error has the fallback
    nodes and no extensions argument of its own, and exposes the extensions
    of the error it wraps. *)
Example relocatedError_wraps_plain_error :
  let plain := mkGraphQLError "plain" None None None None None
                 (Some [("code", "E1")]) in
  relocatedError plain (Some ["node"]) None
  = mkGraphQLError "plain" (Some ["node"]) None None None (Some plain) None ∧
  get_extensions (relocatedError plain (Some ["node"]) None)
  = Some [("code", "E1")].
Proof. split; reflexivity. Qed.

Example combineErrors_joins_messages :
  let e1 := mkGraphQLError "first" None None None None None None in
  let e2 := mkGraphQLError "second" None None None None None None in
  combineErrors [e1; e2]
  = Aggregate (mkCombinedError ("first" +:+ newline +:+ "second") [e1; e2]).
Proof. reflexivity. Qed.

(** The error of element 0 ends up, under [[name]], on the marker made for
    that element; the scalar element stays as it is. *)
Example createMergedResult_tags_elements :
  createMergedResult (VArray [VNull; VNumber 3])
    [mkGraphQLError "boom" None None None
       (Some [Key "users"; Index 0; Key "name"]) None None]
    ["remote"] []
  = (VArray [VObject 0; VNumber 3],
     [mkObj ∅ (Some true)
        (Some [mkGraphQLError "boom" None None None (Some [Key "name"])
                 None None])
        (Some ["remote"])]).
Proof. reflexivity. Qed.

(** ** relocatedError and relocate *)

(** Building an error again from what another one exposes gives the same
    extensions. *)
Lemma get_extensions_copy m n s ps p (e : GraphQLError) :
  get_extensions
    (mkGraphQLError m n s ps p (originalError e) (get_extensions e))
  = get_extensions e.
Proof.
  destruct e as [? ? ? ? ? o [x|]]; simpl; [done|].
  destruct o as [o|]; [|done]. by destruct (get_extensions o).
Qed.

Lemma relocatedError_get_extensions original fallbackNodes newPath :
  get_extensions (relocatedError original fallbackNodes newPath)
  = get_extensions original.
Proof.
  unfold relocatedError. destruct (path original) as [oldPath|]; [|done].
  apply get_extensions_copy.
Qed.

Lemma relocatedError_path original fallbackNodes newPath :
  path (relocatedError original fallbackNodes newPath)
  = match newPath with
    | Some p => Some p
    | None => path original
    end.
Proof. unfold relocatedError. by destruct (path original), newPath. Qed.

Lemma relocate_path (e : GraphQLError) : path (relocate e) = slice1 <$> path e.
Proof. unfold relocate, relocatedError. by destruct (path e). Qed.

Lemma relocate_message (e : GraphQLError) : message (relocate e) = message e.
Proof. unfold relocate, relocatedError. by destruct (path e). Qed.


(** ** combineErrors *)

(** C8. One error is passed through as a copy with the same message, path
    and extensions; two or more errors give an aggregate whose message joins
    the members' messages with line feeds, in order, and whose member list is
    the input list. *)
Theorem combineErrors_spec :
  (∀ e, ∃ e', combineErrors [e] = Single e' ∧
      message e' = message e ∧ path e' = path e ∧
      get_extensions e' = get_extensions e) ∧
  (∀ e1 e2 rest, ∃ c, combineErrors (e1 :: e2 :: rest) = Aggregate c ∧
      combined_message c
        = message e1 +:+ newline +:+ join newline (message <$> e2 :: rest) ∧
      errors c = e1 :: e2 :: rest) ∧
  (∀ e1 e2, ∃ c, combineErrors [e1; e2] = Aggregate c ∧
      combined_message c = message e1 +:+ newline +:+ message e2 ∧
      errors c = [e1; e2]).
Proof.
  split_and!.
  - intros e. eexists. split; [reflexivity|].
    split_and!; [done|done|apply get_extensions_copy].
  - intros e1 e2 rest. eexists. split; [reflexivity|]. split; reflexivity.
  - intros e1 e2. eexists. split; [reflexivity|]. split; reflexivity.
Qed.

(** ** createMergedResult on objects and on null *)

(** C10. Tagging a live object returns the same reference. In the store only
    that object changes: it gains the relocated errors and the subschemas
    under [ERROR_SYMBOL] and [SUBSCHEMAS_SYMBOL]; its own properties and its
    null marker are as before, and so is every other object. *)
Theorem createMergedResult_object_in_place (l : loc) (o : Obj)
    (errors : list GraphQLError) (subschemas : list Subschema) (h : Heap) :
  h !! l = Some o →
  ∃ h' o',
    createMergedResult (VObject l) errors subschemas h = (VObject l, h') ∧
    h' !! l = Some o' ∧
    fields o' = fields o ∧
    MERGED_NULL_SYMBOL o' = MERGED_NULL_SYMBOL o ∧
    ERROR_SYMBOL o' = Some (relocate <$> errors) ∧
    SUBSCHEMAS_SYMBOL o' = Some subschemas ∧
    length h' = length h ∧
    ∀ l', l' ≠ l → h' !! l' = h !! l'.
Proof.
  intros Hl.
  exists (alter (setTags (relocate <$> errors) subschemas) l h),
         (setTags (relocate <$> errors) subschemas o).
  split_and!; try done.
  - by rewrite list_lookup_alter_eq, Hl.
  - apply length_alter.
  - intros l' Hne. by apply list_lookup_alter_ne.
Qed.

Lemma createMergedResult_object_in_place_witness :
  ∃ h' o',
    createMergedResult (VObject 0)
      [mkGraphQLError "boom" None None None (Some [Key "user"; Key "name"])
         None None]
      ["remote"]
      [mkObj {["name" := VNull]} None None None] = (VObject 0, h') ∧
    h' !! 0 = Some o' ∧
    fields o' = {["name" := VNull]} ∧
    MERGED_NULL_SYMBOL o' = None ∧
    ERROR_SYMBOL o'
      = Some [mkGraphQLError "boom" None None None (Some [Key "name"])
                None None] ∧
    SUBSCHEMAS_SYMBOL o' = Some ["remote"] ∧
    length h' = 1 ∧
    ∀ l', l' ≠ 0 →
      h' !! l' = [mkObj {["name" := VNull]} None None None] !! l'.
Proof.
  exact (createMergedResult_object_in_place 0
           (mkObj {["name" := VNull]} None None None)
           [mkGraphQLError "boom" None None None
              (Some [Key "user"; Key "name"]) None None]
           ["remote"]
           [mkObj {["name" := VNull]} None None None] eq_refl).
Defined.


Lemma createMergedResult_taggable (result : Value)
    (errors : list GraphQLError) (subschemas : list Subschema) (h : Heap) :
  taggable result h →
  ∃ v h', createMergedResult result errors subschemas h = (v, h') ∧
          errorTag v h' = Some (relocate <$> errors).
Proof.
  destruct result as [| | | | | |l]; simpl; try done.
  - intros _. eexists _, _. split; [reflexivity|]. simpl.
    rewrite list_lookup_alter_eq, list_lookup_middle by done. done.
  - intros _. eexists _, _. split; [reflexivity|]. simpl.
    rewrite list_lookup_alter_eq, list_lookup_middle by done. done.
  - intros [o Ho]. eexists _, _. split; [reflexivity|]. simpl.
    by rewrite list_lookup_alter_eq, Ho.
Qed.

(** ** getErrorsFromParent *)

Lemma isChildError_spec (fieldName : string) (e : GraphQLError) :
  isChildError fieldName e ↔
  path e = None ∨ ∃ rest, path e = Some (Key fieldName :: rest).
Proof.
  unfold isChildError. destruct (path e) as [[|[name|i] rest]|]; simpl.
  - split; [done|]. intros [?|[? ?]]; done.
  - rewrite bool_decide_spec. split.
    + intros ->. right. by eexists.
    + intros [?|[? ?]]; congruence.
  - split; [done|]. intros [?|[? ?]]; done.
  - split; [|done]. by left.
Qed.

(** C5 as stated fails: an error whose path is the empty list is attached
    to the node, and no field name gets it back. *)
Lemma getErrorsFromParent_empty_path_counterexample :
  let e := mkGraphQLError "boom" None None None (Some []) None None in
  let h := [mkObj ∅ None (Some [e]) (Some [])] in
  errorTag (VObject 0) h = Some [e] ∧
  path e = Some [] ∧
  ∀ fieldName, getErrorsFromParent (VObject 0) fieldName h = Some [].
Proof. done. Qed.

(** C5, amended. For a node that carries an error tag, the result is a
    sublist of the attached errors, in their order, made of exactly those
    that have no path at all or whose first path segment is the field name
    (an error with the empty path is left out). For a value without a tag the
    result is [null], which differs from the empty list a tagged node with no
    matching error gives. *)
Theorem getErrorsFromParent_spec (object : Value) (fieldName : string)
    (h : Heap) :
  match errorTag object h with
  | Some errors =>
      ∃ children,
        getErrorsFromParent object fieldName h = Some children ∧
        sublist children errors ∧
        ∀ e, e ∈ children ↔
             e ∈ errors ∧
             (path e = None ∨ ∃ rest, path e = Some (Key fieldName :: rest))
  | None =>
      getErrorsFromParent object fieldName h = None ∧
      getErrorsFromParent object fieldName h ≠ Some []
  end.
Proof.
  unfold getErrorsFromParent.
  destruct (errorTag object h) as [errors|]; [|done].
  eexists. split; [reflexivity|]. split.
  - apply sublist_filter.
  - intros e. rewrite list_elem_of_filter, isChildError_spec. tauto.
Qed.

(** ** createMergedResult on arrays *)

Lemma createMergedResult_VArray items errors subschemas (h : Heap) :
  createMergedResult (VArray items) errors subschemas h =
  let '(items', h') :=
    mapItems
      (λ index item,
         createMergedResult item (errorsAt (groupByIndex errors) index)
           subschemas)
      items 0 h in
  (VArray items', h').
Proof.
  cbn [createMergedResult].
  generalize 0. revert h.
  induction items as [|item rest IH]; intros h n; [done|].
  cbn [mapItems].
  destruct (createMergedResult item _ subschemas h) as [item' h1].
  specialize (IH h1 (S n)).
  destruct (mapItems _ rest (S n) h1) as [rest' h2].
  match type of IH with
  | (let '(_, _) := ?t in _) = _ => destruct t as [a b]
  end.
  by inversion IH.
Qed.

(** What the loop over the errors leaves under a key: what was there,
    followed by the relocated errors that carry the key, in order. *)
Lemma foldl_addByIndex (errors : list GraphQLError)
    (byIndex : gmap string (list GraphQLError)) (key : string) :
  default [] (foldl addByIndex byIndex errors !! key)
  = default [] (byIndex !! key)
    ++ (relocate <$> filter (λ e : GraphQLError, hasKey key e) errors).
Proof.
  revert byIndex.
  induction errors as [|e errors IH]; intros byIndex; simpl.
  { by rewrite app_nil_r. }
  rewrite IH. unfold addByIndex.
  destruct (hasKey key e) eqn:Hkey.
  - rewrite filter_cons_True by (by rewrite Hkey).
    unfold hasKey in Hkey. destruct (path e) as [p|]; [|done].
    apply bool_decide_eq_true in Hkey.
    rewrite Hkey, lookup_insert_eq, fmap_cons. simpl. by rewrite <-app_assoc.
  - rewrite filter_cons_False by (rewrite Hkey; simpl; tauto).
    unfold hasKey in Hkey. destruct (path e) as [p|]; [|done].
    apply bool_decide_eq_false in Hkey. by rewrite lookup_insert_ne.
Qed.

Lemma hasIndex_spec (index : nat) (e : GraphQLError) :
  hasIndex index e ↔
  ∃ p, path e = Some p ∧ propertyKey (p !! 1) = pretty index.
Proof.
  unfold hasIndex, hasKey. destruct (path e) as [p|].
  - rewrite bool_decide_spec. split; [eauto|]. by intros (? & [= <-] & ?).
  - split; [done|]. by intros (? & ? & ?).
Qed.

Lemma errorsAt_groupByIndex (errors : list GraphQLError) (index : nat) :
  errorsAt (groupByIndex errors) index
  = relocate <$> filter (λ e : GraphQLError, hasIndex index e) errors.
Proof.
  unfold errorsAt, groupByIndex.
  by rewrite foldl_addByIndex, lookup_empty.
Qed.

(** The stores a left-to-right [map] goes through: one before each element
    and the final one. *)
Lemma mapItems_chain (tag : nat → Value → Heap → Value * Heap)
    (items : list Value) (start : nat) (h : Heap)
    (items' : list Value) (h' : Heap) :
  mapItems tag items start h = (items', h') →
  length items' = length items ∧
  ∃ stores : list Heap,
    length stores = S (length items) ∧
    stores !! 0 = Some h ∧
    stores !! length items = Some h' ∧
    ∀ index item, items !! index = Some item →
      ∃ item' before after,
        items' !! index = Some item' ∧
        stores !! index = Some before ∧
        stores !! S index = Some after ∧
        tag (start + index) item before = (item', after).
Proof.
  revert start h items' h'.
  induction items as [|item rest IH]; intros start h items' h' Heq; simpl in *.
  { injection Heq as <- <-. split; [done|]. exists [h]. by split_and!. }
  destruct (tag start item h) as [item1 h1] eqn:Htag.
  destruct (mapItems tag rest (S start) h1) as [rest' h2] eqn:Hrest.
  injection Heq as <- <-.
  destruct (IH _ _ _ _ Hrest) as (Hlen & stores & Hslen & Hs0 & Hsn & Hall).
  split; [simpl; lia|].
  exists (h :: stores). split_and!; simpl; try done; [lia|].
  intros [|index] item0 Hitem; simpl in *.
  - injection Hitem as <-. exists item1, h, h1.
    by rewrite Nat.add_0_r.
  - destruct (Hall _ _ Hitem) as (item' & before & after & ? & ? & ? & Ht).
    exists item', before, after. split_and!; try done.
    by rewrite <-Nat.add_succ_comm.
Qed.

(** [createMergedResult] never looks at the leading segment of a path: it
    drops it, and files by the second. So errors that differ in their
    leading segments only give the same result. *)
Lemma addByIndex_agree byIndex (e e' : GraphQLError) :
  agree e e' → addByIndex byIndex e = addByIndex byIndex e'.
Proof.
  intros [Hrel Hkey]. unfold addByIndex.
  destruct (path e) as [p|], (path e') as [p'|]; simpl in Hkey; try done.
  injection Hkey as Hkey. by rewrite Hrel, Hkey.
Qed.

Lemma groupByIndex_agree (errors errors' : list GraphQLError) :
  Forall2 agree errors errors' → groupByIndex errors = groupByIndex errors'.
Proof.
  intros Hagree. unfold groupByIndex.
  generalize (∅ : gmap string (list GraphQLError)).
  induction Hagree as [|e e' l l' He _ IH]; intros byIndex; simpl.
  - done.
  - by rewrite (addByIndex_agree _ _ _ He), IH.
Qed.

Lemma createMergedResult_agree (item : Value)
    (errors errors' : list GraphQLError) subschemas (h : Heap) :
  Forall2 agree errors errors' →
  createMergedResult item errors subschemas h
  = createMergedResult item errors' subschemas h.
Proof.
  intros Hagree.
  assert (Hrel : relocate <$> errors = relocate <$> errors').
  { induction Hagree as [|e e' l l' He _ IH]; [done|].
    destruct He as [He _]. by rewrite !fmap_cons, He, IH. }
  destruct item as [| | | | |items|l].
  - simpl. by rewrite Hrel.
  - simpl. by rewrite Hrel.
  - done.
  - done.
  - done.
  - rewrite !createMergedResult_VArray.
    by rewrite (groupByIndex_agree _ _ Hagree).
  - simpl. by rewrite Hrel.
Qed.

Lemma relocate_relocatedError (e : GraphQLError) (p p' : list PathSegment) :
  path e = Some p →
  relocate (relocatedError e (nodes e) (Some p'))
  = mkGraphQLError (message e) (nodes e) (source e) (positions e)
      (Some (slice1 p')) (originalError e) (get_extensions e).
Proof.
  intros Hp. unfold relocatedError at 1. rewrite Hp.
  unfold relocate, relocatedError.
  cbn [path nodes message source positions originalError].
  by rewrite get_extensions_copy.
Qed.

(** Dropping the leading segment and dropping the index segment agree. *)
Lemma relocate_agree (e : GraphQLError) :
  is_Some (path e) → agree (relocate e) (relocateWithoutIndex e).
Proof.
  intros [p Hp]. split.
  - unfold relocate at 2, relocateWithoutIndex. rewrite Hp.
    rewrite !(relocate_relocatedError e p) by done.
    f_equal. f_equal. by destruct p as [|a [|b r]].
  - rewrite relocate_path, Hp. unfold relocateWithoutIndex.
    rewrite relocatedError_path, Hp. simpl. f_equal.
    by destruct p as [|a [|b r]].
Qed.


(** ** Errors of a result and of its fields *)

(** C1 as stated fails: with the paths [[a, b]] and [[c]] the tag of the
    result holds the errors under [[b]] and [[]], and neither field [a] nor
    field [c] gets an error back. *)
Lemma error_partition_counterexample :
  let e1 := mkGraphQLError "first" None None None
              (Some [Key "a"; Key "b"]) None None in
  let e2 := mkGraphQLError "second" None None None
              (Some [Key "c"]) None None in
  let h := [mkObj {["b" := VNumber 1]} None None None;
            mkObj {["a" := VObject 0; "c" := VNumber 2]} None None None] in
  ∃ h',
    createMergedResult (VObject 1) [e1; e2] [] h = (VObject 1, h') ∧
    fmap (M:=list) path <$> errorTag (VObject 1) h'
      = Some [Some [Key "b"]; Some []] ∧
    getErrorsFromParent (VObject 1) "a" h' = Some [] ∧
    getErrorsFromParent (VObject 1) "c" h' = Some [].
Proof. eexists. split; [reflexivity|]. done. Qed.

(** C1, amended. The paths of the errors start with the segment [k] under
    which the result itself sits: [[k, a, b]] and [[k, c]], for distinct
    fields [a] and [c]. Tagging the result and reading the errors of field
    [a] gives exactly the first error, under [[a, b]]; reading those of [c]
    gives exactly the second, under [[c]]; every other field gets none.
    Tagging the value of [a] with what [a] got leaves the first error under
    [[b]] on it, and tagging the value of [c] (when it can carry a tag) with
    what [c] got leaves the second error under the empty path. *)
Theorem error_partition (root la : loc) (o oa : Obj) (k : PathSegment)
    (a b c : string) (e1 e2 : GraphQLError) (subschemas : list Subschema)
    (h : Heap) :
  h !! root = Some o →
  fields o !! a = Some (VObject la) →
  h !! la = Some oa →
  a ≠ c →
  path e1 = Some [k; Key a; Key b] →
  path e2 = Some [k; Key c] →
  ∃ h1 e1' e2',
    createMergedResult (VObject root) [e1; e2] subschemas h
      = (VObject root, h1) ∧
    message e1' = message e1 ∧ path e1' = Some [Key a; Key b] ∧
    message e2' = message e2 ∧ path e2' = Some [Key c] ∧
    getErrorsFromParent (VObject root) a h1 = Some [e1'] ∧
    getErrorsFromParent (VObject root) c h1 = Some [e2'] ∧
    (∀ f, f ≠ a → f ≠ c →
       getErrorsFromParent (VObject root) f h1 = Some []) ∧
    (∃ h2 e1'',
       createMergedResult (VObject la) [e1'] subschemas h1
         = (VObject la, h2) ∧
       errorTag (VObject la) h2 = Some [e1''] ∧
       message e1'' = message e1 ∧ path e1'' = Some [Key b]) ∧
    (∀ y, fields o !! c = Some y → taggable y h1 →
       ∃ v h3 e2'',
         createMergedResult y [e2'] subschemas h1 = (v, h3) ∧
         errorTag v h3 = Some [e2''] ∧
         message e2'' = message e2 ∧ path e2'' = Some []).
Proof.
  intros Hroot Ha Hla Hac Hp1 Hp2.
  assert (Hr1 : path (relocate e1) = Some [Key a; Key b])
    by (by rewrite relocate_path, Hp1).
  assert (Hr2 : path (relocate e2) = Some [Key c])
    by (by rewrite relocate_path, Hp2).
  set (h1 := alter (setTags (relocate <$> [e1; e2]) subschemas) root h).
  assert (Htag : errorTag (VObject root) h1 = Some [relocate e1; relocate e2]).
  { unfold h1. simpl. by rewrite list_lookup_alter_eq, Hroot. }
  assert (Hchild : ∀ f,
    getErrorsFromParent (VObject root) f h1
    = Some ((if bool_decide (a = f) then [relocate e1] else [])
            ++ (if bool_decide (c = f) then [relocate e2] else []))).
  { intros f. unfold getErrorsFromParent. rewrite Htag. f_equal.
    rewrite !filter_cons, filter_nil. unfold isChildError.
    rewrite Hr1, Hr2. simpl.
    by destruct (bool_decide (a = f)), (bool_decide (c = f));
      repeat case_decide. }
  exists h1, (relocate e1), (relocate e2).
  split_and!; try done; try apply relocate_message.
  - rewrite Hchild, bool_decide_eq_true_2, bool_decide_eq_false_2 by done.
    done.
  - rewrite Hchild, bool_decide_eq_false_2, bool_decide_eq_true_2 by done.
    done.
  - intros f Hfa Hfc.
    rewrite Hchild, !bool_decide_eq_false_2 by done. done.
  - eexists _, (relocate (relocate e1)). split; [reflexivity|].
    split_and!.
    + assert (is_Some (h1 !! la)) as [oa' Hoa'].
      { apply lookup_lt_is_Some. unfold h1. rewrite length_alter.
        apply lookup_lt_is_Some. by eexists. }
      simpl. by rewrite list_lookup_alter_eq, Hoa'.
    + by rewrite !relocate_message.
    + by rewrite relocate_path, Hr1.
  - intros y _ Hy.
    destruct (createMergedResult_taggable y [relocate e2] subschemas h1 Hy)
      as (v & h3 & Hrun & Hv).
    exists v, h3, (relocate (relocate e2)). split_and!; try done.
    + by rewrite !relocate_message.
    + by rewrite relocate_path, Hr2.
Qed.

Lemma error_partition_witness :
  ∃ h1 e1' e2',
    createMergedResult (VObject 1)
      [mkGraphQLError "first" None None None
         (Some [Key "user"; Key "a"; Key "b"]) None None;
       mkGraphQLError "second" None None None
         (Some [Key "user"; Key "c"]) None None]
      ["remote"]
      [mkObj {["b" := VNumber 1]} None None None;
       mkObj {["a" := VObject 0; "c" := VNull]} None None None]
      = (VObject 1, h1) ∧
    message e1' = "first" ∧ path e1' = Some [Key "a"; Key "b"] ∧
    message e2' = "second" ∧ path e2' = Some [Key "c"] ∧
    getErrorsFromParent (VObject 1) "a" h1 = Some [e1'] ∧
    getErrorsFromParent (VObject 1) "c" h1 = Some [e2'] ∧
    (∀ f, f ≠ "a" → f ≠ "c" →
       getErrorsFromParent (VObject 1) f h1 = Some []) ∧
    (∃ h2 e1'',
       createMergedResult (VObject 0) [e1'] ["remote"] h1 = (VObject 0, h2) ∧
       errorTag (VObject 0) h2 = Some [e1''] ∧
       message e1'' = "first" ∧ path e1'' = Some [Key "b"]) ∧
    (∀ y, ({["a" := VObject 0; "c" := VNull]} : gmap string Value) !! "c"
          = Some y →
       taggable y h1 →
       ∃ v h3 e2'',
         createMergedResult y [e2'] ["remote"] h1 = (v, h3) ∧
         errorTag v h3 = Some [e2''] ∧
         message e2'' = "second" ∧ path e2'' = Some []).
Proof.
  refine (error_partition 1 0
           (mkObj {["a" := VObject 0; "c" := VNull]} None None None)
           (mkObj {["b" := VNumber 1]} None None None)
           (Key "user") "a" "b" "c"
           (mkGraphQLError "first" None None None
              (Some [Key "user"; Key "a"; Key "b"]) None None)
           (mkGraphQLError "second" None None None
              (Some [Key "user"; Key "c"]) None None)
           ["remote"]
           [mkObj {["b" := VNumber 1]} None None None;
            mkObj {["a" := VObject 0; "c" := VNull]} None None None]
           eq_refl eq_refl eq_refl ltac:(discriminate) eq_refl eq_refl).
Defined.

(** ** No error lost on a value that can carry a tag *)

Lemma Value_nested_ind (P : Value → Prop) :
  P VUndefined → P VNull →
  (∀ b, P (VBoolean b)) → (∀ n, P (VNumber n)) → (∀ s, P (VString s)) →
  (∀ items, Forall P items → P (VArray items)) →
  (∀ l, P (VObject l)) →
  ∀ v, P v.
Proof.
  intros Hu Hn Hb Hz Hs Ha Ho. fix IH 1.
  intros [| |b|n|s|items|l];
    [exact Hu|exact Hn|apply Hb|apply Hz|apply Hs| |apply Ho].
  apply Ha. induction items as [|item rest IHrest]; constructor.
  - apply IH.
  - exact IHrest.
Qed.

Lemma refsBelow_VArray (n : nat) (items : list Value) :
  refsBelow n (VArray items) ↔ Forall (refsBelow n) items.
Proof.
  simpl. induction items as [|item rest IH].
  - split; [constructor|done].
  - rewrite Forall_cons. by rewrite <-IH.
Qed.

(** A pass over the elements only grows the store and leaves alone the
    addresses from [n] on that exist already, when each call does. *)
Lemma mapItems_frame (n : nat) (tag : nat → Value → Heap → Value * Heap)
    (items : list Value) :
  Forall (λ item, ∀ index (h : Heap) v' h',
            n ≤ length h → tag index item h = (v', h') →
            length h ≤ length h' ∧
            ∀ l, n ≤ l → l < length h → h' !! l = h !! l) items →
  ∀ start (h : Heap) items' h',
    n ≤ length h → mapItems tag items start h = (items', h') →
    length h ≤ length h' ∧
    ∀ l, n ≤ l → l < length h → h' !! l = h !! l.
Proof.
  induction 1 as [|item rest Hitem _ IH]; intros start h items' h' Hn Hmap;
    simpl in Hmap.
  { by injection Hmap as <- <-. }
  destruct (tag start item h) as [item1 h1] eqn:Htag.
  destruct (mapItems tag rest (S start) h1) as [rest' h2] eqn:Hrest.
  injection Hmap as <- <-.
  destruct (Hitem _ _ _ _ Hn Htag) as [Hlen1 Hkeep1].
  assert (Hn1 : n ≤ length h1) by lia.
  destruct (IH _ _ _ _ Hn1 Hrest) as [Hlen2 Hkeep2].
  split; [lia|]. intros l Hl1 Hl2.
  rewrite Hkeep2 by lia. by apply Hkeep1.
Qed.

(** Tagging a value whose objects all lie below [n] only grows the store
    and leaves alone the addresses from [n] on that exist already. *)
Lemma createMergedResult_frame (n : nat) (v : Value) :
  ∀ errors subschemas (h : Heap) v' h',
    refsBelow n v → n ≤ length h →
    createMergedResult v errors subschemas h = (v', h') →
    length h ≤ length h' ∧
    ∀ l, n ≤ l → l < length h → h' !! l = h !! l.
Proof.
  induction v as [| |b|z|s|items IH|l0] using Value_nested_ind;
    intros errors subschemas h v' h' Hrefs Hn Hrun.
  1,2: simpl in Hrun; injection Hrun as <- <-;
       rewrite length_alter, length_app; split; [simpl; lia|];
       intros l _ Hl; rewrite list_lookup_alter_ne by lia;
       by rewrite lookup_app_l.
  1,2,3: by injection Hrun as <- <-.
  - rewrite createMergedResult_VArray in Hrun.
    destruct (mapItems _ items 0 h) as [items' h''] eqn:Hmap.
    injection Hrun as <- <-.
    apply refsBelow_VArray in Hrefs.
    eapply (mapItems_frame n); [|done|exact Hmap].
    clear Hmap. induction IH as [|item rest Hitem _ IHrest]; [constructor|].
    apply Forall_cons in Hrefs as [Hrefs1 Hrefs2].
    constructor; [|by apply IHrest].
    intros index h0 v0 h0' Hn0 Hrun0. by eapply Hitem.
  - simpl in Hrun, Hrefs. injection Hrun as <- <-.
    rewrite length_alter. split; [done|].
    intros l Hl1 Hl2. apply list_lookup_alter_ne. lia.
Qed.

(** The marker made for a [null] or [undefined] element keeps, in the final
    store, the tag it got when it was made. *)
Lemma mapItems_null_tag (errorsFor : nat → list GraphQLError)
    (subschemas : list Subschema) (n : nat) (items : list Value) :
  Forall (refsBelow n) items →
  ∀ start (h : Heap) items' h' index,
    n ≤ length h →
    mapItems
      (λ i item, createMergedResult item (errorsFor i) subschemas)
      items start h = (items', h') →
    items !! index = Some VNull ∨ items !! index = Some VUndefined →
    ∃ l, items' !! index = Some (VObject l) ∧
         errorTag (VObject l) h'
         = Some (relocate <$> errorsFor (start + index)).
Proof.
  induction 1 as [|item rest Hitem Hrest IH];
    intros start h items' h' index Hn Hmap Hnull.
  { by destruct Hnull. }
  simpl in Hmap.
  destruct (createMergedResult item (errorsFor start) subschemas h)
    as [item1 h1] eqn:Htag.
  destruct (mapItems _ rest (S start) h1) as [rest' h2] eqn:Hmaprest.
  injection Hmap as <- <-.
  destruct (createMergedResult_frame n item _ _ _ _ _ Hitem Hn Htag)
    as [Hlen1 Hkeep1].
  destruct index as [|index]; simpl in Hnull.
  - assert (item1 = VObject (length h) ∧
            h1 !! length h
            = Some (setTags (relocate <$> errorsFor start) subschemas
                      mergedNull)) as [-> Hh1].
    { destruct Hnull as [[= ->]|[= ->]]; simpl in Htag;
        injection Htag as <- <-;
        by rewrite list_lookup_alter_eq, list_lookup_middle. }
    exists (length h). split; [done|].
    assert (Hlt : length h < length h1)
      by (apply lookup_lt_is_Some; by eexists).
    assert (Hn1 : n ≤ length h1) by lia.
    destruct (mapItems_frame n
                (λ i item, createMergedResult item (errorsFor i) subschemas)
                rest) with
      (start := S start) (h := h1) (items' := rest') (h' := h2)
      as [_ Hkeep2]; [|done|done|].
    { eapply Forall_impl; [exact Hrest|]. simpl.
      intros item' Hitem' i h0 v0 h0' Hn0 Hrun0.
      by eapply createMergedResult_frame. }
    simpl. rewrite Hkeep2, Hh1 by lia. simpl. by rewrite Nat.add_0_r.
  - assert (Hn1 : n ≤ length h1) by lia.
    destruct (IH (S start) h1 rest' h2 index Hn1 Hmaprest Hnull)
      as (l & Hl & Hltag).
    exists l. split; [done|]. by rewrite <-Nat.add_succ_comm.
Qed.




(** ** The errors of a field, for any error list *)

(** X1. Tagging a value that can carry a tag and then asking for the
    errors of a field gives, for any error list, the relocated errors that
    have no path or whose second path segment is that field name, in their
    order. An error with a path is handed to at most one field. *)
Theorem getErrorsFromParent_createMergedResult (result : Value)
    (errors : list GraphQLError) (subschemas : list Subschema) (h : Heap)
    (fieldName : string) :
  taggable result h →
  getErrorsFromParent (createMergedResult result errors subschemas h).1
    fieldName (createMergedResult result errors subschemas h).2
  = Some (relocate <$>
          filter (λ e : GraphQLError, isChildError fieldName (relocate e))
            errors) ∧
  (∀ e, isChildError fieldName (relocate e) ↔
        path e = None ∨ ∃ k rest, path e = Some (k :: Key fieldName :: rest)) ∧
  (∀ e otherField, is_Some (path e) → otherField ≠ fieldName →
     isChildError fieldName (relocate e) →
     ¬ isChildError otherField (relocate e)).
Proof.
  intros Htag.
  assert (Hspec : ∀ f e, isChildError f (relocate e) ↔
            path e = None ∨ ∃ k rest, path e = Some (k :: Key f :: rest)).
  { intros f e. rewrite isChildError_spec, relocate_path.
    destruct (path e) as [[|k [|[name|i] rest]]|]; simpl.
    all: try (split; [intros [?|(? & ?)]; done
                     |intros [?|(? & ? & ?)]; done]).
    - unfold slice1. simpl. split.
      + intros [?|(r & [= -> ->])]; [done|]. right. by eexists _, _.
      + intros [?|(? & ? & [= -> -> ->])]; [done|]. right. by eexists.
    - split; intros _; by left. }
  split_and!.
  - destruct (createMergedResult_taggable result errors subschemas h Htag)
      as (v & h' & -> & Hv).
    unfold getErrorsFromParent. simpl. rewrite Hv. f_equal. clear.
    induction errors as [|e errors IH]; [done|].
    rewrite fmap_cons, !filter_cons, IH.
    by destruct (decide (isChildError fieldName (relocate e))).
  - apply Hspec.
  - intros e otherField [p Hp] Hne.
    rewrite !Hspec, Hp.
    intros [?|(k & rest & [= ->])]; [done|].
    intros [?|(k' & rest' & [= -> -> ->])]; done.
Qed.

Lemma getErrorsFromParent_createMergedResult_witness :
  taggable VNull [] ∧
  getErrorsFromParent
    (createMergedResult VNull
       [mkGraphQLError "boom" None None None
          (Some [Key "user"; Key "name"]) None None] ["remote"] []).1
    "name"
    (createMergedResult VNull
       [mkGraphQLError "boom" None None None
          (Some [Key "user"; Key "name"]) None None] ["remote"] []).2
  = Some (relocate <$>
          filter (λ e : GraphQLError, isChildError "name" (relocate e))
            [mkGraphQLError "boom" None None None
               (Some [Key "user"; Key "name"]) None None]).
Proof.
  split; [exact I|].
  apply (getErrorsFromParent_createMergedResult VNull
           [mkGraphQLError "boom" None None None
              (Some [Key "user"; Key "name"]) None None] ["remote"] [] "name").
  exact I.
Defined.

(** ** Relocating level after level *)

Lemma relocate_nodes (e : GraphQLError) : nodes (relocate e) = nodes e.
Proof. unfold relocate, relocatedError. by destruct (path e), (nodes e). Qed.

(** X2. An error that has a path is the same after any number of levels
    but for the path, which lost one leading segment per level; no chain of
    wrapped errors builds up. An error without a path stays without one and
    keeps its message, nodes and extensions, and each level wraps the error
    of the level before as [originalError]. *)
Theorem relocate_iter :
  (∀ (e : GraphQLError) (p : list PathSegment) (n : nat),
     path e = Some p →
     Nat.iter (S n) relocate e
     = mkGraphQLError (message e) (nodes e) (source e) (positions e)
         (Some (drop (S n) p)) (originalError e) (get_extensions e)) ∧
  (∀ (e : GraphQLError) (n : nat),
     path e = None →
     path (Nat.iter n relocate e) = None ∧
     message (Nat.iter n relocate e) = message e ∧
     nodes (Nat.iter n relocate e) = nodes e ∧
     get_extensions (Nat.iter n relocate e) = get_extensions e ∧
     originalError (Nat.iter (S n) relocate e)
     = Some (Nat.iter n relocate e)).
Proof.
  split.
  - intros e p n Hp. induction n as [|n IH].
    + simpl. unfold relocate, relocatedError. by rewrite Hp.
    + change (Nat.iter (S (S n)) relocate e)
        with (relocate (Nat.iter (S n) relocate e)).
      rewrite IH. unfold relocate, relocatedError.
      cbn [path nodes message source positions originalError].
      rewrite get_extensions_copy. do 2 f_equal.
      unfold slice1. rewrite drop_drop. f_equal. lia.
  - intros e n Hp.
    assert (Hn : path (Nat.iter n relocate e) = None ∧
                 message (Nat.iter n relocate e) = message e ∧
                 nodes (Nat.iter n relocate e) = nodes e ∧
                 get_extensions (Nat.iter n relocate e) = get_extensions e).
    { induction n as [|n (IH1 & IH2 & IH3 & IH4)]; [done|].
      change (Nat.iter (S n) relocate e)
        with (relocate (Nat.iter n relocate e)).
      split_and!.
      - by rewrite relocate_path, IH1.
      - by rewrite relocate_message.
      - by rewrite relocate_nodes.
      - unfold relocate. by rewrite relocatedError_get_extensions. }
    destruct Hn as (H1 & H2 & H3 & H4). split_and!; try done.
    change (Nat.iter (S n) relocate e)
      with (relocate (Nat.iter n relocate e)).
    unfold relocate at 1, relocatedError. by rewrite H1.
Qed.

(** ** Errors that index no element of an array *)

Lemma append_String (a : Ascii.ascii) (s t : string) :
  String a s +:+ t = String a (s +:+ t).
Proof. reflexivity. Qed.

Lemma append_assoc (s t u : string) : (s +:+ t) +:+ u = s +:+ (t +:+ u).
Proof.
  induction s as [|a s IH]; [done|]. by rewrite !append_String, IH.
Qed.

Lemma append_nil_r (s : string) : s +:+ "" = s.
Proof. induction s as [|a s IH]; [done|]. by rewrite append_String, IH. Qed.

Lemma digits_append (s t : string) :
  Forall isDigit (String.list_ascii_of_string s) →
  Forall isDigit (String.list_ascii_of_string t) →
  Forall isDigit (String.list_ascii_of_string (s +:+ t)).
Proof.
  intros Hs Ht. induction s as [|a s IH]; [done|].
  rewrite append_String. cbn [String.list_ascii_of_string] in *.
  apply Forall_cons in Hs as [? ?]. constructor; auto.
Qed.

Lemma pretty_N_go_digits (x : N) (s : string) :
  ∃ d, pretty_N_go x s = d +:+ s ∧
       Forall isDigit (String.list_ascii_of_string d).
Proof.
  revert s. induction (N.lt_wf_0 x) as [x _ IH]; intros s.
  assert (x = 0 ∨ 0 < x)%N as [->|Hx] by lia.
  - exists "". by rewrite pretty_N_go_0.
  - rewrite pretty_N_go_step by done.
    destruct (IH (x `div` 10)%N) with
      (s := String (pretty_N_char (x `mod` 10)) s) as (d & Heq & Hd).
    { by apply N.div_lt. }
    rewrite Heq.
    exists (d +:+ String (pretty_N_char (x `mod` 10)) ""). split.
    + by rewrite append_assoc.
    + apply digits_append; [done|].
      constructor; [|constructor]. unfold isDigit, pretty_N_char. simpl.
      repeat case_match;
        repeat first [apply list_elem_of_here|apply list_elem_of_further].
Qed.

Lemma pretty_nat_digits (i : nat) :
  Forall isDigit (String.list_ascii_of_string (pretty i)).
Proof.
  unfold pretty, pretty_nat, pretty, pretty_N. case_decide.
  - repeat constructor.
  - destruct (pretty_N_go_digits (N.of_nat i) "") as (d & Heq & Hd).
    by rewrite Heq, append_nil_r.
Qed.

(** No index is written like the key of a missing segment. *)
Lemma pretty_nat_undefined (i : nat) : pretty i ≠ "undefined".
Proof.
  intros Heq. pose proof (pretty_nat_digits i) as Hd. rewrite Heq in Hd.
  apply Forall_cons in Hd as [Hu _]. unfold isDigit in Hu. simpl in Hu.
  revert Hu. apply (bool_decide_unpack _). by vm_compute.
Qed.

Lemma mapItems_ext (tag1 tag2 : nat → Value → Heap → Value * Heap)
    (items : list Value) :
  ∀ start (h : Heap),
    (∀ index item (h0 : Heap), start ≤ index < start + length items →
       tag1 index item h0 = tag2 index item h0) →
    mapItems tag1 items start h = mapItems tag2 items start h.
Proof.
  induction items as [|item rest IH]; intros start h Hext; [done|].
  simpl. rewrite Hext by (simpl; lia).
  destruct (tag2 start item h) as [item' h1].
  rewrite IH; [done|]. intros index item0 h0 Hi. apply Hext. simpl. lia.
Qed.

Lemma indexesInto_spec (n : nat) (e : GraphQLError) :
  indexesInto n e ↔ ∃ index, index < n ∧ hasIndex index e.
Proof.
  unfold indexesInto. rewrite Is_true_true, existsb_exists. split.
  - intros (i & Hi%in_seq & He). exists i. split; [lia|by apply Is_true_true].
  - intros (i & Hi & He). exists i. split; [apply in_seq; lia|].
    by apply Is_true_true.
Qed.


(** ** What tagging does to the store *)

Lemma nullCount_VArray (items : list Value) :
  nullCount (VArray items) = sum_list (nullCount <$> items).
Proof.
  simpl. induction items as [|item rest IH]; [done|]. simpl. by rewrite IH.
Qed.

Lemma taggedThroughout_VArray subschemas (h : Heap) (items : list Value) :
  taggedThroughout subschemas h (VArray items)
  ↔ Forall (taggedThroughout subschemas h) items.
Proof.
  simpl. induction items as [|item rest IH].
  - split; [constructor|done].
  - rewrite Forall_cons. by rewrite <-IH.
Qed.

Lemma retagged_refl ss (h : Heap) : retagged ss h h.
Proof. intros l o Hl. exists o. by split; [|left]. Qed.

Lemma retagged_trans ss (h1 h2 h3 : Heap) :
  retagged ss h1 h2 → retagged ss h2 h3 → retagged ss h1 h3.
Proof.
  intros H12 H23 l o Hl.
  destruct (H12 _ _ Hl) as (o2 & Hl2 & Ho2).
  destruct (H23 _ _ Hl2) as (o3 & Hl3 & Ho3).
  exists o3. split; [done|].
  destruct Ho3 as [->|[es3 ->]]; [done|].
  right. exists es3. by destruct Ho2 as [->|[es2 ->]].
Qed.

Lemma retagged_alloc ss (h : Heap) es :
  retagged ss h (alter (setTags es ss) (length h) (h ++ [mergedNull])).
Proof.
  intros l o Hl. exists o. split; [|by left].
  assert (l < length h) by (apply lookup_lt_is_Some; by eexists).
  rewrite list_lookup_alter_ne by lia. by rewrite lookup_app_l.
Qed.

Lemma retagged_alter ss (h : Heap) es l0 :
  retagged ss h (alter (setTags es ss) l0 h).
Proof.
  intros l o Hl. destruct (decide (l = l0)) as [->|Hne].
  - exists (setTags es ss o). rewrite list_lookup_alter_eq, Hl. split; [done|].
    right. by exists es.
  - exists o. split; [by rewrite list_lookup_alter_ne|by left].
Qed.

Lemma mapItems_step ss (tag : nat → Value → Heap → Value * Heap)
    (items : list Value) :
  Forall (λ item, ∀ index (h : Heap) v' h',
            tag index item h = (v', h') →
            length h' = length h + nullCount item ∧ retagged ss h h') items →
  ∀ start (h : Heap) items' h',
    mapItems tag items start h = (items', h') →
    length h' = length h + sum_list (nullCount <$> items) ∧ retagged ss h h'.
Proof.
  induction 1 as [|item rest Hitem _ IH]; intros start h items' h' Hmap;
    simpl in Hmap.
  { injection Hmap as <- <-. split; [simpl; lia|apply retagged_refl]. }
  destruct (tag start item h) as [item1 h1] eqn:Htag.
  destruct (mapItems tag rest (S start) h1) as [rest' h2] eqn:Hrest.
  injection Hmap as <- <-.
  destruct (Hitem _ _ _ _ Htag) as [Hlen1 Hre1].
  destruct (IH _ _ _ _ Hrest) as [Hlen2 Hre2].
  split; [rewrite fmap_cons; simpl; lia|by eapply retagged_trans].
Qed.

(** A call allocates one marker for each [null] and [undefined] leaf and
    does nothing else to the store but set tags. *)
Lemma createMergedResult_step (v : Value) :
  ∀ errors ss (h : Heap) v' h',
    createMergedResult v errors ss h = (v', h') →
    length h' = length h + nullCount v ∧ retagged ss h h'.
Proof.
  induction v as [| |b|z|s|items IH|l0] using Value_nested_ind;
    intros errors ss h v' h' Hrun.
  1,2: simpl in Hrun; injection Hrun as <- <-;
       rewrite length_alter, length_app; split; [done|apply retagged_alloc].
  1,2,3: injection Hrun as <- <-; split; [simpl; lia|apply retagged_refl].
  - rewrite createMergedResult_VArray in Hrun.
    destruct (mapItems _ items 0 h) as [items' h''] eqn:Hmap.
    injection Hrun as <- <-. rewrite nullCount_VArray.
    eapply (mapItems_step ss); [|exact Hmap].
    eapply Forall_impl; [exact IH|]. simpl.
    intros item Hitem index h0 v0 h0' Hrun0. by eapply Hitem.
  - simpl in Hrun. injection Hrun as <- <-.
    rewrite length_alter. split; [simpl; lia|apply retagged_alter].
Qed.


Lemma taggedThroughout_mono ss (h h' : Heap) (v : Value) :
  retagged ss h h' → taggedThroughout ss h v → taggedThroughout ss h' v.
Proof.
  intros Hre.
  induction v as [| |b|z|s|items IH|l0] using Value_nested_ind; try done.
  - rewrite !taggedThroughout_VArray. intros Hall.
    induction IH as [|item rest Hitem _ IHrest]; [constructor|].
    apply Forall_cons in Hall as [H1 H2]. constructor; auto.
  - simpl. intros [[es Hes] Hss].
    destruct (h !! l0) as [o|] eqn:Hl; [|done].
    destruct (Hre _ _ Hl) as (o' & -> & Ho'). simpl in *.
    destruct Ho' as [->|[es' ->]]; [by eauto|]. simpl. eauto.
Qed.

Lemma refsBelow_mono (n m : nat) (v : Value) :
  n ≤ m → refsBelow n v → refsBelow m v.
Proof.
  intros Hnm.
  induction v as [| |b|z|s|items IH|l0] using Value_nested_ind; try done.
  - rewrite !refsBelow_VArray. intros Hall.
    induction IH as [|item rest Hitem _ IHrest]; [constructor|].
    apply Forall_cons in Hall as [H1 H2]. constructor; auto.
  - simpl. lia.
Qed.

Lemma mapItems_tagged ss (tag : nat → Value → Heap → Value * Heap)
    (items : list Value) :
  Forall (λ item, ∀ index (h : Heap) v' h',
            refsBelow (length h) item →
            tag index item h = (v', h') →
            length h ≤ length h' ∧ retagged ss h h' ∧
            taggedThroughout ss h' v') items →
  ∀ start (h : Heap) items' h',
    Forall (refsBelow (length h)) items →
    mapItems tag items start h = (items', h') →
    length h ≤ length h' ∧ retagged ss h h' ∧
    Forall (taggedThroughout ss h') items'.
Proof.
  induction 1 as [|item rest Hitem _ IH]; intros start h items' h' Hrefs Hmap;
    simpl in Hmap.
  { injection Hmap as <- <-.
    split_and!; [done|apply retagged_refl|constructor]. }
  destruct (tag start item h) as [item1 h1] eqn:Htag.
  destruct (mapItems tag rest (S start) h1) as [rest' h2] eqn:Hrest.
  injection Hmap as <- <-.
  apply Forall_cons in Hrefs as [Hr1 Hr2].
  destruct (Hitem _ _ _ _ Hr1 Htag) as (Hlen1 & Hre1 & Ht1).
  assert (Hr2' : Forall (refsBelow (length h1)) rest).
  { eapply Forall_impl; [exact Hr2|]. intros x. by apply refsBelow_mono. }
  destruct (IH _ _ _ _ Hr2' Hrest) as (Hlen2 & Hre2 & Ht2).
  split_and!; [lia|by eapply retagged_trans|].
  constructor; [by eapply taggedThroughout_mono|done].
Qed.



(** ** Tagging a tagged result *)

Lemma mapItems_values (tag : nat → Value → Heap → Value * Heap)
    (items : list Value) :
  Forall (λ item, ∀ index (h : Heap),
            nullCount (tag index item h).1 = 0 ∧
            (nullCount item = 0 → (tag index item h).1 = item)) items →
  ∀ start (h : Heap),
    sum_list (nullCount <$> (mapItems tag items start h).1) = 0 ∧
    (sum_list (nullCount <$> items) = 0 →
     (mapItems tag items start h).1 = items).
Proof.
  induction 1 as [|item rest Hitem _ IH]; intros start h; [done|].
  simpl. destruct (Hitem start h) as [Hnull Hsame].
  destruct (tag start item h) as [item1 h1]. simpl in *.
  destruct (IH (S start) h1) as [Hnull' Hsame'].
  destruct (mapItems tag rest (S start) h1) as [rest' h2]. simpl in *.
  unfold fmap in *. split; [lia|]. intros Hsum.
  rewrite Hsame, Hsame' by lia. done.
Qed.

Lemma createMergedResult_value (v : Value) :
  ∀ errors subschemas (h : Heap),
    nullCount (createMergedResult v errors subschemas h).1 = 0 ∧
    (nullCount v = 0 → (createMergedResult v errors subschemas h).1 = v).
Proof.
  induction v as [| |b|z|s|items IH|l0] using Value_nested_ind;
    intros errors subschemas h; try done.
  rewrite createMergedResult_VArray.
  pose proof (mapItems_values
                (λ index item,
                   createMergedResult item
                     (errorsAt (groupByIndex errors) index) subschemas)
                items) as Hitems.
  destruct (Hitems) with (start := 0) (h := h) as [Hnull Hsame].
  { eapply Forall_impl; [exact IH|]. simpl. intros item Hitem index h0.
    apply Hitem. }
  revert Hnull Hsame.
  destruct (mapItems _ items 0 h) as [items' h'].
  cbv beta iota. cbn [fst]. intros Hnull Hsame.
  rewrite !nullCount_VArray. split; [done|].
  intros Hsum. by rewrite Hsame.
Qed.


End ErrorsFacts.

(** * Facts about AddArgumentsAsVariablesTransform *)

Module AddArgumentsFacts.
Import AddArguments.

(** ** The transform on the sample request *)

Example generateVariableName_skips_taken_names :
  generateVariableName [VString "_v0_id"; VString "_v1_id"] 0 "id"
  = Some ("_v2_id", 3).
Proof. reflexivity. Qed.

(** The rewritten operation declares [_v0_id] as before and the two new
    variables, numbered on from the name that was taken; the new variables
    map extends the original one; the store grew from 16 to 47 cells. *)
Example transformRequest_sample :
  ∃ h',
    transformRequest sampleSchema sampleArgs sampleRequest sampleStore
      = Some (VRef 46, h') ∧
    length h' = 47 ∧
    h' !! 46 = Some (CObject [("document", VRef 44); ("variables", VRef 45)]) ∧
    h' !! 45 = Some (CObject [("x", VNumber 1); ("_v1_id", VString "7");
                              ("_v2_tags", VRef 36)]) ∧
    fst <$> declaredVariables (VRef 42) h'
      = Some [VString "_v0_id"; VString "_v1_id"; VString "_v2_tags"] ∧
    fst <$> declaredVariables sampleOperation h' = Some [VString "_v0_id"].
Proof. eexists. split; [vm_compute; reflexivity|]. by vm_compute. Qed.

(** ** Computations that only extend the store *)

Lemma bind_Some {A B} (m : M A) (f : A → M B) (h : Heap) b h2 :
  (m ≫= f) h = Some (b, h2) ↔
  ∃ a h1, m h = Some (a, h1) ∧ f a h1 = Some (b, h2).
Proof.
  unfold mbind, M_bind. destruct (m h) as [[a h1]|].
  - split; [eauto|]. by intros (? & ? & [= <- <-] & ?).
  - split; [done|]. by intros (? & ? & ? & ?).
Qed.

Lemma reads_grows {A} (m : M A) : reads m → grows m.
Proof. intros Hm h a h' Hrun. by destruct (Hm _ _ _ Hrun) as [-> _]. Qed.

Lemma reads_ret {A} (a : A) : reads (mret a).
Proof. intros h a' h' [= <- <-]. done. Qed.

Lemma reads_throw {A} : reads (@throw A).
Proof. intros h a h' [=]. Qed.

Lemma reads_liftOption {A} (o : option A) : reads (liftOption o).
Proof. destruct o; [apply reads_ret|apply reads_throw]. Qed.

Lemma reads_bind {A B} (m : M A) (f : A → M B) :
  reads m → (∀ a, reads (f a)) → reads (m ≫= f).
Proof.
  intros Hm Hf h b h2 (a & h1 & Hrun1 & Hrun2)%bind_Some.
  destruct (Hm _ _ _ Hrun1) as [-> Hm'].
  destruct (Hf _ _ _ _ Hrun2) as [-> Hf'].
  split; [done|]. intros h3 Hpre. apply bind_Some.
  exists a, h3. split; [by apply Hm'|by apply Hf'].
Qed.

Lemma reads_getProp (v : Val) (key : string) : reads (getProp v key).
Proof.
  destruct v as [| | | | |l]; simpl;
    try apply reads_throw; try apply reads_ret.
  intros h a h'. destruct (h !! l) as [c|] eqn:Hl; [|done].
  intros Hrun. split.
  - by destruct c; injection Hrun as <- <-.
  - intros h2 Hpre. rewrite (prefix_lookup_Some _ _ _ _ Hl Hpre).
    by destruct c; injection Hrun as <- <-.
Qed.

Lemma reads_arrayItems (v : Val) : reads (arrayItems v).
Proof.
  destruct v as [| | | | |l]; simpl; try apply reads_throw.
  intros h a h'. destruct (h !! l) as [[props|items]|] eqn:Hl; try done.
  intros [= <- <-]. split; [done|].
  intros h2 Hpre. by rewrite (prefix_lookup_Some _ _ _ _ Hl Hpre).
Qed.

Lemma reads_ownProperties (v : Val) : reads (ownProperties v).
Proof.
  destruct v as [| | | | |l]; simpl; try apply reads_ret.
  intros h a h'. destruct (h !! l) as [c|] eqn:Hl; [|done].
  intros Hrun. split.
  - by destruct c; injection Hrun as <- <-.
  - intros h2 Hpre. rewrite (prefix_lookup_Some _ _ _ _ Hl Hpre).
    by destruct c; injection Hrun as <- <-.
Qed.

Lemma reads_mapM {A B} (f : A → M B) (l : list A) :
  (∀ x, reads (f x)) → reads (mapM f l).
Proof.
  intros Hf. induction l as [|x rest IH]; simpl; [apply reads_ret|].
  apply reads_bind; [done|]. intros y.
  apply reads_bind; [done|]. intros ys. apply reads_ret.
Qed.

Lemma reads_filterM {A} (f : A → M bool) (l : list A) :
  (∀ x, reads (f x)) → reads (filterM f l).
Proof.
  intros Hf. induction l as [|x rest IH]; simpl; [apply reads_ret|].
  apply reads_bind; [done|]. intros keep.
  apply reads_bind; [done|]. intros kept. apply reads_ret.
Qed.

Lemma reads_forEach {A S} (f : A → S → M S) (l : list A) (s : S) :
  (∀ x s, reads (f x s)) → reads (forEach f l s).
Proof.
  intros Hf. revert s.
  induction l as [|x rest IH]; intros s; simpl; [apply reads_ret|].
  apply reads_bind; [done|]. intros s'. apply IH.
Qed.

Lemma reads_variableNameOf (d : Val) : reads (variableNameOf d).
Proof.
  unfold variableNameOf.
  repeat (apply reads_bind; [apply reads_getProp|intros ?]).
  apply reads_getProp.
Qed.

Lemma reads_declaredVariables (operation : Val) :
  reads (declaredVariables operation).
Proof.
  unfold declaredVariables.
  apply reads_bind; [apply reads_getProp|intros ?].
  apply reads_bind; [apply reads_arrayItems|intros ?].
  apply reads_mapM, reads_variableNameOf.
Qed.

Lemma reads_hasKind (kind : string) (d : Val) : reads (hasKind kind d).
Proof.
  unfold hasKind. apply reads_bind; [apply reads_getProp|intros ?].
  apply reads_ret.
Qed.

Lemma reads_collectArgument (argument : Val) newArgs :
  reads (collectArgument argument newArgs).
Proof.
  unfold collectArgument.
  repeat (apply reads_bind; [apply reads_getProp|intros ?]).
  apply reads_ret.
Qed.

Lemma grows_bind {A B} (m : M A) (f : A → M B) :
  grows m → (∀ a, grows (f a)) → grows (m ≫= f).
Proof.
  intros Hm Hf h b h2 (a & h1 & Hrun1 & Hrun2)%bind_Some.
  etrans; [by eapply Hm|by eapply Hf].
Qed.

Lemma grows_alloc (c : Cell) : grows (alloc c).
Proof. intros h a h' [= <- <-]. by apply prefix_app_r. Qed.

Lemma grows_forEach {A S} (f : A → S → M S) (l : list A) (s : S) :
  (∀ x s, grows (f x s)) → grows (forEach f l s).
Proof.
  intros Hf. revert s.
  induction l as [|x rest IH]; intros s; simpl.
  - apply reads_grows, reads_ret.
  - apply grows_bind; [done|]. intros s'. apply IH.
Qed.

Create HintDb grows.
#[local] Hint Resolve reads_grows reads_ret reads_throw reads_liftOption
  reads_getProp reads_arrayItems reads_ownProperties reads_variableNameOf
  reads_declaredVariables reads_hasKind reads_collectArgument
  grows_alloc : grows.

(** Takes a computation apart along its binds and case distinctions. *)
Ltac grows_step :=
  lazymatch goal with
  | |- grows (_ ≫= _) => apply grows_bind; [|intros ?]
  | |- grows (match ?x with (_, _) => _ end) => destruct x
  | |- grows (if ?c then _ else _) => destruct c
  | |- grows (match ?x with Some _ => _ | None => _ end) => destruct x
  | |- grows (forEach _ _ _) => apply grows_forEach; intros
  | |- grows (filterM _ _) =>
      apply reads_grows, reads_filterM; intros; solve [eauto with grows]
  | |- grows _ => solve [eauto with grows]
  end.

Lemma grows_typeToAst (type : InputType) : grows (typeToAst type).
Proof. induction type; simpl; repeat grows_step. Qed.

Lemma grows_allocData (d : ArgValue) : grows (allocData d).
Proof.
  revert d. fix IH 1. intros [| | | | |items|props]; simpl;
    try (apply reads_grows, reads_ret).
  - apply grows_bind; [|intros ?; apply grows_alloc].
    induction items as [|d rest IHrest]; [apply reads_grows, reads_ret|].
    apply grows_bind; [apply IH|intros ?].
    apply grows_bind; [apply IHrest|intros ?]. apply reads_grows, reads_ret.
  - apply grows_bind; [|intros ?; apply grows_alloc].
    induction props as [|[k d] rest IHrest]; [apply reads_grows, reads_ret|].
    apply grows_bind; [apply IH|intros ?].
    apply grows_bind; [apply IHrest|intros ?]. apply reads_grows, reads_ret.
Qed.

#[local] Hint Resolve grows_typeToAst grows_allocData : grows.

Lemma grows_addArgument schema args argument s :
  grows (addArgument schema args argument s).
Proof. unfold addArgument. repeat grows_step. Qed.

#[local] Hint Resolve grows_addArgument : grows.

Lemma grows_addSelection schema args type selection s :
  grows (addSelection schema args type selection s).
Proof. unfold addSelection. repeat grows_step. Qed.

#[local] Hint Resolve grows_addSelection : grows.

Lemma grows_addVariablesToOperation schema args operation s :
  grows (addVariablesToOperation schema args operation s).
Proof. unfold addVariablesToOperation. repeat grows_step. Qed.

#[local] Hint Resolve grows_addVariablesToOperation : grows.

Lemma grows_addVariablesToRootField schema document args :
  grows (addVariablesToRootField schema document args).
Proof. unfold addVariablesToRootField. repeat grows_step. Qed.

Lemma grows_transformRequest schema args originalRequest :
  grows (transformRequest schema args originalRequest).
Proof.
  unfold transformRequest. repeat grows_step.
  apply grows_addVariablesToRootField.
Qed.

(** ** generateVariableName *)

Lemma append_cons (a : Ascii.ascii) (s t : string) :
  String a s +:+ t = String a (s +:+ t).
Proof. reflexivity. Qed.

Lemma length_append (s t : string) :
  String.length (s +:+ t) = String.length s + String.length t.
Proof.
  induction s as [|a s IH]; [done|].
  rewrite append_cons. simpl. by rewrite IH.
Qed.

Lemma append_inj_r (s1 s2 t : string) : s1 +:+ t = s2 +:+ t → s1 = s2.
Proof.
  revert s2. induction s1 as [|a s1 IH]; intros [|b s2] Heq; [done|..].
  - apply (f_equal String.length) in Heq.
    rewrite !length_append in Heq. simpl in Heq. lia.
  - apply (f_equal String.length) in Heq.
    rewrite !length_append in Heq. simpl in Heq. lia.
  - rewrite !append_cons in Heq. injection Heq as -> Heq.
    f_equal. by apply IH.
Qed.

(** For one argument name, different counters give different names. *)
Lemma variableNameFor_inj (argName : string) :
  Inj eq eq (λ counter, variableNameFor counter argName).
Proof.
  intros k1 k2 Heq. unfold variableNameFor in Heq.
  apply (inj (String.app "_v")) in Heq.
  apply append_inj_r in Heq. by apply (inj pretty) in Heq.
Qed.

(** What the loop returns is no existing name, is made from a counter not
    below the one it started with, and leaves the counter just after it. *)
Lemma generateVariableNameLoop_Some fuel existing counter argName name next :
  generateVariableNameLoop fuel existing counter argName = Some (name, next) →
  (VString name ∉ existing) ∧
  ∃ k, counter ≤ k ∧ name = variableNameFor k argName ∧ next = S k.
Proof.
  revert counter. induction fuel as [|fuel IH]; intros counter; [done|].
  simpl. case_decide as Hin.
  - intros Hrun. destruct (IH _ Hrun) as (Hfresh & k & Hk & -> & ->).
    split; [done|]. exists k. split_and!; [lia|done|done].
  - intros [= <- <-]. split; [done|]. exists counter. by split_and!.
Qed.

(** When the rounds run out, every name tried was an existing one. *)
Lemma generateVariableNameLoop_None fuel existing counter argName :
  generateVariableNameLoop fuel existing counter argName = None →
  ∀ k, k ∈ seq counter fuel →
       VString (variableNameFor k argName) ∈ existing.
Proof.
  revert counter. induction fuel as [|fuel IH]; intros counter Hrun k Hk.
  { by apply elem_of_nil in Hk. }
  simpl in Hrun. case_decide as Hin; [|done].
  simpl in Hk. apply elem_of_cons in Hk as [->|Hk]; [done|].
  by apply (IH (S counter)).
Qed.

(** The loop of [generateVariableName] ends: among the names of
    [length existing + 1] successive counters one is not taken. *)
Lemma generateVariableName_total (existing : list Val) (counter : nat)
    (argName : string) :
  is_Some (generateVariableName existing counter argName).
Proof.
  unfold generateVariableName.
  destruct (generateVariableNameLoop _ existing counter argName)
    as [r|] eqn:Hrun; [by eexists|].
  exfalso.
  pose proof (generateVariableNameLoop_None _ _ _ _ Hrun) as Hall.
  set (tried := (λ k, VString (variableNameFor k argName))
                  <$> seq counter (S (length existing))).
  assert (Hinj : Inj eq eq (λ k, VString (variableNameFor k argName))).
  { intros k1 k2 Heq. apply (variableNameFor_inj argName k1 k2).
    congruence. }
  assert (Hnodup : NoDup tried) by apply (NoDup_fmap_2 _), NoDup_seq.
  assert (Hsub : tried ⊆+ existing).
  { apply NoDup_submseteq; [done|].
    intros x (k & -> & Hk)%list_elem_of_fmap. by apply Hall. }
  apply submseteq_length in Hsub.
  unfold tried in Hsub. rewrite length_fmap, length_seq in Hsub. lia.
Qed.

(** ** Reading the store *)

Lemma alloc_Some (c : Cell) (h : Heap) v h' :
  alloc c h = Some (v, h') →
  v = VRef (length h) ∧ h `prefix_of` h' ∧ h' !! length h = Some c.
Proof.
  intros [= <- <-]. split_and!; [done|by apply prefix_app_r|].
  by apply list_lookup_middle.
Qed.

Lemma getProp_ref (l : nat) (key : string) props (h : Heap) :
  h !! l = Some (CObject props) →
  getProp (VRef l) key h = Some (default VUndefined (lookupProp key props), h).
Proof. intros Hl. simpl. by rewrite Hl. Qed.

Lemma lookupProp_assign_eq key v props :
  lookupProp key (assign key v props) = Some v.
Proof.
  induction props as [|[k v'] rest IH]; simpl.
  - by rewrite decide_True.
  - destruct (decide (k = key)) as [->|Hne]; simpl.
    + by rewrite decide_True.
    + by rewrite decide_False.
Qed.

Lemma lookupProp_assign_ne key key' v props :
  key ≠ key' → lookupProp key' (assign key v props) = lookupProp key' props.
Proof.
  intros Hne. induction props as [|[k v'] rest IH]; simpl.
  - by rewrite decide_False.
  - destruct (decide (k = key)) as [->|Hk]; simpl.
    + by rewrite !decide_False.
    + by rewrite IH.
Qed.

Lemma assign_fresh key v (props : list (string * Val)) :
  key ∉ props.*1 → assign key v props = props ++ [(key, v)].
Proof.
  induction props as [|[k v'] rest IH]; simpl; [done|].
  intros Hnot. apply not_elem_of_cons in Hnot as [Hne Hnot].
  rewrite decide_False by done. by rewrite IH.
Qed.

Lemma variableNameOf_definition (h : Heap) ln lv ld name type :
  h !! ln = Some (nameNode name) →
  h !! lv = Some (CObject [("kind", VString VARIABLE); ("name", VRef ln)]) →
  h !! ld = Some (CObject [("kind", VString VARIABLE_DEFINITION);
                           ("variable", VRef lv); ("type", type)]) →
  variableNameOf (VRef ld) h = Some (VString name, h).
Proof.
  intros Hn Hv Hd. unfold variableNameOf.
  apply bind_Some. eexists _, _. split; [by apply getProp_ref|]. simpl.
  apply bind_Some. eexists _, _. split; [by apply getProp_ref|]. simpl.
  by rewrite Hn.
Qed.

Lemma mapM_reads_app {A B} (f : A → M B) (l1 l2 : list A) (h : Heap) r1 r2 :
  (∀ x, reads (f x)) →
  mapM f l1 h = Some (r1, h) → mapM f l2 h = Some (r2, h) →
  mapM f (l1 ++ l2) h = Some (r1 ++ r2, h).
Proof.
  intros Hf. revert r1. induction l1 as [|x l1 IH]; intros r1; simpl.
  - by intros [= <-].
  - intros (y & h1 & Hy & Hrest)%bind_Some H2.
    destruct (Hf _ _ _ _ Hy) as [-> _].
    apply bind_Some in Hrest as (ys & h2 & Hys & [= <- <-]).
    apply bind_Some. exists y, h2. split; [done|].
    apply bind_Some. exists (ys ++ r2), h2. split; [by apply IH|done].
Qed.

(** ** The names generated for one operation *)

Section tracking.
Context (schema : GraphQLSchema) (args : list (string * ArgValue)).
Context (existing : list Val).
Local Abbreviation tracks := (tracks args existing).

Lemma tracks_mono (h h' : Heap) s generated :
  h `prefix_of` h' → tracks h s generated → tracks h' s generated.
Proof.
  intros Hpre (? & ? & ? & ? & Hdefs & ?). split_and!; try done.
  eapply Forall_impl; [exact Hdefs|]. simpl. intros p Hp.
  by apply (reads_variableNameOf _ _ _ _ Hp).
Qed.

Lemma addArgument_tracks argument s (h : Heap) s' h' generated :
  tracks h s generated →
  addArgument schema args argument s h = Some (s', h') →
  ∃ generated', tracks h' s' generated'.
Proof.
  intros Htr Hrun.
  pose proof (grows_addArgument _ _ _ _ _ _ _ Hrun) as Hpre.
  unfold addArgument in Hrun.
  destruct (lookupArg _ args) as [value|] eqn:Harg.
  2:{ injection Hrun as <- <-. eauto. }
  apply bind_Some in Hrun as ([variableName counter] & h1 & Hgen & Hrun).
  destruct (generateVariableName _ _ _) as [[name next]|] eqn:Hname;
    [|done].
  injection Hgen as -> -> <-.
  apply generateVariableNameLoop_Some in Hname
    as (Hfresh & k & _ & Hform & _).
  apply bind_Some in Hrun as (name1 & h2 & H1 & Hrun).
  apply bind_Some in Hrun as (name2 & h3 & H2 & Hrun).
  apply bind_Some in Hrun as (var1 & h4 & H3 & Hrun).
  apply bind_Some in Hrun as (newArg & h5 & H4 & Hrun).
  apply bind_Some in Hrun as (dname & h6 & H5 & Hrun).
  apply bind_Some in Hrun as (dvar & h7 & H6 & Hrun).
  apply bind_Some in Hrun as (type & h8 & H7 & Hrun).
  apply bind_Some in Hrun as (definition & h9 & H8 & Hrun).
  apply bind_Some in Hrun as (serialized & h10 & H9 & Hrun).
  apply bind_Some in Hrun as (data & h11 & H10 & Hrun).
  injection Hrun as <- <-.
  apply alloc_Some in H5 as (-> & _ & Hdname).
  apply alloc_Some in H6 as (-> & P67 & Hdvar).
  apply grows_typeToAst in H7.
  apply alloc_Some in H8 as (-> & P89 & Hdef).
  apply reads_liftOption in H9 as [-> _].
  apply grows_allocData in H10.
  assert (Hread : variableNameOf (VRef (length h8)) h11
                  = Some (VString variableName, h11)).
  { apply (variableNameOf_definition _ (length h5) (length h6) _ _ type).
    - eapply prefix_lookup_Some; [exact Hdname|].
      by repeat (etrans; [eassumption|]).
    - eapply prefix_lookup_Some; [exact Hdvar|].
      by repeat (etrans; [eassumption|]).
    - by eapply prefix_lookup_Some. }
  destruct Htr as (Hex & Hnodup & Hnew & Hkeys & Hdefs & Hforms).
  assert (Hnotin : variableName ∉ generated).
  { intros Hin. apply Hfresh. rewrite Hex. apply elem_of_app. right.
    by apply list_elem_of_fmap_2. }
  exists (generated ++ [variableName]). split_and!; simpl.
  - by rewrite Hex, fmap_app, app_assoc.
  - apply NoDup_app. split_and!; [done| |apply NoDup_singleton].
    intros x Hx ->%list_elem_of_singleton. done.
  - intros x [Hx| ->%list_elem_of_singleton]%elem_of_app; [by apply Hnew|].
    intros Hin. apply Hfresh. rewrite Hex. apply elem_of_app. by left.
  - rewrite assign_fresh by (by rewrite Hkeys).
    by rewrite fmap_app, Hkeys.
  - rewrite assign_fresh by (by rewrite Hkeys).
    apply Forall_app. split.
    + eapply Forall_impl; [exact Hdefs|]. simpl. intros p Hp.
      by apply (reads_variableNameOf _ _ _ _ Hp).
    + by apply Forall_singleton.
  - intros x [Hx| ->%list_elem_of_singleton]%elem_of_app; [by apply Hforms|].
    exists k, (arg_name argument). split; [done|]. by rewrite Harg.
Qed.

Lemma forEach_invariant {A S} (P : S → Heap → Prop) (f : A → S → M S)
    (l : list A) (s : S) (h : Heap) s' h' :
  (∀ x s h s' h', P s h → f x s h = Some (s', h') → P s' h') →
  P s h → forEach f l s h = Some (s', h') → P s' h'.
Proof.
  intros Hf. revert s h.
  induction l as [|x rest IH]; intros s h HP; simpl.
  - by intros [= <- <-].
  - intros (s1 & h1 & H1 & Hrest)%bind_Some. eapply IH; [|exact Hrest].
    by eapply Hf.
Qed.

Lemma addSelection_tracks type selection s (h : Heap) s' h' generated :
  tracks h s generated →
  addSelection schema args type selection s h = Some (s', h') →
  ∃ generated', tracks h' s' generated'.
Proof.
  intros Htr Hrun. unfold addSelection in Hrun.
  apply bind_Some in Hrun as (kind & h1 & H1 & Hrun).
  apply reads_getProp in H1 as [-> _].
  case_decide; [|injection Hrun as <- <-; exists generated; exact Htr].
  apply bind_Some in Hrun as (arguments & h2 & H2 & Hrun).
  apply reads_getProp in H2 as [-> _].
  apply bind_Some in Hrun as (argumentNodes & h3 & H3 & Hrun).
  apply reads_arrayItems in H3 as [-> _].
  apply bind_Some in Hrun as (newArgs0 & h4 & H4 & Hrun).
  apply reads_forEach in H4 as [-> _]; [|apply reads_collectArgument].
  apply bind_Some in Hrun as (nameOfField & h5 & H5 & Hrun).
  apply reads_getProp in H5 as [-> _].
  apply bind_Some in Hrun as (name & h6 & H6 & Hrun).
  apply reads_getProp in H6 as [-> _].
  apply bind_Some in Hrun as (objectType & h7 & H7 & Hrun).
  apply reads_liftOption in H7 as [-> _].
  apply bind_Some in Hrun as (field & h8 & H8 & Hrun).
  apply reads_liftOption in H8 as [-> _].
  apply bind_Some in Hrun as (s1 & h9 & H9 & Hrun).
  apply (forEach_invariant (λ s h, ∃ generated', tracks h s generated'))
    in H9 as [generated1 Htr1].
  2:{ intros x s0 h0 s0' h0' [g Hg]. by eapply addArgument_tracks. }
  2:{ exists generated. exact Htr. }
  apply bind_Some in Hrun as (props & h10 & H10 & Hrun).
  apply reads_ownProperties in H10 as [-> _].
  apply bind_Some in Hrun as (newArguments & h11 & H11 & Hrun).
  apply grows_alloc in H11.
  apply bind_Some in Hrun as (newSelection & h12 & H12 & Hrun).
  apply grows_alloc in H12.
  injection Hrun as <- <-.
  exists generated1. apply (tracks_mono h9); [by etrans|]. exact Htr1.
Qed.
End tracking.

Lemma mapM_variableNameOf_tracked (h : Heap) (vars : list (string * Val)) :
  Forall (λ p, variableNameOf p.2 h = Some (VString p.1, h)) vars →
  mapM variableNameOf vars.*2 h = Some (VString <$> vars.*1, h).
Proof.
  induction 1 as [|[name d] rest Hd _ IH]; simpl; [done|].
  apply bind_Some. eexists _, _. split; [exact Hd|].
  apply bind_Some. eexists _, _. split; [exact IH|]. done.
Qed.

Lemma addVariablesToOperation_names (schema : GraphQLSchema)
    (args : list (string * ArgValue)) (operation : Val) (s : Locals)
    (h : Heap) (newOperation : Val) (s' : Locals) (h' : Heap) :
  addVariablesToOperation schema args operation s h
    = Some (newOperation, s', h') →
  ∃ (existing : list Val) (generated : list string),
    declaredVariables operation h = Some (existing, h) ∧
    declaredVariables newOperation h'
      = Some (existing ++ (VString <$> generated), h') ∧
    NoDup generated ∧
    (∀ name, name ∈ generated → VString name ∉ existing) ∧
    (∀ name, name ∈ generated →
       ∃ counter argName, name = variableNameFor counter argName ∧
                          is_Some (lookupArg argName args)).
Proof.
  intros Hrun. unfold addVariablesToOperation in Hrun.
  apply bind_Some in Hrun as (existing & h1 & Hdecl & Hrun).
  pose proof (reads_declaredVariables _ _ _ _ Hdecl) as [-> Hdecl'].
  apply bind_Some in Hrun as (operationKind & h2 & H2 & Hrun).
  apply reads_getProp in H2 as [-> _].
  apply bind_Some in Hrun as (selectionSet & h3 & H3 & Hrun).
  apply reads_getProp in H3 as [-> _].
  apply bind_Some in Hrun as (selections & h4 & H4 & Hrun).
  apply reads_getProp in H4 as [-> _].
  apply bind_Some in Hrun as (selectionNodes & h5 & H5 & Hrun).
  apply reads_arrayItems in H5 as [-> _].
  apply bind_Some in Hrun as (s1 & h6 & H6 & Hrun).
  pose proof H6 as Hgrow. apply grows_forEach in Hgrow;
    [|intros; apply grows_addSelection].
  apply (forEach_invariant
           (λ s h, ∃ generated, tracks args existing h s generated))
    in H6 as [generated Htr].
  2:{ intros x s0 h0 s0' h0' [g Hg]. by eapply addSelection_tracks. }
  2:{ exists []. split_and!; simpl; try done.
      - by rewrite app_nil_r.
      - apply NoDup_nil_2.
      - intros ? ?%elem_of_nil. done.
      - intros ? ?%elem_of_nil. done. }
  apply bind_Some in Hrun as (props & h7 & H7 & Hrun).
  pose proof (reads_ownProperties _ _ _ _ H7) as [-> _].
  apply bind_Some in Hrun as (variableDefinitions & h8 & H8 & Hrun).
  pose proof (reads_getProp _ _ _ _ _ H8) as [-> Hvd].
  apply bind_Some in Hrun as (definitions & h9 & H9 & Hrun).
  pose proof (reads_arrayItems _ _ _ _ H9) as [-> Hitems].
  apply bind_Some in Hrun as (newDefinitions & h10 & H10 & Hrun).
  apply alloc_Some in H10 as (-> & P10 & Hnd).
  apply bind_Some in Hrun as (newSelections & h11 & H11 & Hrun).
  apply alloc_Some in H11 as (-> & P11 & _).
  apply bind_Some in Hrun as (newSelectionSetNode & h12 & H12 & Hrun).
  apply alloc_Some in H12 as (-> & P12 & _).
  apply bind_Some in Hrun as (newOperation' & h13 & H13 & Hrun).
  apply alloc_Some in H13 as (-> & P13 & Hop).
  injection Hrun as <- <- <-.
  assert (P : h6 `prefix_of` h13) by (by repeat (etrans; [eassumption|])).
  exists existing, generated.
  destruct (tracks_mono args existing _ _ _ _ P Htr)
    as (_ & Hnodup & Hnew & Hkeys & Hdefs & Hforms).
  split_and!; try done.
  (* the declarations of the original, read in the first store *)
  unfold declaredVariables in Hdecl.
  apply bind_Some in Hdecl as (vd0 & ? & Hvd0 & Hdecl).
  pose proof (reads_getProp _ _ _ _ _ Hvd0) as [-> Hvd0'].
  apply bind_Some in Hdecl as (defs0 & ? & Hdefs0 & Hdecl).
  pose proof (reads_arrayItems _ _ _ _ Hdefs0) as [-> Hdefs0'].
  rewrite (Hvd0' _ Hgrow) in H8. injection H8 as <-.
  rewrite (Hdefs0' _ Hgrow) in H9. injection H9 as <-.
  pose proof (reads_mapM _ _ reads_variableNameOf _ _ _ Hdecl) as [_ Hmap].
  unfold declaredVariables.
  apply bind_Some. eexists _, _. split.
  { apply getProp_ref. exact Hop. }
  rewrite lookupProp_assign_ne, lookupProp_assign_eq by done. simpl.
  apply bind_Some. eexists _, _. split.
  { rewrite (prefix_lookup_Some _ h13 _ _ Hnd);
      [reflexivity|by repeat (etrans; [eassumption|])]. }
  apply mapM_reads_app; [apply reads_variableNameOf| |].
  - apply Hmap. by etrans.
  - rewrite <-Hkeys. by apply mapM_variableNameOf_tracked.
Qed.

Lemma addVariablesToRootField_document schema document args (h : Heap)
    newDocument newVariables h' :
  addVariablesToRootField schema document args h
    = Some (newDocument, newVariables, h') →
  ∃ l, newDocument = VRef l ∧ length h ≤ l.
Proof.
  intros Hrun. unfold addVariablesToRootField in Hrun.
  apply bind_Some in Hrun as (definitions & h1 & H1 & Hrun).
  apply reads_getProp in H1 as [-> _].
  apply bind_Some in Hrun as (definitionNodes & h2 & H2 & Hrun).
  apply reads_arrayItems in H2 as [-> _].
  apply bind_Some in Hrun as (operations & h3 & H3 & Hrun).
  apply reads_filterM in H3 as [-> _]; [|intros; apply reads_hasKind].
  apply bind_Some in Hrun as (fragments & h4 & H4 & Hrun).
  apply reads_filterM in H4 as [-> _]; [|intros; apply reads_hasKind].
  apply bind_Some in Hrun as ([newOperations s] & h5 & H5 & Hrun).
  apply grows_forEach in H5.
  2:{ intros operation [done s0]. repeat grows_step. }
  apply bind_Some in Hrun as (props & h6 & H6 & Hrun).
  apply reads_ownProperties in H6 as [-> _].
  apply bind_Some in Hrun as (newDefinitions & h7 & H7 & Hrun).
  apply grows_alloc in H7.
  apply bind_Some in Hrun as (newDocument' & h8 & H8 & Hrun).
  apply alloc_Some in H8 as (-> & _ & _).
  injection Hrun as <- <- <-.
  eexists. split; [done|].
  apply prefix_length in H5, H7. lia.
Qed.

Lemma transformRequest_extends (schema : GraphQLSchema)
    (args : list (string * ArgValue)) (originalRequest : Val) (h : Heap)
    (newRequest : Val) (h' : Heap) :
  transformRequest schema args originalRequest h = Some (newRequest, h') →
  (∀ l c, h !! l = Some c → h' !! l = Some c) ∧
  (∀ A (m : M A) a, reads m → m h = Some (a, h) → m h' = Some (a, h')) ∧
  ∃ r l document variables,
    originalRequest = VRef r ∧ r < length h ∧
    newRequest = VRef l ∧ length h ≤ l ∧
    h' !! l = Some (CObject [("document", VRef document);
                             ("variables", VRef variables)]) ∧
    length h ≤ document ∧ length h ≤ variables.
Proof.
  intros Hrun.
  pose proof (grows_transformRequest _ _ _ _ _ _ Hrun) as Hpre.
  split; [|split].
  { intros l c Hl. by eapply prefix_lookup_Some. }
  { intros A m a Hm Hrun'. by apply (Hm _ _ _ Hrun'). }
  unfold transformRequest in Hrun.
  apply bind_Some in Hrun as (originalDocument & h1 & H1 & Hrun).
  pose proof (reads_getProp _ _ _ _ _ H1) as [-> _].
  apply bind_Some in Hrun as ([document newVariables] & h2 & H2 & Hrun).
  apply bind_Some in Hrun as (originalVariables & h3 & H3 & Hrun).
  apply reads_getProp in H3 as [-> _].
  apply bind_Some in Hrun as (props & h4 & H4 & Hrun).
  apply reads_ownProperties in H4 as [-> _].
  apply bind_Some in Hrun as (variables & h5 & H5 & Hrun).
  apply alloc_Some in H5 as (-> & P5 & _).
  apply alloc_Some in Hrun as (-> & P6 & Hreq).
  pose proof (grows_addVariablesToRootField _ _ _ _ _ _ H2) as P2.
  destruct (addVariablesToRootField_document _ _ _ _ _ _ _ H2)
    as (ld & -> & Hld).
  destruct originalRequest as [| | | | |r]; simpl in H1; try done.
  1,2,3: injection H1 as <-; done.
  destruct (h !! r) as [c|] eqn:Hr; [|done].
  exists r, (length h5), ld, (length h2).
  apply prefix_length in P2, P5.
  split_and!; try done; try lia.
  apply lookup_lt_is_Some. by eexists.
Qed.

(** ** The transform returns on the requests it applies to *)

Lemma returns_bind {A B} (m : M A) (f : A → M B) (h : Heap) a h1 :
  m h = Some (a, h1) →
  (∃ b h2, f a h1 = Some (b, h2)) →
  ∃ b h2, (m ≫= f) h = Some (b, h2).
Proof.
  intros Hm (b & h2 & Hf). exists b, h2. apply bind_Some. eauto.
Qed.

Lemma typeToAst_total (type : InputType) :
  validType type →
  ∀ h : Heap, ∃ v h', typeToAst type h = Some (v, h') ∧
                      getProp v "kind" h' = Some (VString (astKind type), h').
Proof.
  induction type as [ofType IH|ofType IH|name|name|name]; intros Hvalid h.
  - destruct Hvalid as [Hnot Hvalid].
    destruct (IH Hvalid h) as (inner & h1 & Hinner & Hkind).
    eexists _, _. split.
    + simpl. apply bind_Some. eexists _, _. split; [exact Hinner|].
      apply bind_Some. eexists _, _. split; [exact Hkind|].
      rewrite decide_True; [reflexivity|].
      destruct ofType; simpl; auto. done.
    + simpl. by rewrite list_lookup_middle.
  - destruct (IH Hvalid h) as (inner & h1 & Hinner & Hkind).
    eexists _, _. split.
    + simpl. apply bind_Some. eexists _, _. split; [exact Hinner|].
      reflexivity.
    + simpl. by rewrite list_lookup_middle.
  - eexists _, _. split; [reflexivity|]. simpl.
    by rewrite list_lookup_middle by (by rewrite length_app; simpl; lia).
  - eexists _, _. split; [reflexivity|]. simpl.
    by rewrite list_lookup_middle by (by rewrite length_app; simpl; lia).
  - eexists _, _. split; [reflexivity|]. simpl.
    by rewrite list_lookup_middle by (by rewrite length_app; simpl; lia).
Qed.

Lemma allocData_total (d : ArgValue) :
  ∀ h : Heap, ∃ v h', allocData d h = Some (v, h').
Proof.
  revert d. fix IH 1. intros [| | | | |items|props] h; simpl;
    try (by eexists _, _).
  - assert (Hitems : ∀ h : Heap, ∃ vs h',
      (fix map (items : list ArgValue) : M (list Val) :=
         match items with
         | [] => mret []
         | d :: rest => v ← allocData d; vs ← map rest; mret (v :: vs)
         end) items h = Some (vs, h')).
    { induction items as [|d rest IHrest]; intros h0; [by eexists _, _|].
      destruct (IH d h0) as (v & h1 & Hv).
      destruct (IHrest h1) as (vs & h2 & Hvs).
      eapply returns_bind; [exact Hv|].
      eapply returns_bind; [exact Hvs|]. by eexists _, _. }
    destruct (Hitems h) as (vs & h1 & Hvs).
    eapply returns_bind; [exact Hvs|]. by eexists _, _.
  - assert (Hprops : ∀ h : Heap, ∃ ps h',
      (fix map (props : list (string * ArgValue))
         : M (list (string * Val)) :=
         match props with
         | [] => mret []
         | (k, d) :: rest =>
             v ← allocData d; ps ← map rest; mret ((k, v) :: ps)
         end) props h = Some (ps, h')).
    { induction props as [|[k d] rest IHrest]; intros h0; [by eexists _, _|].
      destruct (IH d h0) as (v & h1 & Hv).
      destruct (IHrest h1) as (ps & h2 & Hps).
      eapply returns_bind; [exact Hv|].
      eapply returns_bind; [exact Hps|]. by eexists _, _. }
    destruct (Hprops h) as (ps & h1 & Hps).
    eapply returns_bind; [exact Hps|]. by eexists _, _.
Qed.

Ltac returns_step :=
  cbv beta iota;
  lazymatch goal with
  | |- ∃ b h2, (alloc _ ≫= _) _ = _ => eapply returns_bind; [reflexivity|]
  | |- ∃ b h2, (mret _ ≫= _) _ = _ => eapply returns_bind; [reflexivity|]
  | |- ∃ b h2, mret _ _ = _ => by eexists _, _
  | |- ∃ b h2, alloc _ _ = _ => by eexists _, _
  end.

Lemma addArgument_total schema args argument s (h : Heap) :
  okArgument schema args argument →
  ∃ s' h', addArgument schema args argument s h = Some (s', h').
Proof.
  intros Hok. unfold addArgument.
  destruct (lookupArg _ args) as [value|] eqn:Harg; [|by eexists _, _].
  destruct (Hok value Harg) as [Hvalid [serialized Hser]].
  destruct (generateVariableName_total (existingVariables s)
              (variableCounter s) (arg_name argument)) as [[name next] Hname].
  rewrite Hname, Hser. simpl. repeat returns_step.
  match goal with
  | |- ∃ b h2, (typeToAst _ ≫= _) ?h0 = _ =>
      destruct (typeToAst_total _ Hvalid h0) as (type & h1 & Htype & _)
  end.
  eapply returns_bind; [exact Htype|]. repeat returns_step.
  match goal with
  | |- ∃ b h2, (allocData _ ≫= _) ?h0 = _ =>
      destruct (allocData_total serialized h0) as (data & h2 & Hdata)
  end.
  eapply returns_bind; [exact Hdata|]. repeat returns_step.
Qed.

Lemma forEach_total {A S} (f : A → S → M S) (Q : A → Prop) (l : list A)
    (h0 : Heap) :
  (∀ x s, grows (f x s)) →
  (∀ x s (h : Heap), Q x → h0 `prefix_of` h →
     ∃ s' h', f x s h = Some (s', h')) →
  Forall Q l →
  ∀ s (h : Heap), h0 `prefix_of` h →
    ∃ s' h', forEach f l s h = Some (s', h').
Proof.
  intros Hgrows Hf. induction 1 as [|x rest Hx _ IH]; intros s h Hpre; simpl.
  { by eexists _, _. }
  destruct (Hf x s h Hx Hpre) as (s1 & h1 & H1).
  eapply returns_bind; [exact H1|]. apply IH.
  etrans; [exact Hpre|]. by eapply Hgrows.
Qed.

(** A read that succeeded in [h0] succeeds in every extension. *)
Ltac read_step H :=
  eapply returns_bind;
  [ match type of H with
    | ?m _ = Some _ =>
        first [ apply (reads_getProp _ _ _ _ _ H)
              | apply (reads_arrayItems _ _ _ _ H)
              | apply (reads_ownProperties _ _ _ _ H)
              | apply (reads_declaredVariables _ _ _ _ H) ]
    end; assumption
  | ].

Lemma getProp_ownProperties (v : Val) (key : string) (h : Heap) x :
  getProp v key h = Some (x, h) →
  ∃ props, ownProperties v h = Some (props, h).
Proof.
  destruct v as [| | | | |l]; simpl; try done; try (by eexists).
  destruct (h !! l) as [[props|items]|]; [by eexists..|done].
Qed.

Lemma addSelection_total schema args type selection s (h0 h : Heap) :
  okSelection schema args type h0 selection →
  h0 `prefix_of` h →
  ∃ s' h', addSelection schema args type selection s h = Some (s', h').
Proof.
  intros (kind & Hkind & Hfield) Hpre. unfold addSelection.
  read_step Hkind.
  case_decide as Hk; [|repeat returns_step].
  destruct (Hfield Hk) as (arguments & argumentNodes & newArgs0
    & nameOfField & name & objectType & field
    & Hargs & Hnodes & Hcollect & Hname & Hvalue & -> & Hlookup & Hoks).
  read_step Hargs. read_step Hnodes.
  eapply returns_bind.
  { apply (reads_forEach collectArgument _ _ reads_collectArgument
             _ _ _ Hcollect). exact Hpre. }
  read_step Hname. read_step Hvalue.
  eapply returns_bind; [reflexivity|]. cbv beta iota.
  rewrite Hlookup.
  eapply returns_bind; [reflexivity|]. cbv beta iota.
  match goal with
  | |- ∃ b h2, (forEach _ _ ?s0 ≫= _) _ = _ =>
      destruct (forEach_total (addArgument schema args)
                  (okArgument schema args) (field_args field) h
                  (grows_addArgument schema args)
                  ltac:(intros; by apply addArgument_total)
                  Hoks s0 h ltac:(done)) as (s1 & h1 & Hrun)
  end.
  pose proof (grows_forEach _ _ _ (grows_addArgument schema args) _ _ _ Hrun)
    as Hpre1.
  eapply returns_bind; [exact Hrun|].
  destruct (getProp_ownProperties _ _ _ _ Hkind) as [props Hprops].
  eapply returns_bind.
  { apply (reads_ownProperties _ _ _ _ Hprops). by etrans. }
  repeat returns_step.
Qed.

Lemma addVariablesToOperation_total schema args operation s (h0 h : Heap) :
  okOperation schema args h0 operation →
  h0 `prefix_of` h →
  ∃ r h', addVariablesToOperation schema args operation s h = Some (r, h').
Proof.
  intros (existing & operationKind & selectionSet & selections
    & selectionNodes & props & Hdecl & Hkind & Hset & Hsels & Hnodes
    & Hoks & Hprops) Hpre.
  unfold addVariablesToOperation.
  read_step Hdecl. read_step Hkind. read_step Hset. read_step Hsels.
  read_step Hnodes.
  match goal with
  | |- ∃ b h2, (forEach ?f _ ?s0 ≫= _) _ = _ =>
      destruct (forEach_total f _ selectionNodes h0
                  (grows_addSelection schema args _)
                  ltac:(intros; by eapply addSelection_total)
                  Hoks s0 h Hpre) as (s1 & h1 & Hrun)
  end.
  pose proof (grows_forEach _ _ _ (grows_addSelection schema args _)
                _ _ _ Hrun) as Hpre1.
  eapply returns_bind; [exact Hrun|].
  assert (Hpre' : h0 `prefix_of` h1) by (by etrans).
  read_step Hprops.
  unfold declaredVariables in Hdecl.
  apply bind_Some in Hdecl as (vd & ? & Hvd & Hdecl).
  pose proof (reads_getProp _ _ _ _ _ Hvd) as [-> _].
  apply bind_Some in Hdecl as (defs & ? & Hdefs & _).
  pose proof (reads_arrayItems _ _ _ _ Hdefs) as [-> _].
  read_step Hvd. read_step Hdefs.
  repeat returns_step.
Qed.

Lemma addVariablesToRootField_total schema document args (h : Heap) :
  okDocument schema args h document →
  ∃ r h', addVariablesToRootField schema document args h = Some (r, h').
Proof.
  intros (definitions & definitionNodes & operations & fragments & props
    & Hdefs & Hnodes & Hops & Hfrags & Hoks & Hprops).
  unfold addVariablesToRootField.
  eapply returns_bind; [exact Hdefs|].
  eapply returns_bind; [exact Hnodes|].
  eapply returns_bind; [exact Hops|].
  eapply returns_bind; [exact Hfrags|].
  match goal with
  | |- ∃ b h2, (forEach ?f _ ?s0 ≫= _) _ = _ =>
      assert (Hgrows : ∀ x s, grows (f x s))
        by (intros x [done s]; repeat grows_step);
      destruct (forEach_total f (okOperation schema args h) operations h
                  Hgrows) with (s := s0) (h := h)
        as ([newOperations s1] & h1 & Hrun); [|exact Hoks|done|]
  end.
  { intros operation [done s] h2 Hok Hpre.
    destruct (addVariablesToOperation_total schema args operation s h h2
                Hok Hpre) as ([newOperation s'] & h3 & Hrun).
    eapply returns_bind; [exact Hrun|]. repeat returns_step. }
  pose proof (grows_forEach _ _ _ Hgrows _ _ _ Hrun) as Hpre1.
  eapply returns_bind; [exact Hrun|]. cbv beta iota.
  eapply returns_bind.
  { by apply (reads_ownProperties _ _ _ _ Hprops). }
  repeat returns_step.
Qed.

Lemma transformRequest_returns schema args (originalRequest : Val)
    (h : Heap) :
  okRequest schema args h originalRequest →
  ∃ newRequest h',
    transformRequest schema args originalRequest h = Some (newRequest, h').
Proof.
  intros (document & variables & props & Hdoc & Hok & Hvars & Hprops).
  unfold transformRequest.
  eapply returns_bind; [exact Hdoc|].
  destruct (addVariablesToRootField_total _ _ _ _ Hok)
    as ([newDocument newVariables] & h1 & Hrun).
  pose proof (grows_addVariablesToRootField _ _ _ _ _ _ Hrun) as Hpre.
  eapply returns_bind; [exact Hrun|]. cbv beta iota.
  eapply returns_bind.
  { by apply (reads_getProp _ _ _ _ _ Hvars). }
  eapply returns_bind.
  { by apply (reads_ownProperties _ _ _ _ Hprops). }
  repeat returns_step.
Qed.

Lemma sample_ok : okRequest sampleSchema sampleArgs sampleStore sampleRequest.
Proof.
  unfold okRequest, okDocument.
  eexists _, _, _. split; [reflexivity|]. split; [|split; reflexivity].
  eexists _, _, _, _, _. split_and!; try reflexivity.
  apply Forall_cons_2; [|apply Forall_nil_2].
  eexists _, _, _, _, _, _. split_and!; try reflexivity.
  apply Forall_cons_2; [|apply Forall_cons_2; [|apply Forall_nil_2]].
  - eexists. split; [reflexivity|]. intros _.
    eexists _, _, _, _, _, _, _. split_and!; try reflexivity.
    repeat apply Forall_cons_2; try apply Forall_nil_2.
    + intros v [= <-]. split; [done|]. by eexists.
    + intros v [= <-]. split; [done|]. by eexists.
    + intros v [=].
  - eexists. split; [reflexivity|]. intros [=].
Qed.

(** ** The two properties of the transform *)





(** ** The nodes and values the transform makes *)

Lemma typeNode_mono (h h' : Heap) (type : InputType) (node : Val) :
  h `prefix_of` h' → typeNode h type node → typeNode h' type node.
Proof.
  intros Hpre. revert node.
  induction type as [ofType IH|ofType IH|name|name|name]; intros node; simpl.
  - intros (l & inner & -> & Hl & Hinner). exists l, inner.
    split_and!; [done|by eapply prefix_lookup_Some|by apply IH].
  - intros (l & inner & -> & Hl & Hinner). exists l, inner.
    split_and!; [done|by eapply prefix_lookup_Some|by apply IH].
  - intros (l & ln & -> & Hl & Hln). exists l, ln.
    split_and!; [done|by eapply prefix_lookup_Some..].
  - intros (l & ln & -> & Hl & Hln). exists l, ln.
    split_and!; [done|by eapply prefix_lookup_Some..].
  - intros (l & ln & -> & Hl & Hln). exists l, ln.
    split_and!; [done|by eapply prefix_lookup_Some..].
Qed.

Lemma typeNode_kind (h : Heap) (type : InputType) (node : Val) :
  typeNode h type node →
  getProp node "kind" h = Some (VString (astKind type), h).
Proof.
  destruct type; simpl.
  1,2: intros (l & inner & -> & Hl & _); by rewrite (getProp_ref _ _ _ _ Hl).
  all: intros (l & ln & -> & Hl & _); by rewrite (getProp_ref _ _ _ _ Hl).
Qed.

Lemma typeToAst_typeNode (type : InputType) :
  ∀ (h : Heap) v h',
    typeToAst type h = Some (v, h') →
    h `prefix_of` h' ∧ typeNode h' type v ∧ validType type.
Proof.
  induction type as [ofType IH|ofType IH|name|name|name]; intros h v h' Hrun;
    simpl in Hrun.
  - apply bind_Some in Hrun as (inner & h1 & Hinner & Hrun).
    destruct (IH _ _ _ Hinner) as (Hpre & Hnode & Hvalid).
    apply bind_Some in Hrun as (kind & h2 & Hkind & Hrun).
    rewrite (typeNode_kind _ _ _ Hnode) in Hkind. injection Hkind as <- <-.
    case_decide as Hk; [|done].
    apply alloc_Some in Hrun as (-> & Hpre' & Hcell).
    split_and!.
    + by etrans.
    + simpl. eexists _, inner. split_and!; [done|done|].
      by eapply typeNode_mono.
    + simpl. split; [|done].
      destruct ofType; try done.
      destruct Hk as [[=]|[=]].
  - apply bind_Some in Hrun as (inner & h1 & Hinner & Hrun).
    destruct (IH _ _ _ Hinner) as (Hpre & Hnode & Hvalid).
    apply alloc_Some in Hrun as (-> & Hpre' & Hcell).
    split_and!; [by etrans| |done].
    simpl. eexists _, inner. split_and!; [done|done|].
    by eapply typeNode_mono.
  - apply bind_Some in Hrun as (nm & h1 & Hname & Hrun).
    apply alloc_Some in Hname as (-> & Hpre & Hcell).
    apply alloc_Some in Hrun as (-> & Hpre' & Hcell').
    split_and!; [by etrans| |done].
    simpl. eexists _, _. split_and!; [done|done|].
    by eapply prefix_lookup_Some.
  - apply bind_Some in Hrun as (nm & h1 & Hname & Hrun).
    apply alloc_Some in Hname as (-> & Hpre & Hcell).
    apply alloc_Some in Hrun as (-> & Hpre' & Hcell').
    split_and!; [by etrans| |done].
    simpl. eexists _, _. split_and!; [done|done|].
    by eapply prefix_lookup_Some.
  - apply bind_Some in Hrun as (nm & h1 & Hname & Hrun).
    apply alloc_Some in Hname as (-> & Hpre & Hcell).
    apply alloc_Some in Hrun as (-> & Hpre' & Hcell').
    split_and!; [by etrans| |done].
    simpl. eexists _, _. split_and!; [done|done|].
    by eapply prefix_lookup_Some.
Qed.

(** X7. [typeToAst] returns for exactly the types in which no non-null
    wrapper is directly around another one, and throws for the others. The
    node it returns is new and mirrors the type wrapper by wrapper, down to
    a named-type node with the name of the innermost type. *)
Theorem typeToAst_spec (type : InputType) (h : Heap) :
  (validType type →
   ∃ node h', typeToAst type h = Some (node, h') ∧
              h `prefix_of` h' ∧ typeNode h' type node) ∧
  (¬ validType type → typeToAst type h = None) ∧
  (∀ ofType, typeToAst (GraphQLNonNull (GraphQLNonNull ofType)) h = None).
Proof.
  assert (Hnone : ∀ t, ¬ validType t → typeToAst t h = None).
  { intros t Hnot.
    destruct (typeToAst t h) as [[v h']|] eqn:Hrun; [|done].
    by apply typeToAst_typeNode in Hrun as (_ & _ & ?). }
  split_and!.
  - intros Hvalid.
    destruct (typeToAst_total type Hvalid h) as (v & h' & Hrun & _).
    exists v, h'. split; [done|].
    by apply typeToAst_typeNode in Hrun as (? & ? & _).
  - apply Hnone.
  - intros ofType. apply Hnone. simpl. tauto.
Qed.

Lemma argumentNode_mono (h h' : Heap) key variable node :
  h `prefix_of` h' →
  argumentNode h key variable node → argumentNode h' key variable node.
Proof.
  intros Hpre (l & n & v & vn & -> & H1 & H2 & H3 & H4).
  exists l, n, v, vn. split_and!; [done|by eapply prefix_lookup_Some..].
Qed.

Lemma definitionNode_mono (h h' : Heap) variable type node :
  h `prefix_of` h' →
  definitionNode h variable type node → definitionNode h' variable type node.
Proof.
  intros Hpre (l & v & vn & t & -> & H1 & H2 & H3 & H4).
  exists l, v, vn, t.
  split_and!; [done|by eapply prefix_lookup_Some..|by eapply typeNode_mono].
Qed.

Lemma holds_mono (h h' : Heap) (d : ArgValue) :
  h `prefix_of` h' → ∀ v, holds h d v → holds h' d v.
Proof.
  intros Hpre. revert d. fix IH 1.
  intros [| | | | |items|props] v; simpl; try done.
  - intros (l & vs & -> & Hl & Hall). exists l, vs.
    split_and!; [done|by eapply prefix_lookup_Some|].
    clear Hl. revert vs Hall.
    induction items as [|d items IHitems]; intros [|v vs]; try done.
    intros [Hd Hrest]. split; [by apply IH|by apply IHitems].
  - intros (l & ps & -> & Hl & Hall). exists l, ps.
    split_and!; [done|by eapply prefix_lookup_Some|].
    clear Hl. revert ps Hall.
    induction props as [|[k d] props IHprops]; intros [|[k' v] ps]; try done.
    intros (Hk & Hd & Hrest). split_and!; [done|by apply IH|by apply IHprops].
Qed.

Lemma allocData_holds (d : ArgValue) :
  ∀ (h : Heap) v h',
    allocData d h = Some (v, h') → h `prefix_of` h' ∧ holds h' d v.
Proof.
  revert d. fix IH 1. intros [| | | | |items|props] h v h' Hrun;
    simpl in Hrun; try (by injection Hrun as <- <-).
  - apply bind_Some in Hrun as (vs & h1 & Hvs & Hrun).
    apply alloc_Some in Hrun as (-> & Hpre & Hcell).
    assert (Hitems : h `prefix_of` h1 ∧
      (fix all (items : list ArgValue) (vs : list Val) : Prop :=
         match items, vs with
         | [], [] => True
         | d :: items, v :: vs => holds h1 d v ∧ all items vs
         | _, _ => False
         end) items vs).
    { clear Hcell Hpre. revert h vs h1 Hvs.
      induction items as [|d items IHitems]; intros h vs h1 Hvs.
      { by injection Hvs as <- <-. }
      apply bind_Some in Hvs as (v & h2 & Hv & Hvs).
      apply bind_Some in Hvs as (vs' & h3 & Hvs' & Hvs).
      injection Hvs as <- <-.
      destruct (IH _ _ _ _ Hv) as [Hp1 Hh1].
      destruct (IHitems _ _ _ Hvs') as [Hp2 Hh2].
      split; [by etrans|]. split; [by eapply holds_mono|done]. }
    destruct Hitems as [Hp Hall]. split; [by etrans|].
    simpl. exists (length h1), vs. split_and!; [done|done|].
    clear -Hall Hpre. revert vs Hall.
    induction items as [|d items IHitems]; intros [|v vs]; try done.
    intros [Hd Hrest]. split; [by eapply holds_mono|by apply IHitems].
  - apply bind_Some in Hrun as (ps & h1 & Hps & Hrun).
    apply alloc_Some in Hrun as (-> & Hpre & Hcell).
    assert (Hprops : h `prefix_of` h1 ∧
      (fix all (props : list (string * ArgValue))
           (ps : list (string * Val)) : Prop :=
         match props, ps with
         | [], [] => True
         | (k, d) :: props, (k', v) :: ps =>
             k = k' ∧ holds h1 d v ∧ all props ps
         | _, _ => False
         end) props ps).
    { clear Hcell Hpre. revert h ps h1 Hps.
      induction props as [|[k d] props IHprops]; intros h ps h1 Hps.
      { by injection Hps as <- <-. }
      apply bind_Some in Hps as (v & h2 & Hv & Hps).
      apply bind_Some in Hps as (ps' & h3 & Hps' & Hps).
      injection Hps as <- <-.
      destruct (IH _ _ _ _ Hv) as [Hp1 Hh1].
      destruct (IHprops _ _ _ Hps') as [Hp2 Hh2].
      split; [by etrans|]. split_and!; [done|by eapply holds_mono|done]. }
    destruct Hprops as [Hp Hall]. split; [by etrans|].
    simpl. exists (length h1), ps. split_and!; [done|done|].
    clear -Hall Hpre. revert ps Hall.
    induction props as [|[k d] props IHprops]; intros [|[k' v] ps]; try done.
    intros (Hk & Hd & Hrest).
    split_and!; [done|by eapply holds_mono|by apply IHprops].
Qed.

Lemma injected_mono schema args (h h' : Heap) name v :
  h `prefix_of` h' → injected schema args h name v →
  injected schema args h' name v.
Proof.
  intros Hpre (counter & argument & value & serialized & ? & ? & ? & ? & ?).
  exists counter, argument, value, serialized.
  split_and!; try done. by eapply holds_mono.
Qed.

(** What one round of [field.args.forEach] does. *)
Lemma addArgument_effect schema args argument s (h : Heap) s' h' :
  addArgument schema args argument s h = Some (s', h') →
  h `prefix_of` h' ∧
  match lookupArg (arg_name argument) args with
  | None => s' = s ∧ h' = h
  | Some value =>
      ∃ name counter newArg definition serialized data,
        generateVariableName (existingVariables s) (variableCounter s)
          (arg_name argument) = Some (name, counter) ∧
        argumentNode h' (arg_name argument) name newArg ∧
        definitionNode h' name (arg_type argument) definition ∧
        serializeArgumentValue schema (arg_type argument) value
          = Some serialized ∧
        holds h' serialized data ∧
        s' = mkLocals
               (assign (arg_name argument) (VString name) (variableNames s))
               (assign name data (newVariables s))
               (existingVariables s ++ [VString name])
               counter
               (assign name definition (variables s))
               (newSelectionSet s)
               (assign (arg_name argument) newArg (newArgs s))
  end.
Proof.
  intros Hrun.
  pose proof (grows_addArgument _ _ _ _ _ _ _ Hrun) as Hpre.
  split; [done|].
  unfold addArgument in Hrun.
  destruct (lookupArg _ args) as [value|] eqn:Harg.
  2:{ by injection Hrun as <- <-. }
  apply bind_Some in Hrun as ([variableName counter] & h1 & Hgen & Hrun).
  destruct (generateVariableName _ _ _) as [[name next]|] eqn:Hname;
    [|done].
  injection Hgen as -> -> <-.
  apply bind_Some in Hrun as (name1 & h2 & H1 & Hrun).
  apply bind_Some in Hrun as (name2 & h3 & H2 & Hrun).
  apply bind_Some in Hrun as (var1 & h4 & H3 & Hrun).
  apply bind_Some in Hrun as (newArg & h5 & H4 & Hrun).
  apply bind_Some in Hrun as (dname & h6 & H5 & Hrun).
  apply bind_Some in Hrun as (dvar & h7 & H6 & Hrun).
  apply bind_Some in Hrun as (type & h8 & H7 & Hrun).
  apply bind_Some in Hrun as (definition & h9 & H8 & Hrun).
  apply bind_Some in Hrun as (serialized & h10 & H9 & Hrun).
  apply bind_Some in Hrun as (data & h11 & H10 & Hrun).
  injection Hrun as <- <-.
  apply alloc_Some in H1 as (-> & P12 & Hname1).
  apply alloc_Some in H2 as (-> & P23 & Hname2).
  apply alloc_Some in H3 as (-> & P34 & Hvar1).
  apply alloc_Some in H4 as (-> & P45 & HnewArg).
  apply alloc_Some in H5 as (-> & P56 & Hdname).
  apply alloc_Some in H6 as (-> & P67 & Hdvar).
  apply typeToAst_typeNode in H7 as (P78 & Htype & _).
  apply alloc_Some in H8 as (-> & P89 & Hdef).
  destruct (serializeArgumentValue schema (arg_type argument) value)
    as [ser|] eqn:Hser; [|done].
  injection H9 as <- <-.
  apply allocData_holds in H10 as [P910 Hdata].
  exists variableName, counter, (VRef (length h4)), (VRef (length h8)),
         ser, data.
  split_and!; try done.
  - exists (length h4), (length h), (length h3), (length h2).
    split_and!; [done|..]; (eapply prefix_lookup_Some; [eassumption|]);
      repeat (etrans; [eassumption|]); done.
  - exists (length h8), (length h6), (length h5), type.
    split_and!; [done|..].
    1,2,3: (eapply prefix_lookup_Some; [eassumption|]);
           repeat (etrans; [eassumption|]); done.
    eapply typeNode_mono; [|exact Htype]. by etrans.
Qed.

(** ** Assigning to the maps of the transform *)

Lemma elem_of_assign key v (props : list (string * Val)) key' v' :
  (key', v') ∈ assign key v props →
  (key', v') = (key, v) ∨ (key', v') ∈ props.
Proof.
  induction props as [|[k w] props IH]; simpl.
  - intros ->%list_elem_of_singleton. by left.
  - destruct (decide (k = key)) as [->|Hne].
    + intros [->|Hin]%elem_of_cons; [by left|]. right. by right.
    + intros [->|Hin]%elem_of_cons; [right; by left|].
      destruct (IH Hin) as [?|?]; [by left|]. right. by right.
Qed.

Lemma assign_keys key v (props : list (string * Val)) key' :
  key' ∈ (assign key v props).*1 ↔ key' = key ∨ key' ∈ props.*1.
Proof.
  induction props as [|[k w] props IH]; simpl.
  - rewrite list_elem_of_singleton. split; [by left|].
    by intros [?|?%not_elem_of_nil].
  - destruct (decide (k = key)) as [->|Hne]; simpl.
    + rewrite !elem_of_cons. tauto.
    + rewrite !elem_of_cons, IH. tauto.
Qed.

Lemma Forall_assign (P : string * Val → Prop) key v
    (props : list (string * Val)) :
  Forall P props → P (key, v) → Forall P (assign key v props).
Proof.
  intros Hall Hnew. induction Hall as [|[k w] props Hp Hall IH]; simpl.
  - by constructor.
  - destruct (decide (k = key)) as [->|Hne]; constructor; auto.
Qed.

Lemma forEach_invariant_prefix {A S} (P : list A → S → Heap → Prop)
    (f : A → S → M S) (l : list A) (s : S) (h : Heap) s' h' :
  (∀ done x s h s' h', x ∈ l →
     P done s h → f x s h = Some (s', h') → P (done ++ [x]) s' h') →
  P [] s h → forEach f l s h = Some (s', h') → P l s' h'.
Proof.
  intros Hf.
  assert (Hgen : ∀ rest done s h,
    (∀ x, x ∈ rest → x ∈ l) → P done s h →
    forEach f rest s h = Some (s', h') → P (done ++ rest) s' h').
  { induction rest as [|x rest IH]; intros done s0 h0 Hin HP; simpl.
    - intros [= <- <-]. by rewrite app_nil_r.
    - intros (s1 & h1 & H1 & Hrest)%bind_Some.
      rewrite (cons_middle x done rest), app_assoc.
      eapply IH; [|eapply Hf; [|exact HP|exact H1]|exact Hrest].
      + intros y Hy. apply Hin. by right.
      + apply Hin. by left. }
  intros HP Hrun. by apply (Hgen l [] s h).
Qed.

(** ** The variables made for the arguments *)

Section injecting.
Context (schema : GraphQLSchema) (args : list (string * ArgValue)).
Local Abbreviation wellInjected := (wellInjected schema args).

Lemma wellInjected_mono (h h' : Heap) s :
  h `prefix_of` h' → wellInjected h s → wellInjected h' s.
Proof.
  intros Hpre [Hdefs Hvalues]. split.
  - eapply Forall_impl; [exact Hdefs|]. simpl.
    intros p (argument & ? & ? & ? & ?). exists argument.
    split_and!; try done. by eapply definitionNode_mono.
  - intros key v Hin. eapply injected_mono; [done|by apply Hvalues].
Qed.

Lemma addArgument_wellInjected argument s (h : Heap) s' h' :
  rootArgument schema argument →
  wellInjected h s →
  addArgument schema args argument s h = Some (s', h') →
  wellInjected h' s' ∧
  (∀ name, name ∈ (variables s).*1 → name ∈ (variables s').*1) ∧
  (∀ name, name ∈ (newVariables s).*1 → name ∈ (newVariables s').*1) ∧
  newSelectionSet s' = newSelectionSet s ∧
  (∀ oldArgs,
     Forall (λ p, argumentOk h (variables s).*1 oldArgs p.2) (newArgs s) →
     Forall (λ p, argumentOk h' (variables s').*1 oldArgs p.2) (newArgs s')).
Proof.
  intros Hroot Hinj Hrun.
  apply addArgument_effect in Hrun as [Hpre Hrun].
  destruct (lookupArg (arg_name argument) args) as [value|] eqn:Harg.
  2:{ by destruct Hrun as [-> ->]. }
  destruct Hrun as (name & counter & newArg & definition & serialized & data
                    & Hgen & Harg' & Hdef & Hser & Hdata & ->).
  apply generateVariableNameLoop_Some in Hgen as (_ & k & _ & Hform & _).
  destruct (wellInjected_mono _ _ _ Hpre Hinj) as [Hdefs Hvalues].
  simpl. split_and!.
  - split; simpl.
    + apply Forall_assign.
      * eapply Forall_impl; [exact Hdefs|]. simpl.
        intros p (a & ? & ? & ? & ?). exists a. split_and!; try done.
        apply assign_keys. by right.
      * exists argument. simpl. split_and!; try done.
        apply assign_keys. by left.
    + intros key v [[= -> ->]|Hin]%elem_of_assign; [|by apply Hvalues].
      exists k, argument, value, serialized. by split_and!.
  - intros n Hn. apply assign_keys. by right.
  - intros n Hn. apply assign_keys. by right.
  - done.
  - intros oldArgs Hargs. apply Forall_assign.
    + eapply Forall_impl; [exact Hargs|]. simpl.
      intros p [?|(key & n & Hnode & Hn)]; [by left|]. right.
      exists key, n. split; [by eapply argumentNode_mono|].
      apply assign_keys. by right.
    + simpl. right. exists (arg_name argument), name.
      split; [done|]. apply assign_keys. by left.
Qed.

Lemma argumentOk_mono (h h' : Heap) (names names' : list string) oldArgs node :
  h `prefix_of` h' → (∀ name, name ∈ names → name ∈ names') →
  argumentOk h names oldArgs node → argumentOk h' names' oldArgs node.
Proof.
  intros Hpre Hsub [?|(key & name & Hnode & Hname)]; [by left|]. right.
  exists key, name. split; [by eapply argumentNode_mono|by apply Hsub].
Qed.

Lemma rewritten_mono (h h' : Heap) (names names' : list string)
    selection newSelection :
  h `prefix_of` h' → (∀ name, name ∈ names → name ∈ names') →
  rewritten h names selection newSelection →
  rewritten h' names' selection newSelection.
Proof.
  intros Hpre Hsub (kind & Hkind & Hcase). exists kind.
  split; [by apply (reads_getProp _ _ _ _ _ Hkind)|].
  case_decide; [|done].
  destruct Hcase as (l & la & props & arguments & oldArgs & newArgs
                     & -> & Hprops & Hl & Harguments & Hold & Hla & Hall).
  exists l, la, props, arguments, oldArgs, newArgs. split_and!; try done.
  - by apply (reads_ownProperties _ _ _ _ Hprops).
  - by eapply prefix_lookup_Some.
  - by apply (reads_getProp _ _ _ _ _ Harguments).
  - by apply (reads_arrayItems _ _ _ _ Hold).
  - by eapply prefix_lookup_Some.
  - eapply Forall_impl; [exact Hall|]. intros node.
    by apply argumentOk_mono.
Qed.

Lemma addArguments_wellInjected (fieldArgs : list GraphQLArgument) :
  (∀ argument, argument ∈ fieldArgs → rootArgument schema argument) →
  ∀ s (h : Heap) s' h',
    wellInjected h s →
    forEach (addArgument schema args) fieldArgs s h = Some (s', h') →
    h `prefix_of` h' ∧
    wellInjected h' s' ∧
    (∀ name, name ∈ (variables s).*1 → name ∈ (variables s').*1) ∧
    (∀ name, name ∈ (newVariables s).*1 → name ∈ (newVariables s').*1) ∧
    newSelectionSet s' = newSelectionSet s ∧
    (∀ oldArgs,
       Forall (λ p, argumentOk h (variables s).*1 oldArgs p.2) (newArgs s) →
       Forall (λ p, argumentOk h' (variables s').*1 oldArgs p.2) (newArgs s')).
Proof.
  induction fieldArgs as [|argument fieldArgs IH]; intros Hroot s h s' h' Hinj;
    simpl.
  { by intros [= <- <-]. }
  intros (s1 & h1 & H1 & Hrest)%bind_Some.
  pose proof (grows_addArgument _ _ _ _ _ _ _ H1) as Hpre1.
  destruct (addArgument_wellInjected _ _ _ _ _
              (Hroot _ (list_elem_of_here _ _)) Hinj H1)
    as (Hinj1 & Hkeys1 & Hnew1 & Hsel1 & Hargs1).
  destruct (IH (λ a Ha, Hroot a (list_elem_of_further _ _ _ Ha))
              _ _ _ _ Hinj1 Hrest)
    as (Hpre2 & Hinj2 & Hkeys2 & Hnew2 & Hsel2 & Hargs2).
  split_and!; [by etrans|done|by auto|by auto|congruence|by auto].
Qed.

Lemma collectArguments_old (oldArgs : list Val) (h : Heap) newArgs0 h' :
  forEach collectArgument oldArgs [] h = Some (newArgs0, h') →
  Forall (λ p, p.2 ∈ oldArgs) newArgs0.
Proof.
  assert (Hgen : ∀ rest acc (h0 : Heap) result h1,
    (∀ x, x ∈ rest → x ∈ oldArgs) →
    Forall (λ p, p.2 ∈ oldArgs) acc →
    forEach collectArgument rest acc h0 = Some (result, h1) →
    Forall (λ p : string * Val, p.2 ∈ oldArgs) result).
  { induction rest as [|x rest IH]; intros acc h0 result h1 Hin Hacc; simpl.
    - by intros [= <- <-].
    - intros (acc1 & h2 & H1 & Hrest)%bind_Some.
      eapply IH; [|
                  |exact Hrest].
      + intros y Hy. apply Hin. by right.
      + unfold collectArgument in H1.
        apply bind_Some in H1 as (name & h3 & _ & H1).
        apply bind_Some in H1 as (value & h4 & _ & H1).
        injection H1 as <- <-. apply Forall_assign; [done|].
        simpl. apply Hin. by left. }
  intros Hrun. by eapply (Hgen oldArgs []).
Qed.

(** The root types of the schema. *)
Lemma rootType_root (operationKind : Val) (objectType : GraphQLObjectType) :
  rootType schema operationKind = Some objectType →
  getQueryType schema = Some objectType ∨
  getMutationType schema = Some objectType ∨
  getSubscriptionType schema = Some objectType.
Proof. unfold rootType. repeat case_decide; auto. Qed.

Lemma lookupField_Some key (fields : list (string * GraphQLField)) field :
  lookupField key fields = Some field → (key, field) ∈ fields.
Proof.
  induction fields as [|[k f] fields IH]; simpl; [done|].
  case_decide as Hk.
  - intros [= ->]. rewrite Hk. by left.
  - intros ?. right. auto.
Qed.

Lemma addSelection_wellInjected type selection s (h : Heap) s' h' :
  (∀ objectType, type = Some objectType →
     getQueryType schema = Some objectType ∨
     getMutationType schema = Some objectType ∨
     getSubscriptionType schema = Some objectType) →
  wellInjected h s →
  addSelection schema args type selection s h = Some (s', h') →
  h `prefix_of` h' ∧
  wellInjected h' s' ∧
  (∀ name, name ∈ (variables s).*1 → name ∈ (variables s').*1) ∧
  (∀ name, name ∈ (newVariables s).*1 → name ∈ (newVariables s').*1) ∧
  ∃ newSelection,
    newSelectionSet s' = newSelectionSet s ++ [newSelection] ∧
    rewritten h' (variables s').*1 selection newSelection.
Proof.
  intros Htype Hinj Hrun.
  pose proof (grows_addSelection _ _ _ _ _ _ _ _ Hrun) as Hpre.
  split; [done|].
  unfold addSelection in Hrun.
  apply bind_Some in Hrun as (kind & h1 & H1 & Hrun).
  pose proof (reads_getProp _ _ _ _ _ H1) as [-> Hkind].
  case_decide as Hk.
  2:{ injection Hrun as <- <-. simpl. split_and!; [done|done|done|].
      exists selection. split; [done|]. exists kind. split; [done|].
      by rewrite decide_False. }
  apply bind_Some in Hrun as (arguments & h2 & H2 & Hrun).
  pose proof (reads_getProp _ _ _ _ _ H2) as [-> Harguments].
  apply bind_Some in Hrun as (oldArgs & h3 & H3 & Hrun).
  pose proof (reads_arrayItems _ _ _ _ H3) as [-> Hold].
  apply bind_Some in Hrun as (newArgs0 & h4 & H4 & Hrun).
  pose proof H4 as Hcollect.
  apply reads_forEach in H4 as [-> _]; [|apply reads_collectArgument].
  apply collectArguments_old in Hcollect.
  apply bind_Some in Hrun as (nameOfField & h5 & H5 & Hrun).
  apply reads_getProp in H5 as [-> _].
  apply bind_Some in Hrun as (name & h6 & H6 & Hrun).
  apply reads_getProp in H6 as [-> _].
  apply bind_Some in Hrun as (objectType & h7 & H7 & Hrun).
  destruct type as [objectType'|]; [|done].
  injection H7 as <- <-.
  apply bind_Some in Hrun as (field & h8 & H8 & Hrun).
  destruct (lookupField _ _) as [field'|] eqn:Hfield; [|done].
  injection H8 as <- <-.
  apply bind_Some in Hrun as (s1 & h9 & H9 & Hrun).
  apply addArguments_wellInjected in H9
    as (Hpre9 & Hinj9 & Hkeys9 & Hnew9 & Hsel9 & Hargs9); [| |exact Hinj].
  2:{ intros argument Hin. exists objectType', (toPropertyKey name), field'.
      split_and!; [by apply Htype|done|done]. }
  specialize (Hargs9 oldArgs). simpl in *.
  apply bind_Some in Hrun as (props & h10 & H10 & Hrun).
  pose proof (reads_ownProperties _ _ _ _ H10) as [-> Hprops].
  apply bind_Some in Hrun as (newArguments & h11 & H11 & Hrun).
  apply alloc_Some in H11 as (-> & P11 & Hla).
  apply bind_Some in Hrun as (newSelection & h12 & H12 & Hrun).
  apply alloc_Some in H12 as (-> & P12 & Hl).
  injection Hrun as <- <-. simpl.
  assert (Hp : h `prefix_of` h12) by (by repeat (etrans; [eassumption|])).
  assert (Hp9 : h9 `prefix_of` h12) by (by etrans).
  split_and!.
  - apply (wellInjected_mono h9); [done|].
    destruct Hinj9 as [? ?]. by split.
  - done.
  - done.
  - exists (VRef (length h11)). split; [by rewrite Hsel9|].
    exists kind. split; [by apply Hkind|].
    rewrite decide_True by done.
    exists (length h11), (length h9), props, arguments, oldArgs,
           (snd <$> newArgs s1).
    split_and!; try done.
    + by apply Hprops.
    + by apply Harguments.
    + by apply Hold.
    + by eapply prefix_lookup_Some.
    + apply Forall_fmap.
      eapply Forall_impl; [apply Hargs9|].
      * eapply Forall_impl; [exact Hcollect|]. intros p Hp'. by left.
      * intros p Hp'. simpl.
        by apply (argumentOk_mono h9 _ (variables s1).*1 (variables s1).*1).
Qed.

Lemma rewrittenOperation_mono (h h' : Heap) (new new' : list (string * Val))
    operation newOperation :
  h `prefix_of` h' → (∀ name, name ∈ new.*1 → name ∈ new'.*1) →
  rewrittenOperation schema args h new operation newOperation →
  rewrittenOperation schema args h' new' operation newOperation.
Proof.
  intros Hpre Hsub
    (selectionSet & selections & selectionNodes & variableDefinitions
     & definitions & props & l & newDefinitions & newSelectionSetNode
     & newSelections & generated & newSelectionNodes
     & H1 & H2 & H3 & H4 & H5 & H6 & -> & H7 & H8 & H9 & H10 & H11 & H12).
  exists selectionSet, selections, selectionNodes, variableDefinitions,
         definitions, props, l, newDefinitions, newSelectionSetNode,
         newSelections, generated, newSelectionNodes.
  split_and!; try done.
  - by apply (reads_getProp _ _ _ _ _ H1).
  - by apply (reads_getProp _ _ _ _ _ H2).
  - by apply (reads_arrayItems _ _ _ _ H3).
  - by apply (reads_getProp _ _ _ _ _ H4).
  - by apply (reads_arrayItems _ _ _ _ H5).
  - by apply (reads_ownProperties _ _ _ _ H6).
  - by eapply prefix_lookup_Some.
  - by eapply prefix_lookup_Some.
  - by eapply prefix_lookup_Some.
  - by eapply prefix_lookup_Some.
  - eapply Forall_impl; [exact H11|]. simpl.
    intros p (argument & ? & ? & ? & ?). exists argument.
    split_and!; try done; [by eapply definitionNode_mono|by apply Hsub].
  - eapply Forall2_impl; [exact H12|]. intros x y.
    by apply rewritten_mono.
Qed.

Lemma addVariablesToOperation_rewritten operation s (h : Heap)
    newOperation s' h' :
  (∀ key v, (key, v) ∈ newVariables s → injected schema args h key v) →
  addVariablesToOperation schema args operation s h
    = Some (newOperation, s', h') →
  h `prefix_of` h' ∧
  rewrittenOperation schema args h' (newVariables s') operation newOperation ∧
  (∀ key v, (key, v) ∈ newVariables s' → injected schema args h' key v) ∧
  (∀ name, name ∈ (newVariables s).*1 → name ∈ (newVariables s').*1).
Proof.
  intros Hvalues Hrun.
  pose proof (grows_addVariablesToOperation _ _ _ _ _ _ _ Hrun) as Hpre.
  split; [done|].
  unfold addVariablesToOperation in Hrun.
  apply bind_Some in Hrun as (existing & h1 & H1 & Hrun).
  apply reads_declaredVariables in H1 as [-> _].
  apply bind_Some in Hrun as (operationKind & h2 & H2 & Hrun).
  apply reads_getProp in H2 as [-> _].
  apply bind_Some in Hrun as (selectionSet & h3 & H3 & Hrun).
  pose proof (reads_getProp _ _ _ _ _ H3) as [-> HselectionSet].
  apply bind_Some in Hrun as (selections & h4 & H4 & Hrun).
  pose proof (reads_getProp _ _ _ _ _ H4) as [-> Hselections].
  apply bind_Some in Hrun as (selectionNodes & h5 & H5 & Hrun).
  pose proof (reads_arrayItems _ _ _ _ H5) as [-> Hnodes].
  apply bind_Some in Hrun as (s1 & h6 & H6 & Hrun).
  pose proof (grows_forEach _ _ _
    (λ x s0, grows_addSelection schema args
               (rootType schema operationKind) x s0) _ _ _ H6) as Hpre6.
  apply (forEach_invariant_prefix
    (λ done s0 h0,
       wellInjected h0 s0 ∧
       (∀ name, name ∈ (newVariables s).*1 → name ∈ (newVariables s0).*1) ∧
       Forall2 (rewritten h0 (variables s0).*1) done (newSelectionSet s0)))
    in H6 as (Hinj6 & Hnew6 & Hsel6).
  2:{ intros done x s0 h0 s0' h0' _ (Hinj0 & Hnew0 & Hsel0) Hstep.
      apply addSelection_wellInjected in Hstep
        as (Hpre0 & Hinj0' & Hkeys0 & Hnew0' & newSelection & Hset & Hre);
        [|by apply rootType_root|done].
      split_and!; [done|by auto|]. rewrite Hset.
      apply Forall2_app; [|by repeat constructor].
      eapply Forall2_impl; [exact Hsel0|]. intros a b.
      by apply rewritten_mono. }
  2:{ split_and!; simpl; [|done|constructor].
      split; [constructor|done]. }
  apply bind_Some in Hrun as (props & h7 & H7 & Hrun).
  pose proof (reads_ownProperties _ _ _ _ H7) as [-> Hprops].
  apply bind_Some in Hrun as (variableDefinitions & h8 & H8 & Hrun).
  pose proof (reads_getProp _ _ _ _ _ H8) as [-> Hdefinitions].
  apply bind_Some in Hrun as (definitions & h9 & H9 & Hrun).
  pose proof (reads_arrayItems _ _ _ _ H9) as [-> Hitems].
  apply bind_Some in Hrun as (newDefinitions & h10 & H10 & Hrun).
  apply alloc_Some in H10 as (-> & P10 & Hcell10).
  apply bind_Some in Hrun as (newSelections & h11 & H11 & Hrun).
  apply alloc_Some in H11 as (-> & P11 & Hcell11).
  apply bind_Some in Hrun as (newSelectionSetNode & h12 & H12 & Hrun).
  apply alloc_Some in H12 as (-> & P12 & Hcell12).
  apply bind_Some in Hrun as (newOperation' & h13 & H13 & Hrun).
  apply alloc_Some in H13 as (-> & P13 & Hcell13).
  injection Hrun as <- <- <-.
  assert (P6 : h6 `prefix_of` h13) by (by repeat (etrans; [eassumption|])).
  destruct (wellInjected_mono _ _ _ P6 Hinj6) as [Hdefs Hvals].
  split_and!; [|done|done].
  exists selectionSet, selections, selectionNodes, variableDefinitions,
         definitions, props, (length h12), (length h6), (length h11),
         (length h10), (variables s1), (newSelectionSet s1).
  split_and!; try done.
  - by apply HselectionSet.
  - by apply Hselections.
  - by apply Hnodes.
  - by apply Hdefinitions.
  - by apply Hitems.
  - by apply Hprops.
  - eapply prefix_lookup_Some; [exact Hcell10|].
    by repeat (etrans; [eassumption|]).
  - by eapply prefix_lookup_Some.
  - eapply prefix_lookup_Some; [exact Hcell11|].
    by repeat (etrans; [eassumption|]).
  - eapply Forall2_impl; [exact Hsel6|]. intros a b.
    by apply rewritten_mono.
Qed.

Lemma rewrittenDocument_mono (h h' : Heap) (new new' : list (string * Val))
    document newDocument :
  h `prefix_of` h' → (∀ name, name ∈ new.*1 → name ∈ new'.*1) →
  rewrittenDocument schema args h new document newDocument →
  rewrittenDocument schema args h' new' document newDocument.
Proof.
  intros Hpre Hsub
    (definitions & definitionNodes & operations & fragments & props & l
     & newDefinitions & newOperations
     & H1 & H2 & H3 & H4 & H5 & -> & H6 & H7 & H8).
  exists definitions, definitionNodes, operations, fragments, props, l,
         newDefinitions, newOperations.
  split_and!; try done.
  - by apply (reads_getProp _ _ _ _ _ H1).
  - by apply (reads_arrayItems _ _ _ _ H2).
  - apply (reads_filterM _ _ (λ x, reads_hasKind _ x) _ _ _ H3). done.
  - apply (reads_filterM _ _ (λ x, reads_hasKind _ x) _ _ _ H4). done.
  - by apply (reads_ownProperties _ _ _ _ H5).
  - by eapply prefix_lookup_Some.
  - by eapply prefix_lookup_Some.
  - eapply Forall2_impl; [exact H8|]. intros x y.
    by apply rewrittenOperation_mono.
Qed.

Lemma addVariablesToRootField_rewritten document (h : Heap)
    newDocument values h' :
  addVariablesToRootField schema document args h
    = Some (newDocument, values, h') →
  h `prefix_of` h' ∧
  rewrittenDocument schema args h' values document newDocument ∧
  (∀ key v, (key, v) ∈ values → injected schema args h' key v).
Proof.
  intros Hrun.
  pose proof (grows_addVariablesToRootField _ _ _ _ _ _ Hrun) as Hpre.
  split; [done|].
  unfold addVariablesToRootField in Hrun.
  apply bind_Some in Hrun as (definitions & h1 & H1 & Hrun).
  pose proof (reads_getProp _ _ _ _ _ H1) as [-> Hdefinitions].
  apply bind_Some in Hrun as (definitionNodes & h2 & H2 & Hrun).
  pose proof (reads_arrayItems _ _ _ _ H2) as [-> Hnodes].
  apply bind_Some in Hrun as (operations & h3 & H3 & Hrun).
  pose proof (reads_filterM _ _ (λ x, reads_hasKind _ x) _ _ _ H3)
    as [-> Hoperations].
  apply bind_Some in Hrun as (fragments & h4 & H4 & Hrun).
  pose proof (reads_filterM _ _ (λ x, reads_hasKind _ x) _ _ _ H4)
    as [-> Hfragments].
  apply bind_Some in Hrun as ([newOperations s] & h5 & H5 & Hrun).
  pose proof H5 as Hpre5. apply grows_forEach in Hpre5.
  2:{ intros operation [done s0]. repeat grows_step. }
  apply (forEach_invariant_prefix
    (λ processed '(done, s0) h0,
       Forall2 (rewrittenOperation schema args h0 (newVariables s0))
         processed done ∧
       ∀ key v, (key, v) ∈ newVariables s0 → injected schema args h0 key v))
    in H5 as (Hops & Hvalues).
  2:{ intros processed operation [done s0] h0 [done' s0'] h0' _
        (Hops0 & Hvalues0) Hstep.
      apply bind_Some in Hstep as ([newOperation s1] & h6 & Hop & Hstep).
      injection Hstep as <- <- <-.
      apply addVariablesToOperation_rewritten in Hop
        as (Hpre0 & Hre & Hvalues1 & Hkeys); [|done].
      split; [|done].
      apply Forall2_app; [|by repeat constructor].
      eapply Forall2_impl; [exact Hops0|]. intros a b.
      by apply rewrittenOperation_mono. }
  2:{ split; [constructor|]. simpl. by intros key v ?%not_elem_of_nil. }
  apply bind_Some in Hrun as (props & h6 & H6 & Hrun).
  pose proof (reads_ownProperties _ _ _ _ H6) as [-> Hprops].
  apply bind_Some in Hrun as (newDefinitions & h7 & H7 & Hrun).
  apply alloc_Some in H7 as (-> & P7 & Hcell7).
  apply bind_Some in Hrun as (newDocument' & h8 & H8 & Hrun).
  apply alloc_Some in H8 as (-> & P8 & Hcell8).
  injection Hrun as <- <- <-.
  assert (P5 : h5 `prefix_of` h8) by (by etrans).
  split.
  - exists definitions, definitionNodes, operations, fragments, props,
           (length h7), (length h5), newOperations.
    split_and!; try done.
    + by apply Hdefinitions.
    + by apply Hnodes.
    + by apply Hoperations.
    + by apply Hfragments.
    + by apply Hprops.
    + by eapply prefix_lookup_Some.
    + eapply Forall2_impl; [exact Hops|]. intros a b.
      by apply rewrittenOperation_mono.
  - intros key v Hin. eapply injected_mono; [exact P5|by apply Hvalues].
Qed.

End injecting.

(** ** The variables of the new request *)

Lemma lookupProp_elem key (props : list (string * Val)) v :
  lookupProp key props = Some v → (key, v) ∈ props.
Proof.
  induction props as [|[k w] props IH]; simpl; [done|].
  case_decide as Hk.
  - intros [= ->]. rewrite Hk. by left.
  - intros ?. right. auto.
Qed.

Lemma lookupProp_keys key (props : list (string * Val)) :
  key ∈ props.*1 ↔ is_Some (lookupProp key props).
Proof.
  induction props as [|[k w] props IH]; simpl.
  - split; [by intros ?%not_elem_of_nil|by intros [? ?]].
  - rewrite elem_of_cons, IH. case_decide as Hk.
    + split; [by eauto|]. intros _. by left.
    + split; [|by right]. by intros [?|?].
Qed.

Lemma lookupProp_assignAll key new (base : list (string * Val)) :
  (∀ v, lookupProp key (assignAll new base) = Some v →
        (key, v) ∈ new ∨ lookupProp key base = Some v) ∧
  (key ∉ new.*1 → lookupProp key (assignAll new base) = lookupProp key base) ∧
  (key ∈ new.*1 ∨ key ∈ base.*1 → key ∈ (assignAll new base).*1).
Proof.
  unfold assignAll. revert base.
  induction new as [|[k w] new IH]; intros base; simpl.
  { split_and!; [by auto|done|]. by intros [?%not_elem_of_nil|?]. }
  destruct (IH (assign k w base)) as (IH1 & IH2 & IH3).
  split_and!.
  - intros v Hv. destruct (IH1 v Hv) as [Hin|Hbase].
    + left. by right.
    + destruct (decide (k = key)) as [->|Hne].
      * rewrite lookupProp_assign_eq in Hbase. injection Hbase as ->.
        left. by left.
      * rewrite lookupProp_assign_ne in Hbase by done. by right.
  - intros Hnot. apply not_elem_of_cons in Hnot as [Hne Hnot].
    rewrite IH2 by done. by apply lookupProp_assign_ne.
  - intros Hin. apply IH3. rewrite assign_keys.
    destruct Hin as [[->|?]%elem_of_cons|?]; auto.
Qed.

Lemma assignAll_NoDup (props base : list (string * Val)) :
  NoDup (base.*1 ++ props.*1) → assignAll props base = base ++ props.
Proof.
  unfold assignAll. revert base.
  induction props as [|[k w] props IH]; intros base Hnd; simpl.
  { by rewrite app_nil_r. }
  simpl in Hnd.
  rewrite assign_fresh.
  2:{ apply NoDup_app in Hnd as (_ & Hnd & _). intros Hin.
      apply (Hnd _ Hin). by left. }
  rewrite IH.
  - by rewrite <-app_assoc.
  - by rewrite fmap_app, <-app_assoc.
Qed.


(** ** The name generateVariableName takes *)

Lemma generateVariableNameLoop_first fuel existing counter argName name next :
  generateVariableNameLoop fuel existing counter argName = Some (name, next) →
  ∃ k, counter ≤ k ∧ k < counter + fuel ∧
       name = variableNameFor k argName ∧ next = S k ∧
       (VString name ∉ existing) ∧
       ∀ j, counter ≤ j → j < k →
            VString (variableNameFor j argName) ∈ existing.
Proof.
  revert counter. induction fuel as [|fuel IH]; intros counter; [done|].
  simpl. case_decide as Hin.
  - intros Hrun. destruct (IH _ Hrun) as (k & Hk & Hlt & -> & -> & Hfresh & Hmin).
    exists k. split_and!; try done; [lia|lia|].
    intros j Hj1 Hj2. destruct (decide (j = counter)) as [->|Hne]; [done|].
    apply Hmin; lia.
  - intros [= <- <-]. exists counter. split_and!; try done; [lia|].
    intros j Hj1 Hj2. lia.
Qed.

(** X8. [generateVariableName] returns the first free name: counting
    from the current counter, it skips exactly the names that are existing
    variables, takes the first that is not, and leaves the counter just
    past it. It skips at most as many names as there are existing
    variables; when the first name is free, that is the one it takes. *)
Theorem generateVariableName_first_free (existing : list Val)
    (counter : nat) (argName : string) :
  ∃ k,
    generateVariableName existing counter argName
      = Some (variableNameFor k argName, S k) ∧
    counter ≤ k ≤ counter + length existing ∧
    (VString (variableNameFor k argName) ∉ existing) ∧
    (∀ j, counter ≤ j → j < k →
          VString (variableNameFor j argName) ∈ existing) ∧
    (VString (variableNameFor counter argName) ∉ existing → k = counter).
Proof.
  destruct (generateVariableName_total existing counter argName)
    as [[name next] Hname].
  pose proof Hname as Hrun. unfold generateVariableName in Hrun.
  apply generateVariableNameLoop_first in Hrun
    as (k & Hk & Hlt & -> & -> & Hfresh & Hmin).
  exists k. split_and!; try done; [lia|].
  intros Hfree. destruct (decide (k = counter)) as [|Hne]; [done|].
  exfalso. apply Hfree, Hmin; lia.
Qed.

(** ** The transform, level by level *)








End AddArgumentsFacts.

(** * Facts about concatenateTypeDefs *)

Module TypeDefsFacts.
Import TypeDefs.

(** ** uniq *)

Lemma filter_all {A} (P : A → Prop) `{!∀ x, Decision (P x)} (l : list A) :
  Forall P l → filter P l = l.
Proof.
  induction 1 as [|x l Hx _ IH]; [done|].
  by rewrite filter_cons_True, IH.
Qed.

Lemma filter_none {A} (P : A → Prop) `{!∀ x, Decision (P x)} (l : list A) :
  Forall (λ x, ¬ P x) l → filter P l = [].
Proof.
  induction 1 as [|x l Hx _ IH]; [done|].
  by rewrite filter_cons_False, IH.
Qed.

Lemma uniq_foldl (acc array : list string) :
  foldl (λ accumulator currentValue,
           if decide (currentValue ∈ accumulator) then accumulator
           else accumulator ++ [currentValue]) acc array
  = acc ++ filter (λ y, y ∉ acc) (uniq array).
Proof.
  unfold uniq. revert acc.
  induction array as [|x array IH]; intros acc; simpl.
  { by rewrite filter_nil, app_nil_r. }
  rewrite (IH [x]). destruct (decide (x ∈ acc)) as [Hin|Hnin].
  - rewrite IH. f_equal. simpl.
    rewrite filter_cons_False by (intros Hx; by apply Hx).
    rewrite list_filter_filter. apply list_filter_iff.
    intros y. split; [|tauto]. intros Hy. split; [done|].
    intros ->%list_elem_of_singleton. done.
  - rewrite IH, <-app_assoc. f_equal. simpl.
    rewrite filter_cons_True by done. f_equal.
    rewrite list_filter_filter. apply list_filter_iff.
    intros y. rewrite not_elem_of_app. tauto.
Qed.

Lemma uniq_cons (x : string) (array : list string) :
  uniq (x :: array) = x :: filter (λ y, y ≠ x) (uniq array).
Proof.
  unfold uniq at 1. simpl. rewrite uniq_foldl. simpl. f_equal.
  apply list_filter_iff. intros y. by rewrite list_elem_of_singleton.
Qed.

Lemma elem_of_uniq (array : list string) (x : string) :
  x ∈ uniq array ↔ x ∈ array.
Proof.
  induction array as [|y array IH]; [done|].
  rewrite uniq_cons, !elem_of_cons, list_elem_of_filter, IH.
  destruct (decide (x = y)); tauto.
Qed.

Lemma uniq_app_subset (l1 l2 : list string) :
  (∀ x, x ∈ l2 → x ∈ l1) → uniq (l1 ++ l2) = uniq l1.
Proof.
  intros Hsub. unfold uniq at 1. rewrite foldl_app.
  fold (uniq l1). rewrite uniq_foldl.
  rewrite filter_none; [by rewrite app_nil_r|].
  apply Forall_forall. intros x Hx Hnot. rewrite elem_of_uniq in Hx, Hnot.
  by apply Hnot, Hsub.
Qed.

(** X13. [uniq] keeps the first occurrence of every string and drops the
    later ones: the result has no duplicates, has exactly the members of
    the input, in the order of their first occurrence, and an input without
    duplicates is returned as it is. *)
Theorem uniq_spec :
  uniq [] = [] ∧
  (∀ x array, uniq (x :: array) = x :: filter (λ y, y ≠ x) (uniq array)) ∧
  (∀ array, NoDup (uniq array)) ∧
  (∀ array x, x ∈ uniq array ↔ x ∈ array) ∧
  (∀ array, sublist (uniq array) array) ∧
  (∀ array, NoDup array → uniq array = array) ∧
  (∀ array, uniq (uniq array) = uniq array).
Proof.
  assert (Hnodup : ∀ array, NoDup (uniq array)).
  { induction array as [|x array IH]; [constructor|].
    rewrite uniq_cons. constructor.
    - rewrite list_elem_of_filter. tauto.
    - by apply NoDup_filter. }
  assert (Hid : ∀ array, NoDup array → uniq array = array).
  { induction array as [|x array IH]; [done|].
    intros [Hx Hnd]%NoDup_cons. rewrite uniq_cons, IH by done. f_equal.
    apply filter_all, Forall_forall. by intros y Hy ->. }
  split_and!; try done.
  - apply uniq_cons.
  - apply elem_of_uniq.
  - induction array as [|x array IH]; [done|].
    rewrite uniq_cons. apply sublist_skip.
    etrans; [apply sublist_filter|done].
  - intros array. by apply Hid.
Qed.

(** ** The loop and the shared array of called functions *)

Section concatenate.
Variable trim : string → string.
Variable print : DocumentNode → string.
Variable call : nat → list ITypedef.

Local Abbreviation forEachTypeDef := (forEachTypeDef trim print call).
Local Abbreviation concatenateTypeDefs := (concatenateTypeDefs trim print call).

Local Abbreviation texts := (texts trim print).
Local Abbreviation growing := (growing call).

Lemma forEachTypeDef_app recurse (ary1 ary2 : list ITypedef) resolved called :
  forEachTypeDef recurse (ary1 ++ ary2) resolved called
  = '(resolved1, called1) ← forEachTypeDef recurse ary1 resolved called;
    forEachTypeDef recurse ary2 resolved1 called1.
Proof.
  revert resolved called.
  induction ary1 as [|typeDef ary1 IH]; intros resolved called; [done|].
  simpl. destruct typeDef as [f|s|node|t]; try done.
  destruct (decide (f ∈ called)); [done|].
  destruct (recurse (call f) (called ++ [f])) as [[text called1]| |]; try done.
  simpl. apply IH.
Qed.

Lemma forEachTypeDef_grows recurse (ary : list ITypedef) :
  growing recurse →
  ∀ resolved called resolved' called',
    forEachTypeDef recurse ary resolved called
      = Returned (resolved', called') →
    called `prefix_of` called' ∧ (NoDup called → NoDup called') ∧
    wellKinded ary ∧
    (∀ f, f ∈ called' → f ∈ called ∨ wellKinded (call f)) ∧
    (∀ f, TypedefFunction f ∈ ary → f ∈ called') ∧
    (∀ x, x ∈ resolved ∨ x ∈ texts ary → x ∈ resolved').
Proof.
  intros Hgrow.
  induction ary as [|typeDef ary IH]; intros resolved called resolved' called'.
  { simpl. intros [= <- <-]. split_and!; try done.
    - constructor.
    - by left.
    - intros f Hf. by apply not_elem_of_nil in Hf.
    - intros x [?|Hx]; [done|]. by apply not_elem_of_nil in Hx. }
  simpl. destruct typeDef as [f|s|node|t]; try done.
  - destruct (decide (f ∈ called)) as [Hin|Hnin].
    + intros Hrun.
      destruct (IH _ _ _ _ Hrun) as (Hp & Hnd & Hk & Hc & Hf & Hx).
      split_and!; try done.
      * by constructor.
      * intros f' [[= ->]|Hf']%elem_of_cons; [|by auto].
        destruct Hp as [k ->]. apply elem_of_app. by left.
    + destruct (recurse (call f) (called ++ [f])) as [[text called1]| |] eqn:Hr;
        try done.
      simpl. intros Hrun.
      destruct (Hgrow _ _ _ _ Hr) as (Hp1 & Hnd1 & Hk1 & Hc1).
      destruct (IH _ _ _ _ Hrun) as (Hp & Hnd & Hk & Hc & Hf & Hx).
      split_and!.
      * etrans; [|exact Hp]. etrans; [|exact Hp1]. by apply prefix_app_r.
      * intros Hcalled. apply Hnd, Hnd1. apply NoDup_app. split_and!; try done.
        -- intros x Hxc Hxf. apply list_elem_of_singleton in Hxf as ->. done.
        -- apply NoDup_singleton.
      * by constructor.
      * intros g Hg. destruct (Hc g Hg) as [Hg1|?]; [|by right].
        destruct (Hc1 g Hg1) as [Hg2|?]; [|by right].
        apply elem_of_app in Hg2 as [?|Hg2]; [by left|].
        apply list_elem_of_singleton in Hg2 as ->. by right.
      * intros f' [[= ->]|Hf']%elem_of_cons; [|by auto].
        destruct Hp as [k ->]. destruct Hp1 as [k1 ->].
        rewrite !elem_of_app, list_elem_of_singleton. tauto.
      * intros x [Hxr|Hxt]; apply Hx; [left|by right].
        apply elem_of_app. by left.
  - intros Hrun.
    destruct (IH _ _ _ _ Hrun) as (Hp & Hnd & Hk & Hc & Hf & Hx).
    split_and!; try done.
    + by constructor.
    + intros f' [[=]|Hf']%elem_of_cons. by auto.
    + intros x [Hxr|Hxt]; apply Hx.
      * left. apply elem_of_app. by left.
      * simpl in Hxt. apply elem_of_cons in Hxt as [->|Hxt]; [|by right].
        left. apply elem_of_app. right. by apply list_elem_of_singleton.
  - intros Hrun.
    destruct (IH _ _ _ _ Hrun) as (Hp & Hnd & Hk & Hc & Hf & Hx).
    split_and!; try done.
    + by constructor.
    + intros f' [[=]|Hf']%elem_of_cons. by auto.
    + intros x [Hxr|Hxt]; apply Hx.
      * left. apply elem_of_app. by left.
      * simpl in Hxt. apply elem_of_cons in Hxt as [->|Hxt]; [|by right].
        left. apply elem_of_app. right. by apply list_elem_of_singleton.
Qed.

Lemma concatenateTypeDefs_growing (fuel : nat) :
  growing (concatenateTypeDefs fuel).
Proof.
  induction fuel as [|fuel IH]; intros ary called text called'; [done|].
  simpl.
  destruct (forEachTypeDef (concatenateTypeDefs fuel) ary [] called)
    as [[resolved called1]| |] eqn:Hloop; try done.
  simpl. intros [= <- <-].
  by destruct (forEachTypeDef_grows _ _ IH _ _ _ _ Hloop)
    as (? & ? & ? & ? & _).
Qed.

(** A second pass over an array whose functions have all been called. *)
Lemma forEachTypeDef_again recurse (ary : list ITypedef) resolved called :
  wellKinded ary →
  (∀ f, TypedefFunction f ∈ ary → f ∈ called) →
  forEachTypeDef recurse ary resolved called
  = Returned (resolved ++ texts ary, called).
Proof.
  revert resolved.
  induction ary as [|typeDef ary IH]; intros resolved Hk Hf.
  { simpl. by rewrite app_nil_r. }
  apply Forall_cons in Hk as [Hk1 Hk2].
  assert (Hf' : ∀ f, TypedefFunction f ∈ ary → f ∈ called).
  { intros f ?. apply Hf. by right. }
  simpl. destruct typeDef as [f|s|node|t]; try done.
  - rewrite decide_True by (apply Hf; by left). by apply IH.
  - rewrite IH by done. simpl. by rewrite <-app_assoc.
  - rewrite IH by done. simpl. by rewrite <-app_assoc.
Qed.

(** ** The bound on the depth of calls *)

Lemma filter_length_le {A} (P Q : A → Prop) `{!∀ x, Decision (P x)}
    `{!∀ x, Decision (Q x)} (l : list A) :
  (∀ x, x ∈ l → P x → Q x) → length (filter P l) ≤ length (filter Q l).
Proof.
  induction l as [|x l IH]; intros HPQ; [done|].
  assert (length (filter P l) ≤ length (filter Q l)) as Hle.
  { apply IH. intros y Hy. apply HPQ. by right. }
  rewrite !filter_cons.
  destruct (decide (P x)) as [HP|HP].
  - rewrite decide_True by (apply HPQ; [by left|done]). simpl. lia.
  - destruct (decide (Q x)); simpl; lia.
Qed.

Lemma filter_length_lt {A} (P Q : A → Prop) `{!∀ x, Decision (P x)}
    `{!∀ x, Decision (Q x)} (l : list A) (y : A) :
  (∀ x, x ∈ l → P x → Q x) → y ∈ l → Q y → ¬ P y →
  length (filter P l) < length (filter Q l).
Proof.
  induction l as [|x l IH]; intros HPQ Hy HQ HP.
  { by apply not_elem_of_nil in Hy. }
  assert (length (filter P l) ≤ length (filter Q l)) as Hle.
  { apply filter_length_le. intros z Hz. apply HPQ. by right. }
  rewrite !filter_cons.
  apply elem_of_cons in Hy as [<-|Hy].
  - rewrite decide_False, decide_True by done. simpl. lia.
  - assert (length (filter P l) < length (filter Q l)) as Hlt.
    { apply IH; try done. intros z Hz. apply HPQ. by right. }
    destruct (decide (P x)) as [HPx|HPx].
    + rewrite decide_True by (apply HPQ; [by left|done]). simpl. lia.
    + destruct (decide (Q x)); simpl; lia.
Qed.

Lemma uncalled_mono (n : nat) (called called' : list nat) :
  called `prefix_of` called' →
  length (uncalled n called') ≤ length (uncalled n called).
Proof.
  intros [k ->]. apply filter_length_le.
  intros f _. rewrite not_elem_of_app. tauto.
Qed.

Lemma uncalled_snoc (n : nat) (called : list nat) (f : nat) :
  f < n → f ∉ called →
  length (uncalled n (called ++ [f])) < length (uncalled n called).
Proof.
  intros Hf Hnin. apply (filter_length_lt _ _ _ f).
  - intros g _. rewrite not_elem_of_app. tauto.
  - apply elem_of_seq. lia.
  - done.
  - rewrite not_elem_of_app, list_elem_of_singleton. tauto.
Qed.

Lemma forEachTypeDef_fuel (n fuel : nat) (ary : list ITypedef) :
  (∀ f, functionsBelow n (call f)) →
  (∀ ary called, functionsBelow n ary → length (uncalled n called) < fuel →
     concatenateTypeDefs fuel ary called ≠ OutOfFuel) →
  functionsBelow n ary →
  ∀ resolved called,
    length (uncalled n called) ≤ fuel →
    forEachTypeDef (concatenateTypeDefs fuel) ary resolved called ≠ OutOfFuel.
Proof.
  intros Hcall IHfuel.
  induction 1 as [|typeDef ary Hbelow _ IH]; intros resolved called Hlen;
    [done|].
  simpl. destruct typeDef as [f|s|node|t]; try done; try by apply IH.
  destruct (decide (f ∈ called)) as [Hin|Hnin]; [by apply IH|].
  pose proof (uncalled_snoc n called f Hbelow Hnin) as Hlt.
  destruct (concatenateTypeDefs fuel (call f) (called ++ [f]))
    as [[text called1]| |] eqn:Hr; simpl.
  - apply IH.
    destruct (concatenateTypeDefs_growing _ _ _ _ _ Hr) as (Hp & _).
    pose proof (uncalled_mono n _ _ Hp). lia.
  - done.
  - exfalso. revert Hr. apply IHfuel; [apply Hcall|lia].
Qed.

Lemma concatenateTypeDefs_fuel (n : nat) :
  (∀ f, functionsBelow n (call f)) →
  ∀ fuel ary called,
    functionsBelow n ary → length (uncalled n called) < fuel →
    concatenateTypeDefs fuel ary called ≠ OutOfFuel.
Proof.
  intros Hcall.
  induction fuel as [|fuel IH]; intros ary called Hbelow Hlen; [lia|].
  simpl.
  pose proof (forEachTypeDef_fuel n fuel ary Hcall IH Hbelow [] called) as Hloop.
  destruct (forEachTypeDef (concatenateTypeDefs fuel) ary [] called)
    as [[resolved called1]| |]; try done.
  intros _. apply Hloop; [lia|done].
Qed.

Lemma forEachTypeDef_more recurse recurse' (ary : list ITypedef) :
  (∀ ary called, recurse ary called ≠ OutOfFuel →
     recurse' ary called = recurse ary called) →
  ∀ resolved called,
    forEachTypeDef recurse ary resolved called ≠ OutOfFuel →
    forEachTypeDef recurse' ary resolved called
    = forEachTypeDef recurse ary resolved called.
Proof.
  intros Hmore.
  induction ary as [|typeDef ary IH]; intros resolved called; [done|].
  simpl. destruct typeDef as [f|s|node|t]; try done; try by apply IH.
  destruct (decide (f ∈ called)); [by apply IH|].
  destruct (recurse (call f) (called ++ [f])) as [[text called1]| |] eqn:Hr;
    simpl; intros Hrun; try done.
  - rewrite Hmore, Hr by (by rewrite Hr). simpl. by apply IH.
  - by rewrite Hmore, Hr by (by rewrite Hr).
Qed.

Lemma concatenateTypeDefs_more (fuel fuel' : nat) :
  fuel ≤ fuel' →
  ∀ ary called,
    concatenateTypeDefs fuel ary called ≠ OutOfFuel →
    concatenateTypeDefs fuel' ary called = concatenateTypeDefs fuel ary called.
Proof.
  revert fuel'.
  induction fuel as [|fuel IH]; intros fuel' Hle ary called; [done|].
  destruct fuel' as [|fuel']; [lia|]. simpl. intros Hrun.
  rewrite (forEachTypeDef_more (concatenateTypeDefs fuel)); [done| |].
  - apply IH. lia.
  - intros Hloop. by rewrite Hloop in Hrun.
Qed.

End concatenate.

(** X14. When the type definitions involve finitely many functions ([n]
    of them), however they refer to one another, also in cycles,
    [concatenateTypeDefs] ends: calls nest at most [n] deep below the
    first, a greater bound changes nothing, and no function is called
    twice. *)
Theorem concatenateTypeDefs_terminates (trim : string → string)
    (print : DocumentNode → string) (call : nat → list ITypedef)
    (n : nat) (ary : list ITypedef) :
  (∀ f, functionsBelow n (call f)) →
  functionsBelow n ary →
  concatenateTypeDefs trim print call (S n) ary [] ≠ OutOfFuel ∧
  (∀ fuel, S n ≤ fuel →
     concatenateTypeDefs trim print call fuel ary []
     = concatenateTypeDefs trim print call (S n) ary []) ∧
  (∀ text called,
     concatenateTypeDefs trim print call (S n) ary [] = Returned (text, called) →
     NoDup called).
Proof.
  intros Hcall Hary.
  assert (Hend : concatenateTypeDefs trim print call (S n) ary [] ≠ OutOfFuel).
  { apply (concatenateTypeDefs_fuel trim print call n Hcall); [done|].
    unfold uncalled. rewrite filter_all, length_seq; [lia|].
    apply Forall_forall. intros f _. apply not_elem_of_nil. }
  split_and!; [done| |].
  - intros fuel Hfuel. by apply concatenateTypeDefs_more.
  - intros text called Hrun.
    destruct (concatenateTypeDefs_growing _ _ _ _ _ _ _ _ Hrun) as (_ & Hnd & _).
    apply Hnd. constructor.
Qed.

Lemma concatenateTypeDefs_terminates_witness :
  (∀ f, functionsBelow 2 (sampleCall f)) ∧
  functionsBelow 2 [TypedefFunction 0] ∧
  concatenateTypeDefs (λ s, s) (λ node, node) sampleCall 3
    [TypedefFunction 0] [] ≠ OutOfFuel ∧
  (∀ fuel, 3 ≤ fuel →
     concatenateTypeDefs (λ s, s) (λ node, node) sampleCall fuel
       [TypedefFunction 0] []
     = concatenateTypeDefs (λ s, s) (λ node, node) sampleCall 3
         [TypedefFunction 0] []) ∧
  (∀ text called,
     concatenateTypeDefs (λ s, s) (λ node, node) sampleCall 3
       [TypedefFunction 0] [] = Returned (text, called) →
     NoDup called).
Proof.
  assert (H1 : ∀ f, functionsBelow 2 (sampleCall f)).
  { intros [|f]; repeat constructor. }
  assert (H2 : functionsBelow 2 [TypedefFunction 0]).
  { repeat constructor. }
  split; [exact H1|]. split; [exact H2|].
  exact (concatenateTypeDefs_terminates (λ s, s) (λ node, node) sampleCall 2
           [TypedefFunction 0] H1 H2).
Defined.

(** X15. Giving every type definition twice changes nothing: the text,
    the functions called and a thrown error are those of the array given
    once. *)
Theorem concatenateTypeDefs_duplicates (trim : string → string)
    (print : DocumentNode → string) (call : nat → list ITypedef)
    (fuel : nat) (ary : list ITypedef) (called : list nat) :
  concatenateTypeDefs trim print call fuel (ary ++ ary) called
  = concatenateTypeDefs trim print call fuel ary called.
Proof.
  destruct fuel as [|fuel]; [done|]. simpl.
  rewrite forEachTypeDef_app.
  destruct (forEachTypeDef trim print call _ ary [] called)
    as [[resolved called1]| |] eqn:Hloop; try done.
  destruct (forEachTypeDef_grows trim print call _ _
              (concatenateTypeDefs_growing trim print call fuel)
              _ _ _ _ Hloop) as (_ & _ & Hk & _ & Hf & Hx).
  simpl. rewrite forEachTypeDef_again by done. simpl.
  rewrite fmap_app, uniq_app_subset; [done|].
  intros x (y & -> & Hy)%list_elem_of_fmap.
  apply list_elem_of_fmap. exists y. split; [done|]. apply Hx. by right.
Qed.

(** X16. No element of a wrong kind is passed over: when
    [concatenateTypeDefs] returns, its array held strings, nodes and
    functions only, and so did the array of every function it called; the
    functions it called were appended to [calledFunctionRefs]. *)
Theorem concatenateTypeDefs_valid (trim : string → string)
    (print : DocumentNode → string) (call : nat → list ITypedef)
    (fuel : nat) (ary : list ITypedef) (called : list nat)
    (text : string) (called' : list nat) :
  concatenateTypeDefs trim print call fuel ary called
    = Returned (text, called') →
  wellKinded ary ∧
  called `prefix_of` called' ∧
  (∀ f, f ∈ called' → f ∉ called → wellKinded (call f)).
Proof.
  intros Hrun.
  destruct (concatenateTypeDefs_growing _ _ _ _ _ _ _ _ Hrun)
    as (Hp & _ & Hk & Hc).
  split_and!; try done.
  intros f Hf Hnot. by destruct (Hc f Hf).
Qed.

Lemma concatenateTypeDefs_valid_witness :
  concatenateTypeDefs (λ s, s) (λ node, node) sampleCall 3
    [TypedefFunction 0] []
  = Returned ("type A" +:+ Errors.newline +:+ "type B", [0; 1]) ∧
  wellKinded [TypedefFunction 0] ∧
  [] `prefix_of` [0; 1] ∧
  (∀ f, f ∈ [0; 1] → f ∉ [] → wellKinded (sampleCall f)).
Proof.
  split; [reflexivity|].
  exact (concatenateTypeDefs_valid (λ s, s) (λ node, node) sampleCall 3
           [TypedefFunction 0] [] _ [0; 1] eq_refl).
Defined.

(** The two functions that name each other, and the string once more:
    the text of the functions is one block, which is not compared line by
    line with the string that follows. *)
Example concatenateTypeDefs_cycle :
  concatenateTypeDefs (λ s, s) (λ node, node) sampleCall 3
    [TypedefFunction 0; TypedefString "type A"] []
  = Returned ("type A" +:+ Errors.newline +:+ "type B" +:+ Errors.newline
              +:+ "type A", [0; 1]).
Proof. reflexivity. Qed.

End TypeDefsFacts.

(** * Facts about the form data of createServerHttpLink *)

Module ServerHttpLinkFacts.
Import ServerHttpLink.

Section FormData.
Variable Base : Type.
Variable Length : Type.
Variable super_append :
  string → FormValue → AppendOptions → Base → Completion * Base.
Variable super_getLengthSync : Base → Length.

Local Abbreviation append := (append Base super_append).
Local Abbreviation appendAll := (appendAll Base super_append).

Lemma append_flag key value optionsOrFilename (this : FormData Base) :
  hasUnknowableLength Base (append key value optionsOrFilename this).2
  = hasUnknowableLength Base this
    || setsFlag (key, value, optionsOrFilename).
Proof.
  unfold ServerHttpLink.append, setsFlag.
  destruct (unknowable (optionsOf optionsOrFilename) value) as [[|]|]; simpl.
  - destruct (super_append _ _ _ _). simpl. by rewrite orb_true_r.
  - destruct (super_append _ _ _ _). simpl. by rewrite orb_false_r.
  - by rewrite orb_false_r.
Qed.

Lemma appendAll_flag calls (this : FormData Base) :
  hasUnknowableLength Base (appendAll calls this)
  = hasUnknowableLength Base this || existsb setsFlag calls.
Proof.
  revert this. induction calls as [|[[key value] o] calls IH]; intros this.
  { simpl. by rewrite orb_false_r. }
  unfold ServerHttpLink.appendAll in *. simpl.
  rewrite IH, append_flag. by rewrite orb_assoc.
Qed.

End FormData.

(** X17. After any sequence of [append] calls on a new form, however
    each ended, [getLengthSync] returns [null] exactly when one of the calls
    appended a value of unknowable length; [getLength] then returns [null]
    without handing the callback on. Appending more never brings the length
    back. A call with a non-zero [knownLength] never counts; with
    [knownLength] left out or zero, a value that is neither a buffer nor a
    string counts when it has no [path] and is not a readable response. *)
Theorem getLengthSync_unknowable (Base Length : Type)
    (super_append :
       string → FormValue → AppendOptions → Base → Completion * Base)
    (super_getLengthSync : Base → Length) (base : Base)
    (calls more : list (string * FormValue * OptionsOrFilename)) :
  let this := appendAll Base super_append calls (create Base base) in
  (getLengthSync Base Length super_getLengthSync this = None
   ↔ ∃ call, call ∈ calls ∧ setsFlag call) ∧
  (getLength Base this = false
   ↔ getLengthSync Base Length super_getLengthSync this = None) ∧
  (getLengthSync Base Length super_getLengthSync this = None →
   getLengthSync Base Length super_getLengthSync
     (appendAll Base super_append more this) = None) ∧
  (∀ key value options n,
     knownLength options = Some (S n) →
     ¬ setsFlag (key, value, Options options)) ∧
  (∀ key path readable ownHttpVersion options,
     knownLength options = None ∨ knownLength options = Some 0 →
     (setsFlag (key, OtherValue path readable ownHttpVersion, Options options)
      ↔ path = false ∧ (readable = false ∨ ownHttpVersion = false))).
Proof.
  intros this.
  assert (Hflag : ∀ calls0 (that : FormData Base),
    getLengthSync Base Length super_getLengthSync
      (appendAll Base super_append calls0 that) = None
    ↔ hasUnknowableLength Base that = true ∨
      ∃ call, call ∈ calls0 ∧ setsFlag call).
  { intros calls0 that. unfold getLengthSync.
    rewrite appendAll_flag.
    destruct (hasUnknowableLength Base that); simpl.
    - split; [by left|done].
    - destruct (existsb setsFlag calls0) eqn:Hex.
      + split; [|done]. intros _. right.
        apply existsb_exists in Hex as (call & Hin & Hcall).
        exists call. split; [by apply list_elem_of_In|by rewrite Hcall].
      + split; [done|]. intros [?|(call & Hin & Hcall)]; [done|].
        assert (existsb setsFlag calls0 = true); [|congruence].
        apply existsb_exists. exists call.
        split; [by apply list_elem_of_In|by apply Is_true_true]. }
  split_and!.
  - unfold this. rewrite Hflag. simpl. split; [|by right].
    by intros [?|?].
  - unfold getLength, getLengthSync.
    by destruct (hasUnknowableLength Base this).
  - intros Hnull. apply Hflag. left. unfold getLengthSync in Hnull.
    by destruct (hasUnknowableLength Base this).
  - intros key value options n Hn. unfold setsFlag, unknowable, lengthUnknown.
    simpl. rewrite Hn. by rewrite bool_decide_spec.
  - intros key path readable own options Hn.
    unfold setsFlag, unknowable, lengthUnknown. simpl.
    rewrite bool_decide_spec.
    destruct Hn as [->| ->]; destruct path, readable, own; simpl;
      (split; [intros [=]|intros [? [?|?]]]); auto; done.
Qed.

(** A stream without a path makes the length unknowable, and a later
    string does not bring it back; a stream with a known length does not. *)
Example getLengthSync_after_stream :
  let super_append := λ (key : string) (value : FormValue)
                        (options : AppendOptions) (base : list string),
                        (Normal, base ++ [key]) in
  getLengthSync (list string) nat length
    (appendAll (list string) super_append
       [("file", OtherValue false true false, Filename "a.txt");
        ("note", StringValue "hello", Omitted)]
       (create (list string) []))
  = None ∧
  getLengthSync (list string) nat length
    (appendAll (list string) super_append
       [("file", OtherValue false true false,
         Options (mkAppendOptions (Some "a.txt") None (Some 12)));
        ("note", StringValue "hello", Omitted)]
       (create (list string) []))
  = Some 2.
Proof. split; reflexivity. Qed.

End ServerHttpLinkFacts.

(** * Facts about merging mocked and resolved values *)

Module MockFacts.
Import Mock.

Section properties.
Variable Descriptor : Type.
Variable emptyDescriptor : Descriptor.

Local Abbreviation JSObject := (JSObject Descriptor).
Local Abbreviation getOwnPropertyDescriptor :=
  (getOwnPropertyDescriptor Descriptor).
Local Abbreviation copyOwnPropsIfNotPresent :=
  (copyOwnPropsIfNotPresent Descriptor emptyDescriptor).
Local Abbreviation copyChain := (copyChain Descriptor emptyDescriptor).
Local Abbreviation copyOwnProps := (copyOwnProps Descriptor emptyDescriptor).
Local Abbreviation findProperty := (findProperty Descriptor).
Local Abbreviation findFirst := (findFirst Descriptor).

Lemma getOwnPropertyDescriptor_app (props1 props2 : list (string * Descriptor))
    (prop : string) :
  getOwnPropertyDescriptor (props1 ++ props2) prop
  = match getOwnPropertyDescriptor props1 prop with
    | Some descriptor => Some descriptor
    | None => getOwnPropertyDescriptor props2 prop
    end.
Proof.
  induction props1 as [|[key descriptor] props1 IH]; [done|].
  simpl. by destruct (decide (key = prop)).
Qed.

Lemma getOwnPropertyDescriptor_keys (props : list (string * Descriptor))
    (prop : string) :
  prop ∈ props.*1 ↔ is_Some (getOwnPropertyDescriptor props prop).
Proof.
  induction props as [|[key descriptor] props IH]; simpl.
  - split; [by intros ?%not_elem_of_nil|by intros [? ?]].
  - rewrite elem_of_cons, IH. destruct (decide (key = prop)) as [->|Hne].
    + split; [by eauto|by left].
    + split; [by intros [?|?]|by right].
Qed.

(** One pass over a list of names: what the target had stays, and a name
    it lacked gets what the source has for it. *)
Lemma copy_names (source : list (string * Descriptor)) (names : list string)
    (target : list (string * Descriptor)) :
  let target' :=
    foldl (λ target prop,
             match getOwnPropertyDescriptor target prop with
             | Some _ => target
             | None =>
                 target ++
                 [(prop, default emptyDescriptor
                           (getOwnPropertyDescriptor source prop))]
             end) target names in
  target `prefix_of` target' ∧
  ∀ prop,
    getOwnPropertyDescriptor target' prop
    = match getOwnPropertyDescriptor target prop with
      | Some descriptor => Some descriptor
      | None =>
          if decide (prop ∈ names)
          then Some (default emptyDescriptor
                       (getOwnPropertyDescriptor source prop))
          else None
      end.
Proof.
  revert target. induction names as [|name names IH]; intros target; simpl.
  { split; [done|]. intros prop.
    by destruct (getOwnPropertyDescriptor target prop). }
  destruct (getOwnPropertyDescriptor target name) as [d|] eqn:Hname.
  - destruct (IH target) as [Hpre Hget]. split; [done|].
    intros prop. rewrite Hget.
    destruct (getOwnPropertyDescriptor target prop) eqn:Hprop; [done|].
    destruct (decide (prop = name)) as [->|Hne]; [congruence|].
    destruct (decide (prop ∈ names)) as [Hin|Hnin].
    + by rewrite decide_True by (by right).
    + rewrite decide_False; [done|]. by intros [?|?]%elem_of_cons.
  - destruct (IH (target ++
      [(name, default emptyDescriptor (getOwnPropertyDescriptor source name))]))
      as [Hpre Hget].
    split; [etrans; [|exact Hpre]; by apply prefix_app_r|].
    intros prop. rewrite Hget, getOwnPropertyDescriptor_app. simpl.
    destruct (getOwnPropertyDescriptor target prop) eqn:Hprop; [done|].
    destruct (decide (name = prop)) as [->|Hne].
    + by rewrite decide_True by (by left).
    + destruct (decide (prop ∈ names)) as [Hin|Hnin].
      * by rewrite decide_True by (by right).
      * rewrite decide_False; [done|].
        intros [?|?]%elem_of_cons; [congruence|done].
Qed.

Lemma copyOwnPropsIfNotPresent_get (target : list (string * Descriptor))
    (source : JSObject) :
  target `prefix_of` copyOwnPropsIfNotPresent target source ∧
  ∀ prop,
    getOwnPropertyDescriptor (copyOwnPropsIfNotPresent target source) prop
    = match getOwnPropertyDescriptor target prop with
      | Some descriptor => Some descriptor
      | None => getOwnPropertyDescriptor (own Descriptor source) prop
      end.
Proof.
  destruct (copy_names (own Descriptor source) (own Descriptor source).*1
              target) as [Hpre Hget].
  split; [exact Hpre|]. intros prop.
  unfold Mock.copyOwnPropsIfNotPresent. rewrite Hget.
  destruct (getOwnPropertyDescriptor target prop); [done|].
  destruct (decide (prop ∈ (own Descriptor source).*1)) as [Hin|Hnin].
  - apply getOwnPropertyDescriptor_keys in Hin as [d Hd]. by rewrite Hd.
  - destruct (getOwnPropertyDescriptor (own Descriptor source) prop) eqn:Hd;
      [|done].
    exfalso. apply Hnin, getOwnPropertyDescriptor_keys. by eexists.
Qed.

Lemma JSObject_chain_ind (P : JSObject → Prop) :
  (∀ props, P (mkJSObject Descriptor props None)) →
  (∀ props next, P next → P (mkJSObject Descriptor props (Some next))) →
  ∀ o, P o.
Proof.
  intros Hlast Hnext. fix IH 1.
  intros [props [next|]]; [apply Hnext, IH|apply Hlast].
Qed.

Lemma copyChain_get (chain : JSObject) :
  ∀ target : list (string * Descriptor),
    target `prefix_of` copyChain chain target ∧
    ∀ prop,
      getOwnPropertyDescriptor (copyChain chain target) prop
      = match getOwnPropertyDescriptor target prop with
        | Some descriptor => Some descriptor
        | None => findProperty chain prop
        end.
Proof.
  induction chain as [props|props next IH] using JSObject_chain_ind;
    intros target.
  - destruct (copyOwnPropsIfNotPresent_get target
                (mkJSObject Descriptor props None)) as [Hpre Hget].
    split; [exact Hpre|]. intros prop.
    change (copyChain (mkJSObject Descriptor props None) target)
      with (copyOwnPropsIfNotPresent target
              (mkJSObject Descriptor props None)).
    rewrite Hget. simpl.
    by destruct (getOwnPropertyDescriptor target prop),
                (getOwnPropertyDescriptor props prop).
  - destruct (copyOwnPropsIfNotPresent_get target
                (mkJSObject Descriptor props (Some next))) as [Hpre Hget].
    destruct (IH (copyOwnPropsIfNotPresent target
                    (mkJSObject Descriptor props (Some next))))
      as [Hpre' Hget'].
    split; [by etrans|]. intros prop.
    change (copyChain (mkJSObject Descriptor props (Some next)) target)
      with (copyChain next
              (copyOwnPropsIfNotPresent target
                 (mkJSObject Descriptor props (Some next)))).
    rewrite Hget', Hget. simpl.
    by destruct (getOwnPropertyDescriptor target prop),
                (getOwnPropertyDescriptor props prop).
Qed.

Lemma copyOwnProps_get (sources : list JSObject) :
  ∀ target : list (string * Descriptor),
    target `prefix_of` copyOwnProps target sources ∧
    ∀ prop,
      getOwnPropertyDescriptor (copyOwnProps target sources) prop
      = match getOwnPropertyDescriptor target prop with
        | Some descriptor => Some descriptor
        | None => findFirst sources prop
        end.
Proof.
  induction sources as [|source sources IH]; intros target.
  { split; [done|]. intros prop. simpl.
    by destruct (getOwnPropertyDescriptor target prop). }
  destruct (copyChain_get source target) as [Hpre Hget].
  destruct (IH (copyChain source target)) as [Hpre' Hget'].
  split; [by etrans|]. intros prop.
  change (copyOwnProps target (source :: sources))
    with (copyOwnProps (copyChain source target) sources).
  rewrite Hget', Hget. simpl.
  by destruct (getOwnPropertyDescriptor target prop),
              (findProperty source prop).
Qed.

End properties.


(** X19. With preserved resolvers the resolved value wins. If it is
    [undefined], the mocked value takes its place, thrown when the mock
    failed with an error. Otherwise it is returned as it is, unless both
    values are objects (the mocked one no error, and not both dates): then
    the result is a new object with the prototype of the resolved one that
    has, as own properties, every property of the resolved value, own or
    inherited, and those properties of the mocked value that the resolved
    one lacks. *)
Theorem mergeResolved_prefers_resolved (Descriptor : Type)
    (emptyDescriptor : Descriptor)
    (mockedValue resolvedValue : JSValue Descriptor) :
  let result := mergeResolved Descriptor emptyDescriptor mockedValue
                  resolvedValue in
  (resolvedValue = VUndefined Descriptor →
   result = if isError Descriptor mockedValue then Rejected Descriptor mockedValue
            else Fulfilled Descriptor mockedValue) ∧
  (resolvedValue ≠ VUndefined Descriptor →
   (isObject Descriptor resolvedValue = false
    ∨ isObject Descriptor mockedValue = false
    ∨ isError Descriptor mockedValue = true
    ∨ (isDate Descriptor resolvedValue = true
       ∧ isDate Descriptor mockedValue = true)) →
   result = Fulfilled Descriptor resolvedValue) ∧
  (∀ classM mocked classR resolved,
     mockedValue = VObj Descriptor classM mocked →
     resolvedValue = VObj Descriptor classR resolved →
     classM ≠ ErrorObject →
     ¬ (classR = DateObject ∧ classM = DateObject) →
     ∃ merged,
       result = Fulfilled Descriptor (VObj Descriptor classR merged) ∧
       prototype Descriptor merged = prototype Descriptor resolved ∧
       ∀ prop,
         getOwnPropertyDescriptor Descriptor (own Descriptor merged) prop
         = match findProperty Descriptor resolved prop with
           | Some descriptor => Some descriptor
           | None => findProperty Descriptor mocked prop
           end).
Proof.
  intros result. split_and!.
  - intros ->. unfold result, mergeResolved.
    destruct (isError Descriptor mockedValue) eqn:He; [done|].
    simpl. by destruct mockedValue.
  - intros Hdef Hcase. unfold result, mergeResolved.
    destruct mockedValue as [| | | |[| |] m], resolvedValue as [| | | |[| |] r];
      simpl in *; try done;
      destruct Hcase as [?|[?|[?|[? ?]]]]; done.
  - intros classM mocked classR resolved -> -> HM HD.
    exists (mkJSObject Descriptor
              (copyOwnProps Descriptor emptyDescriptor [] [resolved; mocked])
              (prototype Descriptor resolved)).
    split_and!.
    + unfold result, mergeResolved.
      destruct classM, classR; simpl; try done. exfalso. by apply HD.
    + done.
    + intros prop. simpl.
      destruct (copyOwnProps_get Descriptor emptyDescriptor
                  [resolved; mocked] []) as [_ Hget].
      rewrite Hget. simpl.
      by destruct (findProperty Descriptor resolved prop),
                  (findProperty Descriptor mocked prop).
Qed.

(** The resolved object [{ a: 1 }] with the prototype [{ b: 2 }], merged
    with the mocked object [{ a: 9, c: 3 }]: the resolved value keeps [a],
    its inherited [b] becomes an own property, and the mock adds [c]. *)
Example mergeResolved_objects :
  let resolved := mkJSObject nat [("a", 1)]
                    (Some (mkJSObject nat [("b", 2)] None)) in
  let mocked := mkJSObject nat [("a", 9); ("c", 3)] None in
  mergeResolved nat 0 (VObj nat OtherObject mocked)
    (VObj nat OtherObject resolved)
  = Fulfilled nat
      (VObj nat OtherObject
         (mkJSObject nat [("a", 1); ("b", 2); ("c", 3)]
            (Some (mkJSObject nat [("b", 2)] None)))).
Proof. reflexivity. Qed.

End MockFacts.
